(** * Yetria Career Guidance Platform: the prediction and scoring engine

    A shallow embedding of the scoring/prediction core of the backend
    ([app/services/prediction_service.py], [app/api/endpoints/responses.py],
    [app/crud/response_crud.py], [app/crud/scenario_crud.py],
    [app/services/transformation_service.py]) together with the properties
    its design document states about it.

    Conventions of the embedding.
    - A Python [dict] is an association list in insertion order (iteration
      order matters for the fuzzy key lookup).
    - In the prediction service a Python [float] is an IEEE-754 binary64
      number ([Py.Binary64]), with its rounding, its infinities and its
      NaN.  In the aggregation of option scores a score is the exact
      rational it denotes, and sums and means are the mathematical ones.
    - A Python [str] is a [string].  What depends on the Unicode character
      database ([strip], [lower]) is a parameter of the prediction service
      ([Interpreter.t]); elsewhere whitespace and case are those of the
      ASCII range.
    - [raise] is the constructor [Raise] of [result]; [try/except] is a
      [match] on it. *)

From Stdlib Require Import List String Ascii Bool Arith ZArith QArith Qround.
From Stdlib Require Import Qabs Qpower Qreduction.
From Stdlib Require Import DecimalString Lqa.
From Stdlib Require Import Lia Permutation Sorted Morphisms.
Import ListNotations.
Close Scope Q_scope.
Open Scope string_scope.

(* ================================================================== *)
(** * Python prelude *)
(* ================================================================== *)

Module Py.

(** Exceptions that the modelled code raises or catches. *)
Inductive exn : Type :=
| TypeError (msg : string)
| ValueError (msg : string)
| KeyError (msg : string)
| IndexError (msg : string)
| FileNotFoundError (filename : string)
| IntegrityError (msg : string)
| HTTPException (status_code : Z) (detail : string)
| ZeroDivisionError (msg : string)
| OverflowError (msg : string)
| RuntimeError (msg : string).

(** [str(e)] *)
Definition str_exn (e : exn) : string :=
  match e with
  | TypeError m | ValueError m | KeyError m | IndexError m
  | IntegrityError m | ZeroDivisionError m | OverflowError m
  | RuntimeError m => m
  | FileNotFoundError f => f
  | HTTPException _ d => d
  end.

Inductive result (A : Type) : Type :=
| Ok (a : A)
| Raise (e : exn).
Arguments Ok {A} a.
Arguments Raise {A} e.

Definition bind {A B} (r : result A) (k : A -> result B) : result B :=
  match r with
  | Ok a => k a
  | Raise e => Raise e
  end.

(** ** Strings *)

Definition ord (s : string) : result Z :=
  match s with
  | String c EmptyString => Ok (Z.of_nat (nat_of_ascii c))
  | _ => Raise (TypeError "ord() expected a character")
  end.

Definition quote_char : ascii := "'"%char.
Definition dquote_char : ascii := "034"%char.

(** [str.isspace] on the ASCII range. *)
Definition is_space (c : ascii) : bool :=
  let n := nat_of_ascii c in
  ((9 <=? n) && (n <=? 13) || (28 <=? n) && (n <=? 32))%nat.

Fixpoint lstrip_chars (s : list ascii) : list ascii :=
  match s with
  | [] => []
  | c :: s' => if is_space c then lstrip_chars s' else s
  end.

(** [s.strip()] *)
Definition strip (s : string) : string :=
  string_of_list_ascii
    (rev (lstrip_chars (rev (lstrip_chars (list_ascii_of_string s))))).

Definition lower_char (c : ascii) : ascii :=
  let n := nat_of_ascii c in
  if ((65 <=? n) && (n <=? 90))%nat then ascii_of_nat (n + 32) else c.

Definition upper_char (c : ascii) : ascii :=
  let n := nat_of_ascii c in
  if ((97 <=? n) && (n <=? 122))%nat then ascii_of_nat (n - 32) else c.

Fixpoint map_string (f : ascii -> ascii) (s : string) : string :=
  match s with
  | EmptyString => EmptyString
  | String c s' => String (f c) (map_string f s')
  end.

(** [s.lower()] and [s.upper()] *)
Definition lower : string -> string := map_string lower_char.
Definition upper : string -> string := map_string upper_char.

(** [s.replace(c, '')] for a one-character [c] *)
Fixpoint remove_char (c : ascii) (s : string) : string :=
  match s with
  | EmptyString => EmptyString
  | String c' s' =>
      if Ascii.eqb c' c then remove_char c s' else String c' (remove_char c s')
  end.

(** [chr(n)] and [ord(s)] *)
Definition chr (n : nat) : string := String (ascii_of_nat n) EmptyString.

(** ** Numbers *)

(** [round(x)]: nearest integer, ties to even. *)
Definition round (x : Q) : Z :=
  let f := Qfloor x in
  match Qcompare (x - inject_Z f) (1 # 2) with
  | Lt => f
  | Gt => (f + 1)%Z
  | Eq => if Z.even f then f else (f + 1)%Z
  end.

(** [round(x, 1)]: the nearest multiple of one tenth. *)
Definition round1 (x : Q) : Q := Qmake (round (x * 10)) 10.

(** ** Floats

    A [float] is an IEEE-754 binary64 number: a finite number, given by the
    rational it denotes, an infinity or a NaN.  An arithmetic result is the
    exact result rounded to the nearest number with 53 significant bits,
    ties to the even significand, as the hardware does.  The two zeros,
    which Python's [==] does not tell apart, are one number here. *)
Module Binary64.

Inductive t : Type :=
| Finite (x : Q)
| Infinity (negative : bool)
| NaN.

(** [2 ** e] *)
Definition pow2 (e : Z) : Q := Qpower 2 e.

(** For [x <> 0], the exponent [e] with [2 ** e <= |x| < 2 ** (e + 1)]. *)
Definition magnitude (x : Q) : Z :=
  let e := (Z.log2 (Z.abs (Qnum x)) - Z.log2 (Zpos (Qden x)))%Z in
  if Qle_bool (pow2 e) (Qabs x) then e else (e - 1)%Z.

(** The exponent of the unit in the last place of the numbers around [x]:
    53 significant bits, and nothing finer than the subnormal numbers. *)
Definition ulp_exponent (x : Q) : Z := Z.max (magnitude x - 52) (-1074).

(** The multiple of the unit in the last place that is nearest to a
    positive [x], and the same for any [x], by sign and magnitude. *)
Definition nearest_positive (x : Q) : Q :=
  let e := ulp_exponent x in
  (inject_Z (round (x * pow2 (- e))) * pow2 e)%Q.

Definition nearest (x : Q) : Q :=
  match Qcompare x 0 with
  | Eq => 0%Q
  | Gt => Qred (nearest_positive x)
  | Lt => Qred (- nearest_positive (- x))
  end.

Definition is_negative (x : Q) : bool := (Qnum x <? 0)%Z.

(** The float of an exact result: beyond the largest float, an infinity. *)
Definition of_Q (x : Q) : t :=
  let y := nearest x in
  if Qle_bool (pow2 1024) (Qabs y) then Infinity (is_negative y) else Finite y.

Definition is_nan (a : t) : bool :=
  match a with NaN => true | _ => false end.

Definition opp (a : t) : t :=
  match a with
  | Finite x => Finite (- x)
  | Infinity s => Infinity (negb s)
  | NaN => NaN
  end.

(** [a + b], [a - b] and [a * b] *)
Definition add (a b : t) : t :=
  match a, b with
  | NaN, _ | _, NaN => NaN
  | Finite x, Finite y => of_Q (x + y)
  | Infinity s, Finite _ | Finite _, Infinity s => Infinity s
  | Infinity s, Infinity s' => if Bool.eqb s s' then Infinity s else NaN
  end.

Definition sub (a b : t) : t := add a (opp b).

Definition mul (a b : t) : t :=
  match a, b with
  | NaN, _ | _, NaN => NaN
  | Finite x, Finite y => of_Q (x * y)
  | Infinity s, Finite y | Finite y, Infinity s =>
      if Qeq_bool y 0 then NaN else Infinity (xorb s (is_negative y))
  | Infinity s, Infinity s' => Infinity (xorb s s')
  end.

(** [a <= b]; a comparison with a NaN is false. *)
Definition leb (a b : t) : bool :=
  match a, b with
  | NaN, _ | _, NaN => false
  | Finite x, Finite y => Qle_bool x y
  | Infinity s, Infinity s' => s || negb s'
  | Infinity s, Finite _ => s
  | Finite _, Infinity s => negb s
  end.

(** [float(n)] for an [int] *)
Definition of_int (n : Z) : result t :=
  match of_Q (inject_Z n) with
  | Infinity _ => Raise (OverflowError "int too large to convert to float")
  | a => Ok a
  end.

(** [round(a)]: the nearest integer, ties to even. *)
Definition round (a : t) : result Z :=
  match a with
  | Finite x => Ok (Py.round x)
  | Infinity _ => Raise (OverflowError "cannot convert float infinity to integer")
  | NaN => Raise (ValueError "cannot convert float NaN to integer")
  end.

(** [round(a, 1)]: the float of the nearest decimal with one digit after
    the point (ties between two decimals go to the even digit); infinities
    and NaN are returned as they are.  A float of magnitude [2 ** 52] or
    more is an integer and is its own rounding, so that the result of a
    finite float is finite. *)
Definition round1 (a : t) : t :=
  match a with
  | Finite x => of_Q (inject_Z (Py.round (x * 10)) / 10)
  | _ => a
  end.

End Binary64.

(** ** Dictionaries, in insertion order *)

Section Dict.
Context {K V : Type} (eqb : K -> K -> bool).

Definition dict := list (K * V).

(** [d.get(k)] as an option *)
Fixpoint lookup (d : dict) (k : K) : option V :=
  match d with
  | [] => None
  | (k', v) :: d' => if eqb k' k then Some v else lookup d' k
  end.

(** [d[k] = v]: an existing key keeps its position *)
Fixpoint set (d : dict) (k : K) (v : V) : dict :=
  match d with
  | [] => [(k, v)]
  | (k', v') :: d' =>
      if eqb k' k then (k', v) :: d' else (k', v') :: set d' k v
  end.

Definition keys (d : dict) : list K := map fst d.
Definition values (d : dict) : list V := map snd d.
End Dict.
Arguments dict : clear implicits.

Definition sdict (V : Type) := dict string V.
Definition sget {V} (d : sdict V) (k : string) : option V := lookup String.eqb d k.
Definition sset {V} (d : sdict V) (k : string) (v : V) : sdict V := set String.eqb d k v.

(** [seq[i]] and [d[k]] *)
Definition index {A} (l : list A) (i : nat) : result A :=
  match nth_error l i with
  | Some a => Ok a
  | None => Raise (IndexError "index out of range")
  end.

Definition getitem {V} (d : sdict V) (k : string) : result V :=
  match sget d k with
  | Some v => Ok v
  | None => Raise (KeyError ("'" ++ k ++ "'"))
  end.

(** ** Dynamically typed values *)

#[local] Unset Elimination Schemes.
Inductive value : Type :=
| VNone
| VBool (b : bool)
| VInt (n : Z)
| VFloat (x : Binary64.t)
| VStr (s : string)
| VDict (d : list (string * value)).
#[local] Set Elimination Schemes.

Definition is_none (v : value) : bool :=
  match v with VNone => true | _ => false end.

(** [isinstance(v, (int, float))]; [bool] is a subclass of [int]. *)
Definition is_numeric (v : value) : bool :=
  match v with VBool _ | VInt _ | VFloat _ => true | _ => false end.

(** [d.get(k)]: [None] when the key is absent *)
Definition get (d : sdict value) (k : string) : value :=
  match sget d k with Some v => v | None => VNone end.

(** ** Sorting *)

(** [sorted] is stable; so is insertion from the right, where an element is
    put in front of the first element that does not strictly precede it.
    [before y x] says that [y] sorts strictly before [x]. *)
Section Sort.
Context {A : Type} (before : A -> A -> bool).

Fixpoint insert (x : A) (l : list A) : list A :=
  match l with
  | [] => [x]
  | y :: l' => if before y x then y :: insert x l' else x :: l
  end.

Definition sort (l : list A) : list A := fold_right insert [] l.

(** [x] may stand in front of [y] when [y] does not strictly precede it. *)
Definition in_order (x y : A) : Prop := before y x = false.
End Sort.

(** [sorted(l, key=key)] and [sorted(l, key=key, reverse=True)] for an
    integer key. *)
Definition sorted {A} (key : A -> Z) (l : list A) : list A :=
  sort (fun y x => (key y <? key x)%Z) l.
Definition sorted_reverse {A} (key : A -> Z) (l : list A) : list A :=
  sort (fun y x => (key x <? key y)%Z) l.

End Py.

(* ================================================================== *)
(** * The interpreter's text handling *)
(* ================================================================== *)

Module Interpreter.
Import Py.

(** [str.strip] and [str.lower] follow the Unicode character database, and
    [float] parses a string by the interpreter's grammar of numbers.  These
    tables are not part of the repository: the embedding takes them as a
    parameter, and what is proved holds whatever they are.  A [string] then
    stands for the UTF-8 encoding of a [str]. *)
Record t : Type := {
  strip : string -> string;
  lower : string -> string;
  float_of_str : string -> result Binary64.t
}.

(** The interpreter on ASCII text, for the examples: white space and case
    are those of the ASCII range, and no example takes the [float] of a
    string. *)
Definition ascii : t :=
  {| strip := Py.strip;
     lower := Py.lower;
     float_of_str := fun s =>
       Raise (ValueError ("could not convert string to float: '" ++ s ++ "'")) |}.

End Interpreter.

(* ================================================================== *)
(** * services/prediction_service.py *)
(* ================================================================== *)

Module Prediction.
Import Py.

(** ** The artifact bundle *)

(** Modelled from the spec: the feature order a classifier or scaler was
    fitted with ([feature_name_], [feature_names_in_]).  The service never
    reads it; it only serves to state what agreement between artifacts
    means. *)
Record classifier : Type := {
  feature_name_ : list string;
  predict_proba : list Binary64.t -> result (list Binary64.t)
}.

(** [transform] is applied to [np.array(ordered_scores).reshape(1, -1)],
    which holds the validated numbers as they are. *)
Record feature_scaler : Type := {
  feature_names_in_ : list string;
  transform : list value -> result (list Binary64.t)
}.

Record label_encoder : Type := { classes_ : list string }.

Definition group_averages : Type := sdict (sdict Binary64.t).

Record PredictionService : Type := {
  model : classifier;
  scaler : feature_scaler;
  le : label_encoder;
  grup_ortalamalari : group_averages;
  feature_names : list string
}.

(** ** The result *)

Record uyum_skoru : Type := { meslek : string; uyum : Z }.

Record karsilastirma : Type := {
  yetkinlik : string;
  kullanici_skoru : Binary64.t;
  grup_ortalamasi : Binary64.t;
  fark : Binary64.t
}.

Inductive payload : Type :=
| Error (error : string)
| Prediction (uyum_skorlari : list uyum_skoru)
             (kazanan_meslek : string)
             (yetkinlik_karsilastirmasi : list karsilastirma).

Section WithInterpreter.
Variable interp : Interpreter.t.

(** ** [_validate_input] *)

(** [s.strip().lower()] *)
Definition clean (s : string) : string :=
  Interpreter.lower interp (Interpreter.strip interp s).

(** The inner [for user_key, user_val in user_scores.items()] loop: the
    value of the first key that equals the feature after cleaning ([None]
    when there is none). *)
Fixpoint fuzzy_match (items : sdict value) (feature_clean : string) : value :=
  match items with
  | [] => VNone
  | (user_key, user_val) :: rest =>
      if String.eqb (clean user_key) feature_clean then user_val
      else fuzzy_match rest feature_clean
  end.

(** Lines 76-87: the exact lookup, then the fuzzy one. *)
Definition find_score (user_scores : sdict value) (feature : string) : value :=
  let score := get user_scores feature in
  if is_none score then fuzzy_match user_scores (clean feature) else score.

Definition not_numeric_msg (feature : string) : string :=
  "'" ++ feature ++ "' score must be numeric.".

(** The [for feature in self.feature_names] loop, with its two
    accumulators.  [missing_keys] is what the function reports through
    [logger.warning].  The default is the literal [0.5]. *)
Fixpoint validate_loop (features : list string) (user_scores : sdict value)
    (ordered_scores : list value) (missing_keys : list string)
    : result (list value * list string) :=
  match features with
  | [] => Ok (ordered_scores, missing_keys)
  | feature :: rest =>
      let score := find_score user_scores feature in
      if is_none score then
        validate_loop rest user_scores
          (ordered_scores ++ [VFloat (Binary64.Finite (1 # 2))])
          (missing_keys ++ [feature])
      else if is_numeric score then
        validate_loop rest user_scores (ordered_scores ++ [score]) missing_keys
      else Raise (ValueError (not_numeric_msg feature))
  end.

Definition _validate_input (self : PredictionService) (user_scores : value)
    : result (list value * list string) :=
  match user_scores with
  | VDict d => validate_loop (feature_names self) d [] []
  | _ => Raise (TypeError "Input must be in 'dict' format.")
  end.

(** ** [predict_and_analyze] *)

(** [float(v)] *)
Definition float (v : value) : result Binary64.t :=
  match v with
  | VBool b => Ok (Binary64.Finite (if b then 1 else 0))
  | VInt n => Binary64.of_int n
  | VFloat x => Ok x
  | VStr s => Interpreter.float_of_str interp s
  | VNone | VDict _ =>
      Raise (TypeError "float() argument must be a string or a real number")
  end.

(** [np.argmax]: the first index that holds the largest entry; a NaN counts
    as the largest. *)
Fixpoint argmax_from (best_index : nat) (best : Binary64.t) (i : nat)
    (l : list Binary64.t) : nat :=
  match l with
  | [] => best_index
  | x :: l' =>
      if Binary64.is_nan best then best_index
      else if Binary64.leb x best then argmax_from best_index best (S i) l'
      else argmax_from i x (S i) l'
  end.

Definition argmax (l : list Binary64.t) : result nat :=
  match l with
  | [] => Raise (ValueError "attempt to get argmax of an empty sequence")
  | x :: l' => Ok (argmax_from 0 x 1 l')
  end.

(** Lines 121-124: the comprehension over [zip(classes_, probabilities)].
    [round] raises for a NaN or an infinity, and nothing catches it here. *)
Fixpoint build_uyum_skorlari (classes : list string)
    (probabilities : list Binary64.t) : result (list uyum_skoru) :=
  match classes, probabilities with
  | class_name :: classes', prob :: probabilities' =>
      bind (Binary64.round (Binary64.mul prob (Binary64.Finite 100))) (fun n =>
      bind (build_uyum_skorlari classes' probabilities') (fun rest =>
      Ok ({| meslek := class_name; uyum := n |} :: rest)))
  | _, _ => Ok []
  end.

(** Lines 134-166: one comparison row; the inner [try/except] replaces a
    failing row by the default one. *)
Definition default_row (feature : string) : karsilastirma :=
  {| yetkinlik := feature;
     kullanici_skoru := Binary64.Finite (1 # 2);
     grup_ortalamasi := Binary64.Finite (1 # 2);
     fark := Binary64.Finite 0 |}.

Definition comparison_row (user_scores : sdict value)
    (meslek_ortalamalari : sdict Binary64.t) (feature : string) : karsilastirma :=
  let user_score := find_score user_scores feature in
  let user_score :=
    if is_none user_score then VFloat (Binary64.Finite (1 # 2)) else user_score in
  let grup_ort :=
    match sget meslek_ortalamalari feature with
    | Some g => g
    | None => Binary64.Finite (1 # 2)
    end in
  match float user_score with
  | Ok u =>
      {| yetkinlik := feature;
         kullanici_skoru := Binary64.round1 u;
         grup_ortalamasi := Binary64.round1 grup_ort;
         fark := Binary64.round1 (Binary64.sub u grup_ort) |}
  | Raise _ => default_row feature
  end.

(** Lines 126-169 without the outer handler. *)
Definition build_comparison (self : PredictionService) (user_scores : sdict value)
    (probabilities : list Binary64.t) : result (string * list karsilastirma) :=
  bind (argmax probabilities) (fun winner_index =>
  bind (index (classes_ (le self)) winner_index) (fun kazanan_meslek =>
  bind (getitem (grup_ortalamalari self) kazanan_meslek) (fun meslek_ortalamalari =>
  Ok (kazanan_meslek,
      map (comparison_row user_scores meslek_ortalamalari) (feature_names self))))).

(** The entries of [user_scores]; it is a [dict] wherever this is used,
    since [_validate_input] has returned. *)
Definition items (user_scores : value) : sdict value :=
  match user_scores with VDict d => d | _ => [] end.

Definition is_ValueError_or_TypeError (e : exn) : bool :=
  match e with ValueError _ | TypeError _ => true | _ => false end.

Definition predict_and_analyze (self : PredictionService) (user_scores : value)
    : result payload :=
  match _validate_input self user_scores with
  | Raise e =>
      if is_ValueError_or_TypeError e then Ok (Error (str_exn e)) else Raise e
  | Ok (scores_array, _) =>
      match bind (transform (scaler self) scores_array)
                 (predict_proba (model self)) with
      | Raise e => Ok (Error ("Model prediction error: " ++ str_exn e))
      | Ok probabilities =>
          bind (build_uyum_skorlari (classes_ (le self)) probabilities)
               (fun uyum_skorlari =>
          match build_comparison self (items user_scores) probabilities with
          | Raise e => Ok (Error ("Error building comparison: " ++ str_exn e))
          | Ok (kazanan_meslek, yetkinlik_karsilastirmasi) =>
              Ok (Prediction (sorted_reverse uyum uyum_skorlari)
                             kazanan_meslek yetkinlik_karsilastirmasi)
          end)
      end
  end.

End WithInterpreter.

(** ** [__init__]: loading the artifacts *)

(** A file of the artifacts directory.  The directory is given as one
    listing per kind of pickled object, each in the order in which [glob]
    enumerates it. *)
Record file (A : Type) : Type := {
  name : string;
  st_mtime : Q;
  content : A
}.
Arguments name {A} f.
Arguments st_mtime {A} f.
Arguments content {A} f.

Record artifacts_dir : Type := {
  classifier_files : list (file classifier);
  scaler_files : list (file feature_scaler);
  encoder_files : list (file label_encoder);
  group_files : list (file group_averages)
}.

Definition endswith (s suffix : string) : bool :=
  let n := String.length s in
  let m := String.length suffix in
  (m <=? n)%nat && String.eqb (substring (n - m) m s) suffix.

(** [fnmatch] against [prefix*suffix] *)
Definition matches (prefix suffix : string) (filename : string) : bool :=
  (String.length prefix + String.length suffix <=? String.length filename)%nat
  && String.prefix prefix filename && endswith filename suffix.

Definition glob {A} (prefix suffix : string) (files : list (file A))
    : list (file A) :=
  filter (fun f => matches prefix suffix (name f)) files.

(** [max(files, key=lambda x: x.stat().st_mtime)]: the first file with the
    largest time. *)
Fixpoint max_mtime {A} (best : file A) (files : list (file A)) : file A :=
  match files with
  | [] => best
  | f :: files' =>
      match Qcompare (st_mtime best) (st_mtime f) with
      | Lt => max_mtime f files'
      | _ => max_mtime best files'
      end
  end.

(** [joblib.load(self.artifacts_path / filename)] *)
Fixpoint joblib_load {A} (files : list (file A)) (filename : string) : result A :=
  match files with
  | [] => Raise (FileNotFoundError filename)
  | f :: files' =>
      if String.eqb (name f) filename then Ok (content f)
      else joblib_load files' filename
  end.

(** The [glob] / [max] / fallback pattern of lines 30-39 and 44-51. *)
Definition load_latest {A} (prefix suffix legacy : string) (files : list (file A))
    : result A :=
  match glob prefix suffix files with
  | f :: fs => Ok (content (max_mtime f fs))
  | [] => joblib_load files legacy
  end.

Definition __init__ (artifacts_path : artifacts_dir) : result PredictionService :=
  bind (load_latest "lightgbm_optimized_" ".pkl" "best_model.joblib"
          (classifier_files artifacts_path)) (fun model =>
  bind (joblib_load (scaler_files artifacts_path) "scaler.joblib") (fun scaler =>
  bind (load_latest "label_encoder_" ".pkl" "label_encoder.joblib"
          (encoder_files artifacts_path)) (fun le =>
  bind (joblib_load (group_files artifacts_path) "grup_ortalamalari.joblib")
       (fun grup_ortalamalari =>
  bind (index (values grup_ortalamalari) 0) (fun first_row =>
  Ok {| model := model; scaler := scaler; le := le;
        grup_ortalamalari := grup_ortalamalari;
        feature_names := keys first_row |}))))).

End Prediction.

(* ================================================================== *)
(** * api/endpoints/responses.py: from saved responses to scores *)
(* ================================================================== *)

Module Responses.
Import Py.

(** A row of the query that joins a user's responses with the chosen
    option, its scenario and the scenario's competency. *)
Record row : Type := {
  score : Q;
  comp_name : string;
  scenario_id : Z;
  option_id : Z
}.

(** [d.get(k, 0)] *)
Definition get0 {V} (zero : V) (d : sdict V) (k : string) : V :=
  match sget d k with Some v => v | None => zero end.

(** [x / n] *)
Definition truediv (x : Q) (n : Z) : result Q :=
  if (n =? 0)%Z then Raise (ZeroDivisionError "division by zero")
  else Ok (x / inject_Z n)%Q.

(** The body of the accumulation loop, for a given way [key] of naming the
    competency of a row. *)
Definition accumulate (key : row -> string) (acc : sdict Q * sdict Z) (r : row)
    : sdict Q * sdict Z :=
  let k := key r in
  (sset (fst acc) k (get0 0%Q (fst acc) k + score r)%Q,
   sset (snd acc) k (get0 0%Z (snd acc) k + 1)%Z).

(** [{k: finish(totals[k] / counts[k]) for k in totals}] *)
Fixpoint averages (finish : Q -> Q) (ks : list string) (totals : sdict Q)
    (counts : sdict Z) : result (sdict Q) :=
  match ks with
  | [] => Ok []
  | k :: ks' =>
      bind (getitem totals k) (fun t =>
      bind (getitem counts k) (fun c =>
      bind (truediv t c) (fun m =>
      bind (averages finish ks' totals counts) (fun rest =>
      Ok ((k, finish m) :: rest)))))
  end.

(** Line 69 of [submit_responses_and_predict] *)
Definition comp_name_clean (comp_name : string) : string :=
  remove_char dquote_char (remove_char quote_char (strip comp_name)).

(** Lines 64-73 of [submit_responses_and_predict]: [user_scores] from
    [rows]. *)
Definition submit_user_scores (rows : list row) : result (sdict Q) :=
  let acc := fold_left (accumulate (fun r => comp_name_clean (comp_name r)))
                       rows ([], []) in
  averages round1 (keys (fst acc)) (fst acc) (snd acc).

(** Lines 155-166 of [get_result_from_saved_responses]: [user_scores] from
    [rows]. *)
Definition saved_user_scores (rows : list row) : result (sdict Q) :=
  match rows with
  | [] => Raise (HTTPException 400 "No responses found for user")
  | _ =>
      let acc := fold_left (accumulate comp_name) rows ([], []) in
      averages (fun m => m) (keys (fst acc)) (fst acc) (snd acc)
  end.

End Responses.

(* ================================================================== *)
(** * models.py, crud/response_crud.py, crud/scenario_crud.py,
      services/transformation_service.py *)
(* ================================================================== *)

Module ScenarioOption.
Record t : Type := {
  scenariooptionid : Z;
  scenarioid : Z;
  optiontext : string;
  score : Q
}.
End ScenarioOption.

Module UserResponse.
(** A response row as far as the code reads and writes it: the answer it
    records.  The surrogate key [scenarioresponseid] and the timestamp
    [responsetime] are assigned by the database on insert and are not
    modelled, so two rows of the model are equal when they record the same
    answer. *)
Record t : Type := {
  userid : Z;
  scenariooptionid : Z
}.
End UserResponse.

Module ResponseIn.
Record t : Type := {
  scenario_id : Z;
  option_letter : string
}.
End ResponseIn.

Module Crud.
Import Py.

(** A database session: the option table (never written here), the
    committed response rows, and the response rows as the open transaction
    sees them. *)
Record Session : Type := {
  scenariooption : list ScenarioOption.t;
  committed : list UserResponse.t;
  pending : list UserResponse.t
}.

Definition str_of_Z (n : Z) : string := NilZero.string_of_int (Z.to_int n).

(** [db.query(ScenarioOption).filter(scenarioid == scenario_id)
       .order_by(scenariooptionid).all()] *)
Definition options_of_scenario (db : Session) (scenario_id : Z)
    : list ScenarioOption.t :=
  sorted ScenarioOption.scenariooptionid
    (filter (fun o => (ScenarioOption.scenarioid o =? scenario_id)%Z)
            (scenariooption db)).

Definition convert_option_letter_to_scenariooptionid (db : Session)
    (scenario_id : Z) (option_letter : string) : result Z :=
  let options := options_of_scenario db scenario_id in
  match options with
  | [] => Raise (ValueError ("No options found for scenario " ++ str_of_Z scenario_id))
  | _ =>
      match option_letter with
      | String _ EmptyString =>
          let letter := upper option_letter in
          bind (ord letter) (fun code =>
          let option_index := (code - 65)%Z in
          if ((option_index <? 0) || (Z.of_nat (List.length options) <=? option_index))%Z
          then Raise (ValueError ("Option letter " ++ letter
                                  ++ " out of range for scenario "
                                  ++ str_of_Z scenario_id))
          else
            bind (index options (Z.to_nat option_index)) (fun o =>
            Ok (ScenarioOption.scenariooptionid o)))
      | _ => Raise (ValueError ("Invalid option letter: " ++ option_letter))
      end
  end.

(** ** [save_user_responses] *)

Definition unique_responses (responses : list ResponseIn.t)
    : dict Z ResponseIn.t :=
  fold_left (fun u response => set Z.eqb u (ResponseIn.scenario_id response) response)
            responses [].

Definition mem (x : Z) (l : list Z) : bool := existsb (Z.eqb x) l.

(** Lines 66-74: delete this user's responses to the options of one
    scenario. *)
Definition delete_for_scenario (user_id : Z) (db : Session) (scenario_id : Z)
    : Session :=
  let option_ids_for_scenario :=
    map ScenarioOption.scenariooptionid
        (filter (fun o => (ScenarioOption.scenarioid o =? scenario_id)%Z)
                (scenariooption db)) in
  match option_ids_for_scenario with
  | [] => db
  | _ =>
      {| scenariooption := scenariooption db;
         committed := committed db;
         pending :=
           filter (fun r => negb ((UserResponse.userid r =? user_id)%Z
                                  && mem (UserResponse.scenariooptionid r)
                                         option_ids_for_scenario))
                  (pending db) |}
  end.

(** Lines 77-85 *)
Fixpoint build_db_responses (db : Session) (user_id : Z)
    (responses : list ResponseIn.t) : result (list UserResponse.t) :=
  match responses with
  | [] => Ok []
  | response :: rest =>
      bind (convert_option_letter_to_scenariooptionid db
              (ResponseIn.scenario_id response)
              (ResponseIn.option_letter response)) (fun scenariooptionid =>
      bind (build_db_responses db user_id rest) (fun db_responses =>
      Ok ({| UserResponse.userid := user_id;
             UserResponse.scenariooptionid := scenariooptionid |}
          :: db_responses)))
  end.

Definition add_all (db : Session) (rows : list UserResponse.t) : Session :=
  {| scenariooption := scenariooption db;
     committed := committed db;
     pending := pending db ++ rows |}.

(** [UniqueConstraint('userid', 'scenariooptionid')] *)
Fixpoint unique_constraint_ok (rows : list UserResponse.t) : bool :=
  match rows with
  | [] => true
  | r :: rest =>
      negb (existsb (fun r' => (UserResponse.userid r' =? UserResponse.userid r)%Z
                               && (UserResponse.scenariooptionid r'
                                   =? UserResponse.scenariooptionid r)%Z) rest)
      && unique_constraint_ok rest
  end.

Definition commit (db : Session) : Session * result unit :=
  if unique_constraint_ok (pending db) then
    ({| scenariooption := scenariooption db;
        committed := pending db;
        pending := pending db |}, Ok tt)
  else (db, Raise (IntegrityError "_user_scenariooption_uc")).

Definition rollback (db : Session) : Session :=
  {| scenariooption := scenariooption db;
     committed := committed db;
     pending := committed db |}.

Definition save_user_responses (db : Session) (responses : list ResponseIn.t)
    (user_id : Z) : Session * result nat :=
  let unique_responses := unique_responses responses in
  let db1 := fold_left (delete_for_scenario user_id) (keys unique_responses) db in
  match build_db_responses db1 user_id (values unique_responses) with
  | Raise e => (rollback db1, Raise e)
  | Ok db_responses =>
      let db2 := match db_responses with
                 | [] => db1
                 | _ => add_all db1 db_responses
                 end in
      match commit db2 with
      | (db3, Ok _) => (db3, Ok (List.length db_responses))
      | (db3, Raise e) => (rollback db3, Raise e)
      end
  end.

(** ** Option letters *)

(** [enumerate] *)
Fixpoint enumerate_from {A} (i : nat) (l : list A) : list (nat * A) :=
  match l with
  | [] => []
  | a :: l' => (i, a) :: enumerate_from (S i) l'
  end.

Record option_with_letter : Type := { letter : string; text : string }.

(** Lines 31-37 of [get_all_scenarios], for the options [s.options] of one
    scenario. *)
Definition options_with_letters (s_options : list ScenarioOption.t)
    : list option_with_letter :=
  map (fun io => {| letter := chr (65 + fst io);
                    text := ScenarioOption.optiontext (snd io) |})
      (enumerate_from 0 (sorted ScenarioOption.scenariooptionid s_options)).

(** [l.index(opt)], rows being compared by primary key *)
Fixpoint list_index (l : list ScenarioOption.t) (opt : ScenarioOption.t) (i : nat)
    : result nat :=
  match l with
  | [] => Raise (ValueError "x is not in list")
  | o :: l' =>
      if (ScenarioOption.scenariooptionid o =? ScenarioOption.scenariooptionid opt)%Z
      then Ok i else list_index l' opt (S i)
  end.

(** Lines 46-53 of [transform_responses_to_scores]: the key under which
    [opt] enters [score_map]. *)
Definition score_map_key (db : Session) (opt : ScenarioOption.t)
    : result (Z * string) :=
  let scenario_options := options_of_scenario db (ScenarioOption.scenarioid opt) in
  bind (list_index scenario_options opt 0) (fun option_index =>
  Ok (ScenarioOption.scenarioid opt, chr (65 + option_index))).

End Crud.

(* ================================================================== *)
(** * Vocabulary of the stated properties *)
(* ================================================================== *)

Module Spec.
Import Py Prediction.
#[local] Open Scope list_scope.

Section WithInterpreter.
Variable interp : Interpreter.t.

(** [(k, v)] is the first entry of [d], in insertion order, whose key equals
    [feature] up to case and surrounding whitespace. *)
Definition first_fuzzy_key (d : sdict value) (feature k : string) (v : value)
    : Prop :=
  exists front back,
    d = front ++ (k, v) :: back /\
    clean interp k = clean interp feature /\
    forall k' v', In (k', v') front -> clean interp k' <> clean interp feature.

(** No key of [d] equals [feature] up to case and surrounding whitespace. *)
Definition no_fuzzy_key (d : sdict value) (feature : string) : Prop :=
  forall k v, In (k, v) d -> clean interp k <> clean interp feature.

(** What [_validate_input] appends for one feature, when it does not
    raise. *)
Definition feature_score (d : sdict value) (feature : string) : option value :=
  let v := find_score interp d feature in
  if is_none v then Some (VFloat (Binary64.Finite (1 # 2)))
  else if is_numeric v then Some v else None.

Definition defaulted (d : sdict value) (feature : string) : bool :=
  is_none (find_score interp d feature).

End WithInterpreter.

(** [w] is the class at the [argmax] of [probabilities] and [row] its
    group-average row. *)
Definition has_winner (self : PredictionService) (probabilities : list Binary64.t)
    (w : string) (row : sdict Binary64.t) : Prop :=
  exists i, argmax probabilities = Ok i /\
            nth_error (classes_ (le self)) i = Some w /\
            sget (grup_ortalamalari self) w = Some row.

(** The hundredfold of the probability is a finite float: the probability
    is neither a NaN nor an infinity, nor so large that its hundredfold
    is. *)
Definition finite_percentage (p : Binary64.t) : Prop :=
  exists x, Binary64.mul p (Binary64.Finite 100) = Binary64.Finite x.

(** A probability: a finite float between 0 and 1. *)
Definition probability (p : Binary64.t) : Prop :=
  exists x, p = Binary64.Finite x /\ (0 <= x)%Q /\ (x <= 1)%Q.

(** ** Artifact selection *)

(** The file name starts with [prefix] and ends with [suffix], with
    anything, or nothing, in between. *)
Definition named (prefix suffix filename : string) : Prop :=
  exists middle, filename = (prefix ++ middle ++ suffix)%string.

(** [f] is a file of the listing that is named [prefix...suffix] and whose
    modification time is the latest among the files so named. *)
Definition latest_match {A} (prefix suffix : string) (files : list (file A))
    (f : file A) : Prop :=
  In f files /\
  named prefix suffix (name f) /\
  forall g, In g files -> named prefix suffix (name g) ->
            (st_mtime g <= st_mtime f)%Q.

Definition no_match {A} (prefix suffix : string) (files : list (file A)) : Prop :=
  forall g, In g files -> ~ named prefix suffix (name g).

(** [a] is what the file called [filename] holds. *)
Definition stored {A} (filename : string) (files : list (file A)) (a : A) : Prop :=
  exists f, In f files /\ name f = filename /\ a = content f.

Definition absent {A} (filename : string) (files : list (file A)) : Prop :=
  forall f, In f files -> name f <> filename.

(** The optimized variant with the latest time when there is one, the
    legacy file otherwise. *)
Definition selected {A} (prefix suffix legacy : string) (files : list (file A))
    (a : A) : Prop :=
  (exists f, latest_match prefix suffix files f /\ a = content f)
  \/ (no_match prefix suffix files /\ stored legacy files a).

(** Classifier, scaler and group-average table name the same features in
    the same order as the canonical feature order. *)
Definition artifacts_agree (self : PredictionService) : Prop :=
  feature_name_ (model self) = feature_names self /\
  feature_names_in_ (scaler self) = feature_names self /\
  forall occupation row,
    In (occupation, row) (grup_ortalamalari self) ->
    keys row = feature_names self.

End Spec.

Module ResponsesSpec.
Import Py Responses.
#[local] Open Scope list_scope.

(** The recorded option scores of the rows whose competency is named [k],
    in row order. *)
Definition scores_of (key : row -> string) (k : string) (rows : list row)
    : list Q :=
  map score (filter (fun r => String.eqb (key r) k) rows).

Definition total (l : list Q) : Q := fold_left Qplus l 0%Q.

(** The arithmetic mean. *)
Definition mean (l : list Q) : Q :=
  (total l / inject_Z (Z.of_nat (List.length l)))%Q.

Definition normalized (r : row) : string := comp_name_clean (comp_name r).

Definition empathy_rows : list row :=
  [ {| score := 3%Q; comp_name := " 'Empathy' "; scenario_id := 1; option_id := 3 |};
    {| score := 1%Q; comp_name := "Empathy"; scenario_id := 2; option_id := 6 |};
    {| score := 5%Q; comp_name := "Logic"; scenario_id := 4; option_id := 20 |};
    {| score := 4%Q; comp_name := "Empathy "; scenario_id := 3; option_id := 14 |} ].

(** Five recorded answers with whole scores: four on the competency
    [Empathy], one on a competency whose stored name carries quotes. *)
Definition quoted_rows : list row :=
  [ {| score := 1%Q; comp_name := "Empathy"; scenario_id := 1; option_id := 1 |};
    {| score := 2%Q; comp_name := "Empathy"; scenario_id := 2; option_id := 6 |};
    {| score := 3%Q; comp_name := "'Logic'"; scenario_id := 4; option_id := 15 |};
    {| score := 2%Q; comp_name := "Empathy"; scenario_id := 3; option_id := 10 |};
    {| score := 2%Q; comp_name := "Empathy"; scenario_id := 5; option_id := 18 |} ].

End ResponsesSpec.

Module CrudSpec.
Import Py Crud.
#[local] Open Scope list_scope.

(** The primary key of the option table. *)
Definition option_ids_unique (db : Session) : Prop :=
  NoDup (map ScenarioOption.scenariooptionid (scenariooption db)).

(** [s.options]: the rows of the option table that belong to a scenario. *)
Definition scenario_options (db : Session) (scenario_id : Z)
    : list ScenarioOption.t :=
  filter (fun o => (ScenarioOption.scenarioid o =? scenario_id)%Z)
         (scenariooption db).

(** The option [option_id] belongs to the scenario [scenario_id]. *)
Definition option_in_scenario (db : Session) (scenario_id option_id : Z) : bool :=
  existsb (fun o => (ScenarioOption.scenariooptionid o =? option_id)%Z
                    && (ScenarioOption.scenarioid o =? scenario_id)%Z)
          (scenariooption db).

(** The rows among [rows] that record an answer of [user_id] to the
    scenario [scenario_id]. *)
Definition responses_to (db : Session) (rows : list UserResponse.t)
    (user_id scenario_id : Z) : list UserResponse.t :=
  filter (fun r => (UserResponse.userid r =? user_id)%Z
                   && option_in_scenario db scenario_id
                                         (UserResponse.scenariooptionid r))
         rows.

Definition responses_of (rows : list UserResponse.t) (user_id : Z)
    : list UserResponse.t :=
  filter (fun r => (UserResponse.userid r =? user_id)%Z) rows.

(** The row is an answer of [user_id] to one of the scenarios [ks]. *)
Definition answers_one_of (db : Session) (user_id : Z) (ks : list Z)
    (r : UserResponse.t) : bool :=
  (UserResponse.userid r =? user_id)%Z
  && existsb (fun s => option_in_scenario db s (UserResponse.scenariooptionid r)) ks.

(** The last response of a batch for a scenario, if the batch has one. *)
Definition last_response (responses : list ResponseIn.t) (scenario_id : Z)
    : option ResponseIn.t :=
  fold_left (fun found r =>
               if (ResponseIn.scenario_id r =? scenario_id)%Z then Some r
               else found)
            responses None.

(** At most one stored response per user and scenario. *)
Definition at_most_one (db : Session) (rows : list UserResponse.t) : Prop :=
  forall user_id scenario_id,
    (List.length (responses_to db rows user_id scenario_id) <= 1)%nat.

Definition make_option (id scenario : Z) : ScenarioOption.t :=
  {| ScenarioOption.scenariooptionid := id;
     ScenarioOption.scenarioid := scenario;
     ScenarioOption.optiontext := "option";
     ScenarioOption.score := 1%Q |}.

Definition make_response (user option : Z) : UserResponse.t :=
  {| UserResponse.userid := user; UserResponse.scenariooptionid := option |}.

Definition answer (scenario : Z) (letter : string) : ResponseIn.t :=
  {| ResponseIn.scenario_id := scenario; ResponseIn.option_letter := letter |}.

(** Scenario 1 with three options (stored out of order), scenario 2 with
    two; user 7 has answered both, user 8 the first. *)
Definition small_db : Session :=
  let rows := [make_response 7 1; make_response 8 1; make_response 7 5] in
  {| scenariooption :=
       [make_option 3 1; make_option 1 1; make_option 2 1;
        make_option 4 2; make_option 5 2];
     committed := rows;
     pending := rows |}.

(** One scenario with thirty-three options, numbered 1 to 33. *)
Definition wide_db : Session :=
  {| scenariooption :=
       map (fun i => make_option (Z.of_nat i) 1) (seq 1 33);
     committed := [];
     pending := [] |}.

End CrudSpec.

(* ================================================================== *)
(** * Sample data *)
(* ================================================================== *)

Module Samples.
Import Py Prediction.

(** The float that a decimal literal denotes. *)
Definition literal (x : Q) : Binary64.t := Binary64.of_Q x.

(** A scaler that passes the numbers on as floats. *)
Fixpoint as_floats (scores : list value) : result (list Binary64.t) :=
  match scores with
  | [] => Ok []
  | v :: rest =>
      bind (float Interpreter.ascii v) (fun x =>
      bind (as_floats rest) (fun xs => Ok (x :: xs)))
  end.

(** The bundle of the design document's example, with a second feature:
    a stub classifier for the classes Doctor and Engineer. *)
Definition stub_features : list string := ["Empathy"; "Logic"].

Definition stub_classifier (p : list Binary64.t) : classifier :=
  {| feature_name_ := stub_features; predict_proba := fun _ => Ok p |}.

Definition stub_scaler : feature_scaler :=
  {| feature_names_in_ := stub_features; transform := as_floats |}.

Definition stub_table : group_averages :=
  [("Doctor", [("Empathy", literal 4.2); ("Logic", literal 3.1)]);
   ("Engineer", [("Empathy", literal 2.5); ("Logic", literal 4.6)])].

Definition stub_service : PredictionService :=
  {| model := stub_classifier [literal 0.7; literal 0.3];
     scaler := stub_scaler;
     le := {| classes_ := ["Doctor"; "Engineer"] |};
     grup_ortalamalari := stub_table;
     feature_names := stub_features |}.

(** A label encoder that knows a class for which the group-average table
    has no row. *)
Definition drifted_service : PredictionService :=
  {| model := stub_classifier [literal 0.7; literal 0.3];
     scaler := stub_scaler;
     le := {| classes_ := ["Doctor"; "Engineer"] |};
     grup_ortalamalari :=
       [("Engineer", [("Empathy", literal 2.5); ("Logic", literal 4.6)])];
     feature_names := stub_features |}.

(** Two classes with the same probability; the row of the second lacks a
    feature. *)
Definition tied_service : PredictionService :=
  {| model := stub_classifier [literal 0.2; literal 0.4; literal 0.4];
     scaler := stub_scaler;
     le := {| classes_ := ["Doctor"; "Engineer"; "Artist"] |};
     grup_ortalamalari :=
       [("Doctor", [("Empathy", literal 4.2); ("Logic", literal 3.1)]);
        ("Engineer", [("Empathy", literal 2.25)]);
        ("Artist", [("Empathy", literal 4.0); ("Logic", literal 2.0)])];
     feature_names := stub_features |}.

(** Probabilities that fall on half a percent as decimals, but not as
    floats. *)
Definition half_percent_service : PredictionService :=
  {| model := stub_classifier [literal 0.005; literal 0.015; literal 0.715];
     scaler := stub_scaler;
     le := {| classes_ := ["Doctor"; "Engineer"; "Artist"] |};
     grup_ortalamalari := grup_ortalamalari tied_service;
     feature_names := stub_features |}.

(** A classifier that answers with a NaN. *)
Definition nan_service : PredictionService :=
  {| model := stub_classifier [Binary64.NaN; literal 0.3];
     scaler := stub_scaler;
     le := {| classes_ := ["Doctor"; "Engineer"] |};
     grup_ortalamalari := stub_table;
     feature_names := stub_features |}.

(** An artifacts directory after two optimisation runs on top of the
    baseline training; the newest pickle of all belongs to another model
    family. *)
Definition stub_dir : artifacts_dir :=
  {| classifier_files :=
       [ {| name := "best_model.joblib"; st_mtime := 100%Q;
            content := stub_classifier [literal 0.5; literal 0.5] |};
         {| name := "lightgbm_optimized_20240101_120000.pkl"; st_mtime := 200%Q;
            content := stub_classifier [literal 0.6; literal 0.4] |};
         {| name := "lightgbm_optimized_20240301_120000.pkl"; st_mtime := 300%Q;
            content := stub_classifier [literal 0.7; literal 0.3] |};
         {| name := "catboost_optimized_20240501_120000.pkl"; st_mtime := 400%Q;
            content := stub_classifier [literal 0.1; literal 0.9] |} ];
     scaler_files :=
       [ {| name := "scaler.joblib"; st_mtime := 100%Q; content := stub_scaler |} ];
     encoder_files :=
       [ {| name := "label_encoder.joblib"; st_mtime := 100%Q;
            content := {| classes_ := ["Doctor"; "Engineer"] |} |} ];
     group_files :=
       [ {| name := "grup_ortalamalari.joblib"; st_mtime := 100%Q;
            content := stub_table |} ] |}.

(** The same directory after the classifier was re-fitted with the two
    features in the other order. *)
Definition reordered_dir : artifacts_dir :=
  {| classifier_files :=
       [ {| name := "lightgbm_optimized_20240301_120000.pkl"; st_mtime := 300%Q;
            content := {| feature_name_ := ["Logic"; "Empathy"];
                          predict_proba := fun _ => Ok [literal 0.7; literal 0.3] |} |} ];
     scaler_files := scaler_files stub_dir;
     encoder_files := encoder_files stub_dir;
     group_files := group_files stub_dir |}.

Definition empathy_scores : sdict value :=
  [(" empathy", VFloat (Binary64.Finite 3))].

(** [None] under the exact key, a number under an earlier key that differs
    in case only. *)
Definition shadowed_none : sdict value :=
  [("empathy", VFloat (Binary64.Finite 3)); ("Empathy", VNone); ("Logic", VInt 4)].

End Samples.

(* ================================================================== *)
(** * api/endpoints/responses.py and scenarios.py, crud/scenario_crud.py:
      progress and scenario listing *)
(* ================================================================== *)

Module Competency.
Record t : Type := {
  competencyid : Z;
  name : string
}.
End Competency.

Module Scenario.
(** A scenario row as the queries load it, with its [competency]
    relationship (the foreign key is not nullable). *)
Record t : Type := {
  scenarioid : Z;
  title : string;
  description : string;
  competency : Competency.t
}.
End Scenario.

Module Endpoints.
Import Py Crud.

(** The tables beside the responses: the scenario and competency tables,
    and the [scenario] relationship of an option row (its foreign key is
    not nullable either). *)
Record Database : Type := {
  session : Session;
  scenario : list Scenario.t;
  competency : list Competency.t;
  scenario_of : ScenarioOption.t -> Scenario.t
}.

(** ** [get_user_response_count] and [get_user_progress] *)

Definition get_user_response_count (db : Session) (user_id : Z) : Z :=
  Z.of_nat (List.length
              (filter (fun r => (UserResponse.userid r =? user_id)%Z) (pending db))).

(** [list(range(a, b))] *)
Definition range (a b : Z) : list Z :=
  map (fun i => (a + Z.of_nat i)%Z) (seq 0 (Z.to_nat (b - a))).

Record progress : Type := {
  total_responses : Z;
  current_stage : Z;
  completed_stages : list Z
}.

Definition get_user_progress (db : Session) (user_id : Z) : progress :=
  let total := get_user_response_count db user_id in
  let completed := (total / 4)%Z in
  let completed := if (completed >? 4)%Z then 4%Z else completed in
  let current_stage := if (completed <? 4)%Z then (completed + 1)%Z else 4%Z in
  {| total_responses := total;
     current_stage := current_stage;
     completed_stages := range 1 (completed + 1) |}.

(** ** [get_all_scenarios] and [get_scenarios] *)

Record scenario_data : Type := {
  id : Z;
  text : string;
  competency_name : string;
  options : list option_with_letter
}.

(** [s.options] *)
Definition options_of (db : Database) (s : Scenario.t) : list ScenarioOption.t :=
  filter (fun o => (ScenarioOption.scenarioid o =? Scenario.scenarioid s)%Z)
         (scenariooption (session db)).

Definition get_all_scenarios (db : Database) : list scenario_data :=
  map (fun s =>
         {| id := Scenario.scenarioid s;
            text := Scenario.description s;
            competency_name := Competency.name (Scenario.competency s);
            options := options_with_letters (options_of db s) |})
      (sorted Scenario.scenarioid (scenario db)).

(** [l[a:b]] for [0 <= a <= b] *)
Definition slice {A} (l : list A) (a b : Z) : list A :=
  firstn (Z.to_nat (b - a)) (skipn (Z.to_nat a) l).

Definition get_scenarios (stage : option Z) (db : Database)
    : result (list scenario_data) :=
  let scenarios := get_all_scenarios db in
  match stage with
  | Some stage =>
      if ((stage <? 1) || (stage >? 4))%Z
      then Raise (HTTPException 400 "Stage must be between 1 and 4")
      else
        let start_index := ((stage - 1) * 4)%Z in
        let end_index := (start_index + 4)%Z in
        Ok (slice scenarios start_index end_index)
  | None => Ok scenarios
  end.

End Endpoints.

(* ================================================================== *)
(** * services/transformation_service.py *)
(* ================================================================== *)

Module Transformation.
Import Py Crud Endpoints.

(** Equality of the keys [(scenario_id, letter)] of [score_map]. *)
Definition key_eqb (a b : Z * string) : bool :=
  (fst a =? fst b)%Z && String.eqb (snd a) (snd b).

Definition score_map_t : Type := dict (Z * string) (string * Q).

(** Lines 43-54: the loop over [all_options]. *)
Fixpoint build_score_map (db : Database) (all_options : list ScenarioOption.t)
    (score_map : score_map_t) : result score_map_t :=
  match all_options with
  | [] => Ok score_map
  | opt :: rest =>
      bind (score_map_key (session db) opt) (fun key =>
      build_score_map db rest
        (set key_eqb score_map key
             (Competency.name (Scenario.competency (scenario_of db opt)),
              ScenarioOption.score opt)))
  end.

(** Lines 63-72: the body of the loop over [responses]. *)
Definition add_response (score_map : score_map_t) (acc : sdict Q * sdict Z)
    (response : ResponseIn.t) : sdict Q * sdict Z :=
  let key := (ResponseIn.scenario_id response, ResponseIn.option_letter response) in
  match lookup key_eqb score_map key with
  | Some (competency_name, score) =>
      (sset (fst acc) competency_name
            (Responses.get0 0%Q (fst acc) competency_name + score)%Q,
       sset (snd acc) competency_name
            (Responses.get0 0%Z (snd acc) competency_name + 1)%Z)
  | None => acc
  end.

(** Lines 75-78 *)
Fixpoint average_scores (names : list string) (competency_scores : sdict Q)
    (competency_counts : sdict Z) (final_scores : sdict Q) : result (sdict Q) :=
  match names with
  | [] => Ok final_scores
  | competency_name :: rest =>
      bind (getitem competency_counts competency_name) (fun count =>
      if (count >? 0)%Z then
        bind (getitem competency_scores competency_name) (fun total =>
        bind (Responses.truediv total count) (fun m =>
        average_scores rest competency_scores competency_counts
          (sset final_scores competency_name (round1 m))))
      else
        average_scores rest competency_scores competency_counts final_scores)
  end.

(** [db.query(models.Competency.name).distinct().all()] *)
Definition db_competency_names (db : Database) : list string :=
  nodup string_dec (map Competency.name (competency db)).

(** [comp not in final_scores] *)
Definition not_in (final_scores : sdict Q) (comp : string) : bool :=
  match sget final_scores comp with
  | None => true
  | Some _ => false
  end.

Definition transform_responses_to_scores (db : Database)
    (responses : list ResponseIn.t) : result (sdict Q) :=
  bind (build_score_map db (scenariooption (session db)) []) (fun score_map =>
  let acc := fold_left (add_response score_map) responses ([], []) in
  bind (average_scores (keys (fst acc)) (fst acc) (snd acc) []) (fun final_scores =>
  let missing_competencies :=
    filter (not_in final_scores) (db_competency_names db) in
  Ok (fold_left (fun scores comp => sset scores comp 0.5%Q)
                missing_competencies final_scores))).

End Transformation.

Module EndpointsSamples.
Import Py Crud Endpoints.

Definition empathy : Competency.t :=
  {| Competency.competencyid := 1; Competency.name := "Empathy" |}.
Definition logic : Competency.t :=
  {| Competency.competencyid := 2; Competency.name := "Logic" |}.

Definition make_scenario (id : Z) (c : Competency.t) : Scenario.t :=
  {| Scenario.scenarioid := id; Scenario.title := "scenario";
     Scenario.description := "what do you do?"; Scenario.competency := c |}.

Definition scored_option (id scenario : Z) (points : Q) : ScenarioOption.t :=
  {| ScenarioOption.scenariooptionid := id;
     ScenarioOption.scenarioid := scenario;
     ScenarioOption.optiontext := "option";
     ScenarioOption.score := points |}.

(** Two scenarios on empathy and one on logic, two options each; a third
    competency has no scenario. *)
Definition school_db : Database :=
  {| session :=
       {| scenariooption :=
            [scored_option 1 1 1%Q; scored_option 2 1 4%Q;
             scored_option 3 2 2%Q; scored_option 4 2 5%Q;
             scored_option 5 3 3%Q; scored_option 6 3 1%Q];
          committed := [];
          pending := [] |};
     scenario := [make_scenario 2 empathy; make_scenario 1 empathy;
                  make_scenario 3 logic];
     competency :=
       [empathy; logic;
        {| Competency.competencyid := 3; Competency.name := "Leadership" |}];
     scenario_of := fun o =>
       if (ScenarioOption.scenarioid o =? 3)%Z
       then make_scenario 3 logic
       else make_scenario (ScenarioOption.scenarioid o) empathy |}.

End EndpointsSamples.

Module CrudMoreSpec.
Import Py Crud CrudSpec.
#[local] Open Scope list_scope.

(** The rows that [save_user_responses] leaves untouched: everything but
    the user's answers to the scenarios of the batch. *)
Definition kept_rows (db : Session) (responses : list ResponseIn.t) (user_id : Z)
    : list UserResponse.t :=
  filter (fun r => negb (answers_one_of db user_id
                           (keys (unique_responses responses)) r))
         (pending db).

(** The columns of the unique constraint. *)
Definition constraint_key (r : UserResponse.t) : Z * Z :=
  (UserResponse.userid r, UserResponse.scenariooptionid r).

End CrudMoreSpec.

Module TransformationSpec.
Import Py Crud Endpoints Transformation.
#[local] Open Scope list_scope.

(** The name of the competency that an option scores. *)
Definition competency_of (db : Database) (o : ScenarioOption.t) : string :=
  Competency.name (Scenario.competency (scenario_of db o)).

(** The option that a response picks: among the options of the response's
    scenario, in identifier order, the first whose position spells the
    response's letter. *)
Definition picked (db : Database) (response : ResponseIn.t)
    : option ScenarioOption.t :=
  option_map snd
    (find (fun io => String.eqb (chr (65 + fst io))
                                (ResponseIn.option_letter response))
          (enumerate_from 0
             (options_of_scenario (session db) (ResponseIn.scenario_id response)))).

(** The scores of the options that the responses pick for the competency
    named [c], in the order of the responses. *)
Definition picked_scores (db : Database) (c : string)
    (responses : list ResponseIn.t) : list Q :=
  flat_map (fun r =>
              match picked db r with
              | Some o =>
                  if String.eqb (competency_of db o) c
                  then [ScenarioOption.score o] else []
              | None => []
              end)
           responses.

(** No scenario has more options than the letters A to Z can name. *)
Definition letters_suffice (db : Database) : Prop :=
  forall s, (List.length (options_of_scenario (session db) s) <= 26)%nat.

End TransformationSpec.

(* ================================================================== *)
(** * Facts about the prelude *)
(* ================================================================== *)

Module PyFacts.
Import Py.

(** ** Dictionaries *)

Lemma sget_sset {V} (d : sdict V) (k k' : string) (v : V) :
  sget (sset d k v) k' = if String.eqb k k' then Some v else sget d k'.
Proof.
  unfold sget, sset.
  induction d as [|[k0 v0] d IH]; simpl.
  - reflexivity.
  - destruct (String.eqb_spec k0 k) as [->|Hne]; simpl.
    + destruct (String.eqb_spec k k'); reflexivity.
    + destruct (String.eqb_spec k0 k') as [->|Hne'].
      * destruct (String.eqb_spec k k'); [congruence | reflexivity].
      * exact IH.
Qed.

Lemma sget_In {V} (d : sdict V) (k : string) (v : V) :
  sget d k = Some v -> In (k, v) d.
Proof.
  unfold sget.
  induction d as [|[k0 v0] d IH]; simpl; [discriminate|].
  destruct (String.eqb_spec k0 k) as [->|Hne]; intros H.
  - left. congruence.
  - right. auto.
Qed.

Lemma sget_None {V} (d : sdict V) (k : string) :
  sget d k = None <-> ~ In k (keys d).
Proof.
  unfold sget, keys.
  induction d as [|[k0 v0] d IH]; simpl.
  - tauto.
  - destruct (String.eqb_spec k0 k) as [->|Hne].
    + split; [discriminate | intros H; exfalso; apply H; now left].
    + rewrite IH. tauto.
Qed.

(** ** Rounding *)

Lemma round_comp (x y : Q) : (x == y)%Q -> round x = round y.
Proof.
  intros E. unfold round.
  rewrite (Qfloor_comp _ _ E).
  assert (E' : (x - inject_Z (Qfloor y) == y - inject_Z (Qfloor y))%Q)
    by (rewrite E; reflexivity).
  rewrite (Qcompare_comp _ _ E' _ _ (Qeq_refl (1 # 2))).
  reflexivity.
Qed.

Lemma round1_comp (x y : Q) : (x == y)%Q -> round1 x = round1 y.
Proof.
  intros E. unfold round1. f_equal. apply round_comp. rewrite E. reflexivity.
Qed.

Lemma round_bounds (x : Q) : (Qfloor x <= round x <= Qfloor x + 1)%Z.
Proof.
  unfold round.
  destruct (Qcompare _ _); [destruct (Z.even _)| |]; lia.
Qed.

(** Rounding is monotone between integers. *)
Lemma round_between (x : Q) (a b : Z) :
  (inject_Z a <= x)%Q -> (x <= inject_Z b)%Q -> (a <= round x <= b)%Z.
Proof.
  intros Ha Hb.
  pose proof (round_bounds x) as [Hlo Hhi].
  assert (Hfa : (a <= Qfloor x)%Z).
  { rewrite <- (Qfloor_Z a). now apply Qfloor_resp_le. }
  assert (Hfb : (Qfloor x <= b)%Z).
  { rewrite <- (Qfloor_Z b). now apply Qfloor_resp_le. }
  split; [lia|].
  destruct (Z.eq_dec (Qfloor x) b) as [E|NE]; [|lia].
  (* the floor is already [b]: then [x = b] and nothing is added *)
  assert (Hx : (x == inject_Z b)%Q).
  { apply Qle_antisym; [exact Hb|]. rewrite <- E. apply Qfloor_le. }
  rewrite (round_comp _ _ Hx). unfold round. rewrite Qfloor_Z.
  assert (Hc : (inject_Z b - inject_Z b ?= 1 # 2)%Q = Lt).
  { apply Qlt_alt.
    assert (H0 : (inject_Z b - inject_Z b == 0)%Q) by ring.
    rewrite H0. reflexivity. }
  rewrite Hc. lia.
Qed.

(** ** Stable insertion sort *)

Lemma StronglySorted_weaken {A} (R R' : A -> A -> Prop) (l : list A) :
  (forall x y, R x y -> R' x y) -> StronglySorted R l -> StronglySorted R' l.
Proof.
  intros HR. induction 1 as [|x l Hs IH Hall]; constructor; auto.
  eapply Forall_impl; [|exact Hall]. intros y. apply HR.
Qed.

Section SortFacts.
Context {A : Type} (before : A -> A -> bool).

Lemma insert_perm (x : A) (l : list A) :
  Permutation (insert before x l) (x :: l).
Proof.
  induction l as [|y l IH]; simpl; [reflexivity|].
  destruct (before y x); [|reflexivity].
  rewrite IH. apply perm_swap.
Qed.

Lemma sort_perm (l : list A) : Permutation (sort before l) l.
Proof.
  induction l as [|x l IH]; simpl; [reflexivity|].
  rewrite insert_perm. now constructor.
Qed.

Hypothesis before_asym : forall x y, before x y = true -> before y x = false.
Hypothesis in_order_trans :
  forall x y z, in_order before x y -> in_order before y z -> in_order before x z.

Lemma insert_sorted (x : A) (l : list A) :
  StronglySorted (in_order before) l -> StronglySorted (in_order before) (insert before x l).
Proof.
  induction 1 as [|y l Hs IH Hall]; simpl.
  - repeat constructor.
  - destruct (before y x) eqn:E.
    + constructor; [exact IH|].
      eapply Permutation_Forall; [symmetry; apply insert_perm|].
      constructor; [apply before_asym, E | exact Hall].
    + constructor; [now constructor|].
      constructor; [exact E|].
      eapply Forall_impl; [|exact Hall].
      intros z Hz. now apply (in_order_trans x y z).
Qed.

Lemma sort_sorted (l : list A) : StronglySorted (in_order before) (sort before l).
Proof.
  induction l as [|x l IH]; simpl; [constructor | now apply insert_sorted].
Qed.

(** Stability: a class of elements none of which strictly precedes
    another keeps its original order. *)
Variable p : A -> bool.
Hypothesis p_tied : forall x y, p x = true -> p y = true -> before y x = false.

Lemma insert_filter (x : A) (l : list A) :
  filter p (insert before x l) = filter p (x :: l).
Proof.
  induction l as [|y l IH]; simpl; [reflexivity|].
  destruct (before y x) eqn:E; [|reflexivity].
  simpl. rewrite IH. simpl.
  destruct (p x) eqn:Px; destruct (p y) eqn:Py; try reflexivity.
  rewrite (p_tied x y Px Py) in E. discriminate.
Qed.

Lemma sort_filter (l : list A) : filter p (sort before l) = filter p l.
Proof.
  induction l as [|x l IH]; simpl; [reflexivity|].
  rewrite insert_filter. simpl. now rewrite IH.
Qed.
End SortFacts.

Section KeySort.
Context {A : Type} (key : A -> Z).

Lemma sorted_reverse_perm (l : list A) : Permutation (sorted_reverse key l) l.
Proof. apply sort_perm. Qed.

Lemma sorted_reverse_descending (l : list A) :
  StronglySorted (fun x y => (key y <= key x)%Z) (sorted_reverse key l).
Proof.
  unfold sorted_reverse.
  eapply StronglySorted_weaken; [|apply sort_sorted].
  - unfold in_order. intros x y H. apply Z.ltb_ge in H. exact H.
  - intros x y H. apply Z.ltb_lt in H. apply Z.ltb_ge. lia.
  - unfold in_order. intros x y z H1 H2.
    apply Z.ltb_ge in H1, H2. apply Z.ltb_ge. lia.
Qed.

Lemma sorted_reverse_stable (c : Z) (l : list A) :
  filter (fun x => (key x =? c)%Z) (sorted_reverse key l)
  = filter (fun x => (key x =? c)%Z) l.
Proof.
  apply sort_filter. intros x y Hx Hy.
  apply Z.eqb_eq in Hx, Hy. apply Z.ltb_ge. lia.
Qed.

Lemma sorted_perm (l : list A) : Permutation (sorted key l) l.
Proof. apply sort_perm. Qed.

Lemma sorted_ascending (l : list A) :
  StronglySorted (fun x y => (key x <= key y)%Z) (sorted key l).
Proof.
  unfold sorted.
  eapply StronglySorted_weaken; [|apply sort_sorted].
  - unfold in_order. intros x y H. apply Z.ltb_ge in H. exact H.
  - intros x y H. apply Z.ltb_lt in H. apply Z.ltb_ge. lia.
  - unfold in_order. intros x y z H1 H2.
    apply Z.ltb_ge in H1, H2. apply Z.ltb_ge. lia.
Qed.
End KeySort.

End PyFacts.

(* ================================================================== *)
(** * Facts about floats *)
(* ================================================================== *)

Module Binary64Facts.
Import Py Py.Binary64 PyFacts.

(** ** Powers of two *)

Lemma pow2_pos (e : Z) : (0 < pow2 e)%Q.
Proof. apply Qpower_0_lt. reflexivity. Qed.

Lemma pow2_add (a b : Z) : (pow2 (a + b) == pow2 a * pow2 b)%Q.
Proof. apply Qpower_plus. discriminate. Qed.

Lemma pow2_le (a b : Z) : (a <= b)%Z -> (pow2 a <= pow2 b)%Q.
Proof. intros H. apply Qpower_le_compat_l; [exact H | discriminate]. Qed.

Lemma pow2_lt_inv (a b : Z) : (pow2 a < pow2 b)%Q -> (a < b)%Z.
Proof. intros H. apply (Qpower_lt_compat_l_inv 2); [exact H | reflexivity]. Qed.

Lemma pow2_Z (e : Z) : (0 <= e)%Z -> (pow2 e == inject_Z (2 ^ e))%Q.
Proof. intros H. symmetry. apply (Zpower_Qpower 2 e H). Qed.

Lemma pow2_cancel (e : Z) : (pow2 (- e) * pow2 e == 1)%Q.
Proof. rewrite <- pow2_add. replace (- e + e)%Z with 0%Z by lia. reflexivity. Qed.

(** ** The magnitude *)

Lemma magnitude_lower (x : Q) : (0 < x)%Q -> (pow2 (magnitude x) <= x)%Q.
Proof.
  intros Hx. unfold magnitude.
  set (e := (Z.log2 (Z.abs (Qnum x)) - Z.log2 (Zpos (Qden x)))%Z).
  assert (Habs : (Qabs x == x)%Q) by (apply Qabs_pos; now apply Qlt_le_weak).
  destruct (Qle_bool (pow2 e) (Qabs x)) eqn:E.
  - apply Qle_bool_iff in E. now rewrite Habs in E.
  - destruct x as [n d]. unfold Qlt in Hx. simpl in Hx.
    assert (Hn : (0 < n)%Z) by lia.
    subst e. cbn [Qnum Qden]. rewrite (Z.abs_eq n) by lia.
    set (a := Z.log2 n). set (b := Z.log2 (Zpos d)).
    destruct (Z.log2_spec n Hn) as [Ha _]. fold a in Ha.
    destruct (Z.log2_spec (Zpos d) eq_refl) as [_ Hb]. fold b in Hb.
    assert (Hb0 : (0 <= b)%Z) by apply Z.log2_nonneg.
    assert (Ha0 : (0 <= a)%Z) by apply Z.log2_nonneg.
    rewrite (Qmake_Qdiv n d).
    apply Qle_shift_div_l; [reflexivity|].
    apply Qle_trans with (pow2 (a - b - 1) * pow2 (b + 1))%Q.
    + apply Qmult_le_l; [apply pow2_pos|].
      rewrite (pow2_Z (b + 1)) by lia. rewrite <- Zle_Qle.
      replace (b + 1)%Z with (Z.succ b) by lia. lia.
    + rewrite <- pow2_add. replace (a - b - 1 + (b + 1))%Z with a by lia.
      rewrite (pow2_Z a Ha0). now rewrite <- Zle_Qle.
Qed.

Lemma magnitude_upper (x : Q) : (0 < x)%Q -> (x < pow2 (magnitude x + 1))%Q.
Proof.
  intros Hx. unfold magnitude.
  set (e := (Z.log2 (Z.abs (Qnum x)) - Z.log2 (Zpos (Qden x)))%Z).
  assert (Habs : (Qabs x == x)%Q) by (apply Qabs_pos; now apply Qlt_le_weak).
  destruct (Qle_bool (pow2 e) (Qabs x)) eqn:E.
  - destruct x as [n d]. unfold Qlt in Hx. simpl in Hx.
    assert (Hn : (0 < n)%Z) by lia.
    subst e. cbn [Qnum Qden]. rewrite (Z.abs_eq n) by lia.
    set (a := Z.log2 n). set (b := Z.log2 (Zpos d)).
    destruct (Z.log2_spec n Hn) as [_ Ha]. fold a in Ha.
    destruct (Z.log2_spec (Zpos d) eq_refl) as [Hb _]. fold b in Hb.
    assert (Hb0 : (0 <= b)%Z) by apply Z.log2_nonneg.
    assert (Ha0 : (0 <= a)%Z) by apply Z.log2_nonneg.
    rewrite (Qmake_Qdiv n d).
    apply Qlt_shift_div_r; [reflexivity|].
    apply Qlt_le_trans with (pow2 (a - b + 1) * pow2 b)%Q.
    + rewrite <- pow2_add. replace (a - b + 1 + b)%Z with (a + 1)%Z by lia.
      rewrite (pow2_Z (a + 1)) by lia. rewrite <- Zlt_Qlt.
      replace (a + 1)%Z with (Z.succ a) by lia. exact Ha.
    + apply Qmult_le_l; [apply pow2_pos|].
      rewrite (pow2_Z b Hb0). now rewrite <- Zle_Qle.
  - replace (e - 1 + 1)%Z with e by lia.
    apply Qnot_le_lt. intros H. rewrite <- Habs in H.
    apply Qle_bool_iff in H. congruence.
Qed.

Lemma magnitude_monotone (x y : Q) :
  (0 < x)%Q -> (x <= y)%Q -> (magnitude x <= magnitude y)%Z.
Proof.
  intros Hx Hxy.
  assert (Hy : (0 < y)%Q) by (eapply Qlt_le_trans; eauto).
  assert (H : (pow2 (magnitude x) < pow2 (magnitude y + 1))%Q).
  { eapply Qle_lt_trans; [apply magnitude_lower, Hx|].
    eapply Qle_lt_trans; [exact Hxy | apply magnitude_upper, Hy]. }
  apply pow2_lt_inv in H. lia.
Qed.

(** ** Rounding to an integer *)

Lemma round_monotone (x y : Q) : (x <= y)%Q -> (Py.round x <= Py.round y)%Z.
Proof.
  intros Hxy.
  pose proof (Qfloor_resp_le _ _ Hxy) as Hf.
  pose proof (round_bounds x) as [_ Hx]. pose proof (round_bounds y) as [Hy _].
  destruct (Z.eq_dec (Qfloor x) (Qfloor y)) as [E|NE]; [|lia].
  unfold Py.round. rewrite <- E.
  assert (Hfrac : (x - inject_Z (Qfloor x) <= y - inject_Z (Qfloor x))%Q).
  { apply Qplus_le_compat; [exact Hxy | apply Qle_refl]. }
  destruct (Qcompare_spec (x - inject_Z (Qfloor x)) (1 # 2)) as [Ex|Lx|Gx];
    destruct (Qcompare_spec (y - inject_Z (Qfloor x)) (1 # 2)) as [Ey|Ly|Gy];
    try (destruct (Z.even (Qfloor x))); try lia; exfalso; lra.
Qed.

Lemma round_integer (z : Z) : Py.round (inject_Z z) = z.
Proof.
  pose proof (round_between (inject_Z z) z z (Qle_refl _) (Qle_refl _)). lia.
Qed.

(** ** Rounding to a float *)

Lemma ulp_exponent_monotone (x y : Q) :
  (0 < x)%Q -> (x <= y)%Q -> (ulp_exponent x <= ulp_exponent y)%Z.
Proof.
  intros Hx Hxy. unfold ulp_exponent.
  pose proof (magnitude_monotone x y Hx Hxy). lia.
Qed.

Lemma nearest_positive_nonneg (x : Q) : (0 < x)%Q -> (0 <= nearest_positive x)%Q.
Proof.
  intros Hx. unfold nearest_positive.
  apply Qmult_le_0_compat; [|apply Qlt_le_weak, pow2_pos].
  change 0%Q with (inject_Z 0). rewrite <- Zle_Qle.
  rewrite <- (round_integer 0). apply round_monotone.
  apply Qmult_le_0_compat; apply Qlt_le_weak; [exact Hx | apply pow2_pos].
Qed.

(** Below a power of two the rounding stays below it, and from a power of
    two on it stays above. *)
Lemma nearest_positive_below (x : Q) (k : Z) :
  (0 < x)%Q -> (x <= pow2 k)%Q -> (ulp_exponent x <= k)%Z ->
  (nearest_positive x <= pow2 k)%Q.
Proof.
  intros Hx Hk He. unfold nearest_positive.
  set (e := ulp_exponent x) in *.
  assert (Hscale : (pow2 k * pow2 (- e) == inject_Z (2 ^ (k - e)))%Q).
  { rewrite <- pow2_add. rewrite pow2_Z by lia.
    now replace (k + - e)%Z with (k - e)%Z by lia. }
  assert (Hr : (Py.round (x * pow2 (- e)) <= 2 ^ (k - e))%Z).
  { rewrite <- (round_integer (2 ^ (k - e))). apply round_monotone.
    rewrite <- Hscale. apply Qmult_le_compat_r; [exact Hk|].
    apply Qlt_le_weak, pow2_pos. }
  apply Qle_trans with (inject_Z (2 ^ (k - e)) * pow2 e)%Q.
  - apply Qmult_le_compat_r; [now rewrite <- Zle_Qle|].
    apply Qlt_le_weak, pow2_pos.
  - rewrite <- Hscale, <- Qmult_assoc, pow2_cancel. rewrite Qmult_1_r.
    apply Qle_refl.
Qed.

Lemma nearest_positive_above (x : Q) (k : Z) :
  (pow2 k <= x)%Q -> (ulp_exponent x <= k)%Z ->
  (pow2 k <= nearest_positive x)%Q.
Proof.
  intros Hk He. unfold nearest_positive.
  set (e := ulp_exponent x) in *.
  assert (Hscale : (pow2 k * pow2 (- e) == inject_Z (2 ^ (k - e)))%Q).
  { rewrite <- pow2_add. rewrite pow2_Z by lia.
    now replace (k + - e)%Z with (k - e)%Z by lia. }
  assert (Hr : (2 ^ (k - e) <= Py.round (x * pow2 (- e)))%Z).
  { rewrite <- (round_integer (2 ^ (k - e))) at 1. apply round_monotone.
    rewrite <- Hscale. apply Qmult_le_compat_r; [exact Hk|].
    apply Qlt_le_weak, pow2_pos. }
  apply Qle_trans with (inject_Z (2 ^ (k - e)) * pow2 e)%Q.
  - rewrite <- Hscale, <- Qmult_assoc, pow2_cancel. rewrite Qmult_1_r.
    apply Qle_refl.
  - apply Qmult_le_compat_r; [now rewrite <- Zle_Qle|].
    apply Qlt_le_weak, pow2_pos.
Qed.

Lemma nearest_positive_monotone (x y : Q) :
  (0 < x)%Q -> (x <= y)%Q -> (nearest_positive x <= nearest_positive y)%Q.
Proof.
  intros Hx Hxy.
  assert (Hy : (0 < y)%Q) by (eapply Qlt_le_trans; eauto).
  pose proof (ulp_exponent_monotone x y Hx Hxy) as He.
  destruct (Z.eq_dec (ulp_exponent x) (ulp_exponent y)) as [E|NE].
  - (* the same unit in the last place *)
    unfold nearest_positive. rewrite E.
    apply Qmult_le_compat_r; [|apply Qlt_le_weak, pow2_pos].
    rewrite <- Zle_Qle. apply round_monotone.
    apply Qmult_le_compat_r; [exact Hxy | apply Qlt_le_weak, pow2_pos].
  - (* a power of two lies between the two *)
    assert (Hlt : (ulp_exponent x < ulp_exponent y)%Z) by lia.
    unfold ulp_exponent in Hlt, He.
    set (k := magnitude y).
    assert (Hk : (magnitude x + 1 <= k)%Z) by (subst k; lia).
    apply Qle_trans with (pow2 k).
    + apply nearest_positive_below; [exact Hx| |unfold ulp_exponent; lia].
      apply Qle_trans with (pow2 (magnitude x + 1)).
      * apply Qlt_le_weak, magnitude_upper, Hx.
      * now apply pow2_le.
    + apply nearest_positive_above; [apply magnitude_lower, Hy|].
      unfold ulp_exponent. subst k. lia.
Qed.

Lemma nearest_monotone (x y : Q) : (x <= y)%Q -> (nearest x <= nearest y)%Q.
Proof.
  intros Hxy. unfold nearest.
  destruct (Qcompare_spec x 0) as [Ex|Lx|Gx];
    destruct (Qcompare_spec y 0) as [Ey|Ly|Gy];
    rewrite ?Qred_correct.
  - apply Qle_refl.
  - exfalso. lra.
  - now apply nearest_positive_nonneg.
  - assert (H : (0 <= nearest_positive (- x))%Q)
      by (apply nearest_positive_nonneg; lra).
    lra.
  - assert (H : (nearest_positive (- y) <= nearest_positive (- x))%Q)
      by (apply nearest_positive_monotone; lra).
    lra.
  - assert (H : (0 <= nearest_positive (- x))%Q)
      by (apply nearest_positive_nonneg; lra).
    assert (H' : (0 <= nearest_positive y)%Q)
      by (now apply nearest_positive_nonneg).
    lra.
  - exfalso. lra.
  - exfalso. lra.
  - now apply nearest_positive_monotone.
Qed.

(** An integer below [2 ** 53] is a float. *)
Lemma nearest_integer (n : Z) :
  (0 <= n < 2 ^ 53)%Z -> (nearest (inject_Z n) == inject_Z n)%Q.
Proof.
  intros [H0 Hn]. unfold nearest.
  destruct (Qcompare_spec (inject_Z n) 0) as [E|L|G]; rewrite ?Qred_correct.
  - now symmetry.
  - exfalso. change 0%Q with (inject_Z 0) in L. rewrite <- Zlt_Qlt in L. lia.
  - unfold nearest_positive. set (e := ulp_exponent (inject_Z n)).
    assert (He : (e <= 0)%Z).
    { subst e. unfold ulp_exponent.
      assert (Hm : (pow2 (magnitude (inject_Z n)) < pow2 53)%Q).
      { eapply Qle_lt_trans; [apply magnitude_lower, G|].
        rewrite (pow2_Z 53) by lia. now rewrite <- Zlt_Qlt. }
      apply pow2_lt_inv in Hm. lia. }
    assert (Hs : (inject_Z n * pow2 (- e) == inject_Z (n * 2 ^ (- e)))%Q).
    { rewrite pow2_Z by lia. now rewrite inject_Z_mult. }
    rewrite (round_comp _ _ Hs), round_integer.
    rewrite inject_Z_mult, <- pow2_Z by lia.
    rewrite <- Qmult_assoc, pow2_cancel. ring.
Qed.

(** ** Percentages *)

Lemma of_Q_finite (x : Q) :
  (Qabs (nearest x) < pow2 1024)%Q -> of_Q x = Finite (nearest x).
Proof.
  intros H. unfold of_Q.
  destruct (Qle_bool (pow2 1024) (Qabs (nearest x))) eqn:E; [|reflexivity].
  apply Qle_bool_iff in E. exfalso. lra.
Qed.

(** The percentage of a finite float, when it has one. *)
Lemma percentage_inv (p : t) (n : Z) :
  round (mul p (Finite 100)) = Ok n ->
  exists x, p = Finite x /\ n = Py.round (nearest (x * 100)).
Proof.
  destruct p as [x|s|]; simpl; try discriminate.
  unfold of_Q.
  destruct (Qle_bool (pow2 1024) (Qabs (nearest (x * 100)))); simpl;
    [discriminate|].
  intros [= <-]. eauto.
Qed.

Lemma percentage_monotone (x y : Q) (n m : Z) :
  (x <= y)%Q ->
  round (mul (Finite x) (Finite 100)) = Ok n ->
  round (mul (Finite y) (Finite 100)) = Ok m ->
  (n <= m)%Z.
Proof.
  intros Hxy Hn Hm.
  apply percentage_inv in Hn as (x' & [= <-] & ->).
  apply percentage_inv in Hm as (y' & [= <-] & ->).
  apply round_monotone, nearest_monotone.
  apply Qmult_le_compat_r; [exact Hxy | discriminate].
Qed.

(** The percentage of a probability. *)
Lemma percentage_of_probability (x : Q) :
  (0 <= x)%Q -> (x <= 1)%Q ->
  exists n, round (mul (Finite x) (Finite 100)) = Ok n /\ (0 <= n <= 100)%Z.
Proof.
  intros H0 H1.
  assert (Hlo : (0 <= nearest (x * 100))%Q).
  { change 0%Q with (nearest 0) at 1. apply nearest_monotone.
    apply Qmult_le_0_compat; [exact H0 | discriminate]. }
  assert (Hhi : (nearest (x * 100) <= inject_Z 100)%Q).
  { rewrite <- (nearest_integer 100) by (split; [lia | reflexivity]).
    apply nearest_monotone.
    setoid_replace (inject_Z 100) with (1 * 100)%Q by reflexivity.
    apply Qmult_le_compat_r; [exact H1 | discriminate]. }
  exists (Py.round (nearest (x * 100))). split.
  - cbn [mul]. rewrite of_Q_finite; [reflexivity|].
    rewrite Qabs_pos by exact Hlo.
    eapply Qle_lt_trans; [exact Hhi | reflexivity].
  - apply round_between; [exact Hlo | exact Hhi].
Qed.

(** ** The order of floats *)

Lemma leb_not_nan (a b : t) : leb a b = true -> is_nan a = false /\ is_nan b = false.
Proof. destruct a, b; simpl; try discriminate; auto. Qed.

Lemma leb_refl (a : t) : is_nan a = false -> leb a a = true.
Proof.
  destruct a as [x|s|]; simpl; try discriminate; intros _.
  - apply Qle_bool_iff, Qle_refl.
  - now destruct s.
Qed.

Lemma leb_trans (a b c : t) : leb a b = true -> leb b c = true -> leb a c = true.
Proof.
  destruct a as [x|s|], b as [y|s'|], c as [z|s''|]; simpl; try discriminate;
    repeat match goal with s : bool |- _ => destruct s end;
    simpl; try discriminate; auto.
  rewrite !Qle_bool_iff. apply Qle_trans.
Qed.

Lemma leb_total (a b : t) :
  is_nan a = false -> is_nan b = false -> leb a b = false -> leb b a = true.
Proof.
  destruct a as [x|s|], b as [y|s'|]; simpl; try discriminate;
    repeat match goal with s : bool |- _ => destruct s end;
    simpl; try discriminate; auto.
  intros _ _ H. apply Qle_bool_iff.
  destruct (Qlt_le_dec y x) as [L|L]; [now apply Qlt_le_weak|].
  apply Qle_bool_iff in L. congruence.
Qed.

Lemma leb_Finite (x y : Q) : leb (Finite x) (Finite y) = true <-> (x <= y)%Q.
Proof. apply Qle_bool_iff. Qed.


End Binary64Facts.

(* ================================================================== *)
(** * Facts about the prediction service *)
(* ================================================================== *)

Module PredictionFacts.
Import Py Prediction Spec PyFacts Binary64Facts.
#[local] Open Scope list_scope.

Lemma Forall2_nth_error {A B} (R : A -> B -> Prop) (l : list A) (l' : list B) :
  Forall2 R l l' ->
  forall i a, nth_error l i = Some a ->
  exists b, nth_error l' i = Some b /\ R a b.
Proof.
  induction 1 as [|a0 b0 l l' Hab Hl IH]; intros [|i] a; simpl; try discriminate.
  - intros [= <-]. eauto.
  - apply IH.
Qed.

Lemma numeric_not_none (v : value) : is_numeric v = true -> is_none v = false.
Proof. destruct v; simpl; congruence. Qed.

Lemma is_none_VNone (v : value) : is_none v = true <-> v = VNone.
Proof. destruct v; simpl; split; congruence. Qed.

(** ** The two lookups *)

Lemma fuzzy_match_cases (interp : Interpreter.t) (d : sdict value) (feature : string) :
  (exists k v, first_fuzzy_key interp d feature k v /\
               fuzzy_match interp d (clean interp feature) = v)
  \/ (no_fuzzy_key interp d feature /\
      fuzzy_match interp d (clean interp feature) = VNone).
Proof.
  induction d as [|[k v] d IH]; simpl.
  - right. split; [intros k v []| reflexivity].
  - destruct (String.eqb_spec (clean interp k) (clean interp feature)) as [E|NE].
    + left. exists k, v. split; [|reflexivity].
      exists [], d. repeat split; auto; intros k' v' [].
    + destruct IH as [(k1 & v1 & (front & back & -> & Hk & Hfront) & Hm)|[Hno Hm]].
      * left. exists k1, v1. split; [|exact Hm].
        exists ((k, v) :: front), back. repeat split; auto;
        intros k' v' [[= <- <-]|Hin]; eauto.
      * right. split; [|exact Hm].
        intros k' v' [[= <- <-]|Hin]; eauto.
Qed.

Lemma find_score_exact (interp : Interpreter.t) (d : sdict value)
    (feature : string) (v : value) :
  sget d feature = Some v -> is_none v = false -> find_score interp d feature = v.
Proof.
  intros H Hv. unfold find_score, get. rewrite H. now rewrite Hv.
Qed.

Lemma find_score_absent (interp : Interpreter.t) (d : sdict value) (feature : string) :
  sget d feature = None \/ sget d feature = Some VNone ->
  find_score interp d feature = fuzzy_match interp d (clean interp feature).
Proof.
  intros [H|H]; unfold find_score, get; rewrite H; reflexivity.
Qed.

Lemma find_score_from_entry (interp : Interpreter.t) (d : sdict value)
    (feature : string) :
  find_score interp d feature = VNone \/
  exists k, In (k, find_score interp d feature) d /\
            clean interp k = clean interp feature.
Proof.
  unfold find_score, get.
  destruct (sget d feature) as [v|] eqn:E.
  - destruct (is_none v) eqn:Hv.
    + destruct (fuzzy_match_cases interp d feature)
        as [(k & v' & (front & back & -> & Hk & _) & ->)|[_ ->]]; [|now left].
      right. exists k. split; [|exact Hk].
      apply in_or_app. right. now left.
    + right. exists feature. split; [|reflexivity]. now apply sget_In.
  - simpl.
    destruct (fuzzy_match_cases interp d feature)
      as [(k & v' & (front & back & -> & Hk & _) & ->)|[_ ->]]; [|now left].
    right. exists k. split; [|exact Hk].
    apply in_or_app. right. now left.
Qed.

(** ** The validation loop *)

Lemma validate_loop_ok (interp : Interpreter.t) (features : list string)
    (d : sdict value) :
  forall acc miss vec missing,
    validate_loop interp features d acc miss = Ok (vec, missing) ->
    exists xs,
      Forall2 (fun f x => feature_score interp d f = Some x) features xs /\
      vec = acc ++ xs /\
      missing = miss ++ filter (defaulted interp d) features.
Proof.
  induction features as [|f fs IH]; simpl; intros acc miss vec missing H.
  - injection H as <- <-. exists []. now rewrite !app_nil_r.
  - unfold feature_score, defaulted in *.
    destruct (is_none (find_score interp d f)) eqn:Hn.
    + apply IH in H as (xs & HF & -> & ->).
      exists (VFloat (Binary64.Finite (1 # 2)) :: xs). rewrite <- !app_assoc. simpl.
      repeat split; auto. constructor; [now rewrite Hn | exact HF].
    + destruct (is_numeric (find_score interp d f)) eqn:Hx; [|discriminate].
      apply IH in H as (xs & HF & -> & ->).
      exists (find_score interp d f :: xs). rewrite <- !app_assoc. simpl.
      repeat split; auto. constructor; [now rewrite Hn, Hx | exact HF].
Qed.

Lemma validate_loop_total (interp : Interpreter.t) (features : list string)
    (d : sdict value) :
  (forall f, In f features -> feature_score interp d f <> None) ->
  forall acc miss, exists r, validate_loop interp features d acc miss = Ok r.
Proof.
  induction features as [|f fs IH]; simpl; intros Hall acc miss.
  - eauto.
  - assert (Hf := Hall f (or_introl eq_refl)). unfold feature_score in Hf.
    destruct (is_none (find_score interp d f)).
    + apply IH. auto.
    + destruct (is_numeric (find_score interp d f)); [|congruence]. apply IH. auto.
Qed.

Lemma validate_loop_raise (interp : Interpreter.t) (features : list string)
    (d : sdict value) :
  forall acc miss e,
    validate_loop interp features d acc miss = Raise e ->
    exists f, In f features /\
              is_none (find_score interp d f) = false /\
              is_numeric (find_score interp d f) = false /\
              e = ValueError (not_numeric_msg f).
Proof.
  induction features as [|f fs IH]; simpl; intros acc miss e H; [discriminate|].
  destruct (is_none (find_score interp d f)) eqn:Hn.
  - apply IH in H as (f' & Hin & ?). exists f'. auto.
  - destruct (is_numeric (find_score interp d f)) eqn:Hx.
    + apply IH in H as (f' & Hin & ?). exists f'. auto.
    + injection H as <-. exists f. auto.
Qed.

Lemma feature_score_numeric (interp : Interpreter.t) (d : sdict value) (f : string) :
  (forall k v, In (k, v) d -> is_numeric v = true \/ v = VNone) ->
  feature_score interp d f <> None.
Proof.
  intros Hd. unfold feature_score.
  destruct (is_none (find_score interp d f)) eqn:Hn; [discriminate|].
  destruct (find_score_from_entry interp d f) as [E|(k & Hin & _)].
  - rewrite E in Hn. discriminate.
  - destruct (Hd _ _ Hin) as [Hnum|E].
    + rewrite Hnum. discriminate.
    + rewrite E in Hn. discriminate.
Qed.

(** ** Feature-vector builder *)

(** C2. For a score mapping (every value a number) and every feature name
    in canonical order, [_validate_input] returns a vector as long as the
    feature list whose entry for the feature is: the value under the exact
    key; otherwise the value under the first key that matches up to case
    and surrounding whitespace; otherwise the float 0.5, in which case, and
    only then, the feature is in the reported missing list.  For the empty
    mapping every feature gets 0.5 and is reported. *)
Theorem validate_input_resolves (interp : Interpreter.t) (self : PredictionService)
    (d : sdict value) :
  (forall k v, In (k, v) d -> is_numeric v = true) ->
  exists ordered_scores missing_keys,
    _validate_input interp self (VDict d) = Ok (ordered_scores, missing_keys) /\
    List.length ordered_scores = List.length (feature_names self) /\
    (forall i feature,
        nth_error (feature_names self) i = Some feature ->
        exists x,
          nth_error ordered_scores i = Some x /\
          ((sget d feature = Some x /\ ~ In feature missing_keys)
           \/ (sget d feature = None /\
               (exists k, first_fuzzy_key interp d feature k x) /\
               ~ In feature missing_keys)
           \/ (sget d feature = None /\ no_fuzzy_key interp d feature /\
               x = VFloat (Binary64.Finite (1 # 2)) /\
               In feature missing_keys))) /\
    (d = [] ->
     ordered_scores
     = map (fun _ => VFloat (Binary64.Finite (1 # 2))) (feature_names self) /\
     missing_keys = feature_names self).
Proof.
  intros Hnum.
  assert (Hnum' : forall k v, In (k, v) d -> is_numeric v = true \/ v = VNone)
    by (intros; left; eauto).
  destruct (validate_loop_total interp (feature_names self) d
              (fun f _ => feature_score_numeric interp d f Hnum') [] [])
    as [[vec missing] Hrun].
  exists vec, missing. simpl. split; [exact Hrun|].
  destruct (validate_loop_ok _ _ _ _ _ _ _ Hrun) as (xs & HF & -> & ->).
  simpl. split; [symmetry; eapply Forall2_length; eauto|].
  split.
  - intros i feature Hi.
    destruct (Forall2_nth_error _ _ _ HF i feature Hi) as (x & Hx & Hfs).
    exists x. split; [exact Hx|].
    assert (Hmiss : In feature (filter (defaulted interp d) (feature_names self))
                    <-> defaulted interp d feature = true).
    { rewrite filter_In. apply nth_error_In in Hi. tauto. }
    unfold feature_score in Hfs. unfold defaulted in Hmiss.
    destruct (sget d feature) as [v|] eqn:Hget.
    + left.
      assert (Hv : is_none v = false).
      { apply numeric_not_none. eapply Hnum, sget_In, Hget. }
      rewrite (find_score_exact _ _ _ _ Hget Hv) in *.
      rewrite Hv in *.
      destruct (is_numeric v); [|discriminate]. injection Hfs as <-.
      split; [reflexivity|]. rewrite Hmiss. discriminate.
    + right.
      rewrite (find_score_absent interp d feature (or_introl Hget)) in *.
      destruct (fuzzy_match_cases interp d feature)
        as [(k & v & Hfirst & Hm)|[Hno Hm]]; rewrite Hm in *.
      * left. split; [reflexivity|].
        assert (Hv : is_none v = false).
        { apply numeric_not_none.
          destruct Hfirst as (front & back & -> & _).
          apply (Hnum k). apply in_or_app. right. now left. }
        rewrite Hv in *.
        destruct (is_numeric v); [|discriminate]. injection Hfs as <-.
        split; [eauto|]. rewrite Hmiss. discriminate.
      * right. simpl in *. injection Hfs as <-.
        repeat split; auto. now apply Hmiss.
  - intros ->. split.
    + clear Hrun. induction HF as [|f x fs xs Hf HF IH]; simpl; [reflexivity|].
      f_equal; [|exact IH]. now injection Hf.
    + clear. induction (feature_names self) as [|f fs IH]; simpl; [reflexivity|].
      now f_equal.
Qed.

Lemma validate_input_resolves_witness :
  exists ordered_scores missing_keys,
    _validate_input Interpreter.ascii Samples.stub_service
      (VDict Samples.empathy_scores)
    = Ok (ordered_scores, missing_keys) /\
    nth_error ordered_scores 0 = Some (VFloat (Binary64.Finite 3)) /\
    nth_error ordered_scores 1 = Some (VFloat (Binary64.Finite (1 # 2))) /\
    missing_keys = ["Logic"].
Proof.
  destruct (validate_input_resolves Interpreter.ascii Samples.stub_service
              Samples.empathy_scores)
    as (vec & missing & Hrun & _).
  - intros k v [[= <- <-]|[]]. reflexivity.
  - exists vec, missing. split; [exact Hrun|].
    vm_compute in Hrun. injection Hrun as <- <-. repeat split.
Defined.

(** ** [None] values *)

Lemma none_under_exact_key_not_defaulted :
  sget Samples.shadowed_none "Empathy" = Some VNone /\
  _validate_input Interpreter.ascii Samples.stub_service
    (VDict Samples.shadowed_none)
  = Ok ([VFloat (Binary64.Finite 3); VInt 4], []).
Proof. split; reflexivity. Qed.

(** C10, as implemented. A feature whose value is [None] under the exactly
    matching key is looked up again among all keys, up to case and
    surrounding whitespace, in insertion order: when the first such key
    holds [None] too the feature gets the float 0.5 and is reported
    missing, otherwise that key's value is used and the feature is not
    reported.  [None] is never rejected: the non-numeric error is raised
    only for a looked-up value that is present and neither [None] nor a
    number. *)
Theorem none_value_is_looked_up_again (interp : Interpreter.t)
    (self : PredictionService) (d : sdict value) :
  (forall i feature ordered_scores missing_keys,
      nth_error (feature_names self) i = Some feature ->
      sget d feature = Some VNone ->
      _validate_input interp self (VDict d) = Ok (ordered_scores, missing_keys) ->
      exists k v,
        first_fuzzy_key interp d feature k v /\
        ((v = VNone /\
          nth_error ordered_scores i = Some (VFloat (Binary64.Finite (1 # 2))) /\
          In feature missing_keys)
         \/ (v <> VNone /\ is_numeric v = true /\
             nth_error ordered_scores i = Some v /\
             ~ In feature missing_keys))) /\
  (forall e,
      _validate_input interp self (VDict d) = Raise e ->
      exists feature k v,
        In feature (feature_names self) /\ In (k, v) d /\
        clean interp k = clean interp feature /\
        v <> VNone /\ is_numeric v = false /\
        e = ValueError (not_numeric_msg feature)) /\
  ((forall k v, In (k, v) d -> v = VNone \/ is_numeric v = true) ->
   exists r, _validate_input interp self (VDict d) = Ok r).
Proof.
  split; [|split].
  - intros i feature vec missing Hi Hget Hrun. simpl in Hrun.
    destruct (validate_loop_ok _ _ _ _ _ _ _ Hrun) as (xs & HF & -> & ->).
    simpl.
    destruct (Forall2_nth_error _ _ _ HF i feature Hi) as (x & Hx & Hfs).
    assert (Hmiss : In feature (filter (defaulted interp d) (feature_names self))
                    <-> defaulted interp d feature = true).
    { rewrite filter_In. apply nth_error_In in Hi. tauto. }
    unfold feature_score in Hfs. unfold defaulted in Hmiss.
    rewrite (find_score_absent interp d feature (or_intror Hget)) in *.
    destruct (fuzzy_match_cases interp d feature)
      as [(k & v & Hfirst & Hm)|[Hno _]].
    + exists k, v. split; [exact Hfirst|]. rewrite Hm in *.
      destruct (is_none v) eqn:Hv.
      * left. injection Hfs as <-.
        split; [now apply is_none_VNone|].
        split; [exact Hx | now apply Hmiss].
      * right. split; [intros ->; discriminate|].
        destruct (is_numeric v); [|discriminate]. injection Hfs as <-.
        split; [reflexivity|]. split; [exact Hx|].
        rewrite Hmiss. discriminate.
    + exfalso. apply (Hno feature VNone); [now apply sget_In | reflexivity].
  - intros e Hrun. simpl in Hrun.
    apply validate_loop_raise in Hrun as (f & Hin & Hn & Hnum & ->).
    destruct (find_score_from_entry interp d f) as [E|(k & Hk & Hc)].
    + rewrite E in Hn. discriminate.
    + exists f, k, (find_score interp d f). repeat split; auto.
      intros E. rewrite E in Hn. discriminate.
  - intros Hd. simpl. apply validate_loop_total.
    intros f _. apply feature_score_numeric.
    intros k v Hin. destruct (Hd k v Hin); auto.
Qed.

Lemma none_value_is_looked_up_again_witness :
  exists k v,
    first_fuzzy_key Interpreter.ascii Samples.shadowed_none "Empathy" k v /\
    ((v = VNone /\
      nth_error [VFloat (Binary64.Finite 3); VInt 4] 0
      = Some (VFloat (Binary64.Finite (1 # 2))) /\
      In "Empathy" [])
     \/ (v <> VNone /\ is_numeric v = true /\
         nth_error [VFloat (Binary64.Finite 3); VInt 4] 0 = Some v /\
         ~ In "Empathy" [])).
Proof.
  apply (proj1 (none_value_is_looked_up_again Interpreter.ascii Samples.stub_service
                  Samples.shadowed_none) 0%nat "Empathy" _ []);
    reflexivity.
Defined.

(** ** The compatibility list *)

Lemma build_uyum_skorlari_total (classes : list string)
    (probabilities : list Binary64.t) :
  Forall finite_percentage probabilities ->
  exists pairs, build_uyum_skorlari classes probabilities = Ok pairs.
Proof.
  intros H. revert classes.
  induction H as [|p ps [x Hp] _ IH]; intros [|c cs]; simpl; eauto.
  rewrite Hp. cbn [Binary64.round bind].
  destruct (IH cs) as [rest ->]. cbn [bind]. eauto.
Qed.

Lemma build_uyum_skorlari_nth (classes : list string)
    (probabilities : list Binary64.t) :
  forall pairs,
    build_uyum_skorlari classes probabilities = Ok pairs ->
    forall i c p,
      nth_error classes i = Some c ->
      nth_error probabilities i = Some p ->
      exists n,
        Binary64.round (Binary64.mul p (Binary64.Finite 100)) = Ok n /\
        nth_error pairs i = Some {| meslek := c; uyum := n |}.
Proof.
  revert probabilities.
  induction classes as [|c0 cs IH]; intros [|p0 ps] pairs H [|i] c p;
    simpl; try discriminate.
  - intros [= <-] [= <-]. simpl in H.
    destruct (Binary64.round _) as [n|]; [|discriminate]. cbn [bind] in H.
    destruct (build_uyum_skorlari cs ps); [|discriminate].
    injection H as <-. eauto.
  - simpl in H.
    destruct (Binary64.round _) as [n|]; [|discriminate]. cbn [bind] in H.
    destruct (build_uyum_skorlari cs ps) as [rest|] eqn:E; [|discriminate].
    injection H as <-. simpl. eapply IH; eauto.
Qed.

Lemma build_uyum_skorlari_In (classes : list string)
    (probabilities : list Binary64.t) :
  forall pairs,
    build_uyum_skorlari classes probabilities = Ok pairs ->
    forall e, In e pairs ->
    exists j p,
      nth_error probabilities j = Some p /\
      Binary64.round (Binary64.mul p (Binary64.Finite 100)) = Ok (uyum e).
Proof.
  revert probabilities.
  induction classes as [|c0 cs IH]; intros [|p0 ps] pairs H e He;
    simpl in H; try (injection H as <-; destruct He).
  destruct (Binary64.round _) as [n|] eqn:Hn; [|discriminate]. cbn [bind] in H.
  destruct (build_uyum_skorlari cs ps) as [rest|] eqn:E; [|discriminate].
  injection H as <-. destruct He as [<-|He].
  - exists 0%nat, p0. auto.
  - destruct (IH _ _ E e He) as (j & p & Hj & Hp). exists (S j), p. auto.
Qed.

Lemma build_uyum_skorlari_classes (classes : list string)
    (probabilities : list Binary64.t) :
  List.length probabilities = List.length classes ->
  forall pairs,
    build_uyum_skorlari classes probabilities = Ok pairs ->
    map meslek pairs = classes /\
    Forall2 (fun p e =>
               Binary64.round (Binary64.mul p (Binary64.Finite 100)) = Ok (uyum e))
            probabilities pairs.
Proof.
  revert probabilities.
  induction classes as [|c cs IH]; intros [|p ps] Hlen pairs H;
    simpl in *; try discriminate.
  - injection H as <-. auto.
  - destruct (Binary64.round _) as [n|] eqn:Hn; [|discriminate]. cbn [bind] in H.
    destruct (build_uyum_skorlari cs ps) as [rest|] eqn:E; [|discriminate].
    injection H as <-. injection Hlen as Hlen.
    destruct (IH ps Hlen rest E) as [Hc HF]. simpl. split.
    + now rewrite Hc.
    + constructor; [exact Hn | exact HF].
Qed.

Lemma probability_finite_percentage (p : Binary64.t) :
  probability p -> finite_percentage p.
Proof.
  intros (x & -> & H0 & H1).
  destruct (percentage_of_probability x H0 H1) as (n & Hn & _).
  apply percentage_inv in Hn as (x' & [= <-] & _).
  unfold finite_percentage. cbn [Binary64.mul].
  destruct (percentage_of_probability x H0 H1) as (n' & Hn' & _).
  cbn [Binary64.mul] in Hn'.
  destruct (Binary64.of_Q (x * 100)) as [y|s|]; try discriminate. eauto.
Qed.

(** ** The entry point *)

Lemma predict_not_dict (interp : Interpreter.t) (self : PredictionService)
    (user_scores : value) :
  (forall d, user_scores <> VDict d) ->
  predict_and_analyze interp self user_scores
  = Ok (Error "Input must be in 'dict' format.").
Proof.
  intros H. destruct user_scores; try reflexivity.
  exfalso. eapply H. reflexivity.
Qed.

Lemma predict_after_model (interp : Interpreter.t) (self : PredictionService)
    (user_scores : value) (vec : list value) (missing : list string)
    (probabilities : list Binary64.t) (pairs : list uyum_skoru) :
  _validate_input interp self user_scores = Ok (vec, missing) ->
  bind (transform (scaler self) vec) (predict_proba (model self)) = Ok probabilities ->
  build_uyum_skorlari (classes_ (le self)) probabilities = Ok pairs ->
  predict_and_analyze interp self user_scores =
  match build_comparison interp self (items user_scores) probabilities with
  | Raise e => Ok (Error ("Error building comparison: " ++ str_exn e)%string)
  | Ok (kazanan_meslek, rows) =>
      Ok (Prediction (sorted_reverse uyum pairs) kazanan_meslek rows)
  end.
Proof.
  intros Hv Hm Hu. unfold predict_and_analyze. rewrite Hv, Hm, Hu. reflexivity.
Qed.

(** A prediction was built from a compatibility list. *)
Lemma predict_prediction_inv (interp : Interpreter.t) (self : PredictionService)
    (user_scores : value) (vec : list value) (missing : list string)
    (probabilities : list Binary64.t)
    (u : list uyum_skoru) (w : string) (rows : list karsilastirma) :
  _validate_input interp self user_scores = Ok (vec, missing) ->
  bind (transform (scaler self) vec) (predict_proba (model self)) = Ok probabilities ->
  predict_and_analyze interp self user_scores = Ok (Prediction u w rows) ->
  exists pairs,
    build_uyum_skorlari (classes_ (le self)) probabilities = Ok pairs /\
    build_comparison interp self (items user_scores) probabilities = Ok (w, rows) /\
    u = sorted_reverse uyum pairs.
Proof.
  intros Hv Hm Hp. unfold predict_and_analyze in Hp. rewrite Hv, Hm in Hp.
  destruct (build_uyum_skorlari (classes_ (le self)) probabilities) as [pairs|];
    [|discriminate].
  cbn [bind] in Hp.
  destruct (build_comparison interp self (items user_scores) probabilities)
    as [[w' rows']|]; [|discriminate].
  injection Hp as <- <- <-. eauto.
Qed.

Lemma build_comparison_winner (interp : Interpreter.t) (self : PredictionService)
    (d : sdict value) (probabilities : list Binary64.t) :
  (exists w row, has_winner self probabilities w row /\
     build_comparison interp self d probabilities
     = Ok (w, map (comparison_row interp d row) (feature_names self)))
  \/ ((forall w row, ~ has_winner self probabilities w row) /\
      exists e, build_comparison interp self d probabilities = Raise e).
Proof.
  unfold build_comparison, has_winner.
  destruct (argmax probabilities) as [i|e] eqn:Ha; simpl.
  - unfold index, getitem.
    destruct (nth_error (classes_ (le self)) i) as [w|] eqn:Hc; simpl.
    + destruct (sget (grup_ortalamalari self) w) as [row|] eqn:Hr; simpl.
      * left. exists w, row. split; [|reflexivity]. exists i. auto.
      * right. split; [|eauto].
        intros w' row' (i' & [= <-] & Hc' & Hr'). congruence.
    + right. split; [|eauto].
      intros w' row' (i' & [= <-] & Hc' & Hr'). congruence.
  - right. split; [|eauto].
    intros w' row' (i' & Hi' & _). discriminate.
Qed.

Lemma drifted_encoder_class_has_no_row :
  _validate_input Interpreter.ascii Samples.drifted_service (VDict [])
  = Ok ([VFloat (Binary64.Finite (1 # 2)); VFloat (Binary64.Finite (1 # 2))],
        ["Empathy"; "Logic"]) /\
  bind (transform (scaler Samples.drifted_service)
          [VFloat (Binary64.Finite (1 # 2)); VFloat (Binary64.Finite (1 # 2))])
       (predict_proba (model Samples.drifted_service))
  = Ok [Samples.literal 0.7; Samples.literal 0.3] /\
  predict_and_analyze Interpreter.ascii Samples.drifted_service (VDict [])
  = Ok (Error "Error building comparison: 'Doctor'").
Proof. repeat split; vm_compute; reflexivity. Qed.

(** A NaN among the probabilities leaves [predict_and_analyze] as an
    exception: [round(prob * 100)] stands outside of every handler. *)
Lemma nan_probability_escapes :
  predict_and_analyze Interpreter.ascii Samples.nan_service
    (VDict Samples.empathy_scores)
  = Raise (ValueError "cannot convert float NaN to integer").
Proof. vm_compute. reflexivity. Qed.

(** C3, as implemented. When the hundredfold of every probability that the
    classifier returns is a finite float, [predict_and_analyze] returns a
    structured value and does not raise: an error payload when the input is
    not a dict, when a looked-up score is neither [None] nor a number, when
    the scaler or the classifier raises, and also when the comparison
    cannot be built (no probability, no class at the winning index, or no
    group-average row for the winning class); otherwise a prediction
    result. *)
Theorem predict_and_analyze_returns (interp : Interpreter.t)
    (self : PredictionService) (user_scores : value) :
  (forall vec missing probabilities,
      _validate_input interp self user_scores = Ok (vec, missing) ->
      bind (transform (scaler self) vec) (predict_proba (model self))
      = Ok probabilities ->
      Forall finite_percentage probabilities) ->
  exists p,
    predict_and_analyze interp self user_scores = Ok p /\
    ((forall d, user_scores <> VDict d) ->
     p = Error "Input must be in 'dict' format.") /\
    (forall d feature,
        user_scores = VDict d ->
        In feature (feature_names self) ->
        find_score interp d feature <> VNone ->
        is_numeric (find_score interp d feature) = false ->
        exists f, In f (feature_names self) /\ p = Error (not_numeric_msg f)) /\
    (forall vec missing e,
        _validate_input interp self user_scores = Ok (vec, missing) ->
        bind (transform (scaler self) vec) (predict_proba (model self)) = Raise e ->
        p = Error ("Model prediction error: " ++ str_exn e)%string) /\
    (forall vec missing probabilities,
        _validate_input interp self user_scores = Ok (vec, missing) ->
        bind (transform (scaler self) vec) (predict_proba (model self))
        = Ok probabilities ->
        ((forall w row, ~ has_winner self probabilities w row) ->
         exists msg, p = Error ("Error building comparison: " ++ msg)%string) /\
        (forall w row, has_winner self probabilities w row ->
         exists u rows, p = Prediction u w rows)).
Proof.
  intros Hfinite.
  destruct (_validate_input interp self user_scores) as [[vec missing]|e] eqn:Hv.
  - (* validated *)
    destruct user_scores as [| | | | |d]; try discriminate.
    assert (Hnumeric : forall feature,
               In feature (feature_names self) ->
               find_score interp d feature <> VNone ->
               is_numeric (find_score interp d feature) = false -> False).
    { intros feature Hin Hnn Hnum. simpl in Hv.
      destruct (validate_loop_ok _ _ _ _ _ _ _ Hv) as (xs & HF & _).
      destruct (In_nth_error _ _ Hin) as [i Hi].
      destruct (Forall2_nth_error _ _ _ HF i feature Hi) as (x & _ & Hfs).
      unfold feature_score in Hfs. rewrite Hnum in Hfs.
      destruct (is_none (find_score interp d feature)) eqn:Hn; [|discriminate].
      apply is_none_VNone in Hn. contradiction. }
    destruct (bind (transform (scaler self) vec) (predict_proba (model self)))
      as [probabilities|e] eqn:Hm.
    + destruct (build_uyum_skorlari_total (classes_ (le self)) probabilities
                  (Hfinite _ _ _ eq_refl Hm)) as [pairs Hu].
      pose proof (predict_after_model _ _ _ _ _ _ _ Hv Hm Hu) as Hp.
      cbn [items] in Hp.
      destruct (build_comparison_winner interp self d probabilities)
        as [(w & row & Hw & Hb)|[Hno [e Hb]]]; rewrite Hb in Hp;
        (eexists; split; [exact Hp|]);
        (split; [intros H; exfalso; eapply H; reflexivity|]);
        (split; [intros d' feature [= <-] Hin Hnn Hnum; exfalso; eauto|]);
        (split; [intros vec' missing' e' [= <- <-] Hm'; congruence|]);
        intros vec' missing' probs' [= <- <-] Hm';
        assert (probs' = probabilities) by congruence; subst probs'.
      * split.
        { intros Hno. exfalso. eapply Hno, Hw. }
        { intros w' row' (i' & Hi' & Hc' & Hr').
          destruct Hw as (i & Hi & Hc & Hr).
          assert (i' = i) by congruence. subst i'.
          assert (w' = w) by congruence. subst w'. eauto. }
      * split; [intros _; exists (str_exn e); reflexivity|].
        intros w' row' Hw'. exfalso. eapply Hno, Hw'.
    + exists (Error ("Model prediction error: " ++ str_exn e)%string).
      split; [unfold predict_and_analyze; rewrite Hv, Hm; reflexivity|].
      split; [intros H; exfalso; eapply H; reflexivity|].
      split; [intros d' feature [= <-] Hin Hnn Hnum; exfalso; eauto|].
      split; [intros vec' missing' e' [= <- <-] Hm'; congruence|].
      intros vec' missing' probs' [= <- <-] Hm'. congruence.
  - (* validation raised *)
    destruct user_scores as [| | | | |d];
      try (simpl in Hv; injection Hv as <-;
           eexists; split; [reflexivity|];
           split; [reflexivity|];
           split; [discriminate|];
           split; discriminate).
    simpl in Hv.
    destruct (validate_loop_raise _ _ _ _ _ _ Hv) as (f & Hin & Hn & Hnum & ->).
    exists (Error (not_numeric_msg f)).
    split; [unfold predict_and_analyze; simpl; rewrite Hv; reflexivity|].
    split; [intros H; exfalso; eapply H; reflexivity|].
    split; [eauto|].
    split; discriminate.
Qed.

Lemma predict_and_analyze_returns_witness :
  exists p,
    predict_and_analyze Interpreter.ascii Samples.stub_service
      (VDict Samples.empathy_scores) = Ok p /\
    exists u rows, p = Prediction u "Doctor" rows.
Proof.
  destruct (predict_and_analyze_returns Interpreter.ascii Samples.stub_service
              (VDict Samples.empathy_scores)) as (p & Hp & _ & _ & _ & H).
  - intros vec missing probabilities Hv Hm.
    vm_compute in Hv. injection Hv as <- <-.
    vm_compute in Hm. injection Hm as <-.
    repeat constructor; eexists; vm_compute; reflexivity.
  - exists p. split; [exact Hp|].
    destruct (H [VFloat (Binary64.Finite 3); VFloat (Binary64.Finite (1 # 2))]
                ["Logic"] [Samples.literal 0.7; Samples.literal 0.3]
                eq_refl eq_refl) as [_ Hw].
    apply (Hw "Doctor" [("Empathy", Samples.literal 4.2);
                        ("Logic", Samples.literal 3.1)]).
    exists 0%nat. repeat split.
Defined.

(** C4. For probabilities between 0 and 1, one per label-encoder class, the
    returned compatibility list has one pair per class, the pair of a class
    carrying [round(probability * 100)] (the float product, rounded to the
    nearest integer), an integer between 0 and 100; it is sorted by
    descending compatibility, and pairs of equal compatibility keep the
    encoder's class order. *)
Theorem compatibility_list (interp : Interpreter.t) (self : PredictionService)
    (user_scores : value) (vec : list value) (missing : list string)
    (probabilities : list Binary64.t)
    (u : list uyum_skoru) (w : string) (rows : list karsilastirma) :
  _validate_input interp self user_scores = Ok (vec, missing) ->
  bind (transform (scaler self) vec) (predict_proba (model self)) = Ok probabilities ->
  List.length probabilities = List.length (classes_ (le self)) ->
  Forall probability probabilities ->
  predict_and_analyze interp self user_scores = Ok (Prediction u w rows) ->
  exists pairs,
    map meslek pairs = classes_ (le self) /\
    Forall2 (fun p e =>
               Binary64.round (Binary64.mul p (Binary64.Finite 100)) = Ok (uyum e))
            probabilities pairs /\
    Permutation u pairs /\
    List.length u = List.length (classes_ (le self)) /\
    (forall e, In e u -> (0 <= uyum e <= 100)%Z) /\
    StronglySorted (fun a b => (uyum b <= uyum a)%Z) u /\
    (forall c, filter (fun e => (uyum e =? c)%Z) u
               = filter (fun e => (uyum e =? c)%Z) pairs).
Proof.
  intros Hv Hm Hlen Hprob Hp.
  destruct (predict_prediction_inv _ _ _ _ _ _ _ _ _ Hv Hm Hp)
    as (pairs & Hu & _ & ->).
  destruct (build_uyum_skorlari_classes _ _ Hlen _ Hu) as [Hc HF].
  assert (Hperm : Permutation (sorted_reverse uyum pairs) pairs)
    by apply sorted_reverse_perm.
  assert (Hrange : forall e, In e pairs -> (0 <= uyum e <= 100)%Z).
  { intros e He.
    destruct (build_uyum_skorlari_In _ _ _ Hu e He) as (j & p & Hj & Hr).
    rewrite Forall_forall in Hprob.
    destruct (Hprob p (nth_error_In _ _ Hj)) as (x & -> & H0 & H1).
    destruct (percentage_of_probability x H0 H1) as (n & Hn & Hb).
    assert (n = uyum e) by congruence. now subst n. }
  exists pairs. repeat split.
  - exact Hc.
  - exact HF.
  - exact Hperm.
  - rewrite (Permutation_length Hperm), <- Hc. now rewrite length_map.
  - apply Hrange. apply (Permutation_in _ Hperm). assumption.
  - apply Hrange. apply (Permutation_in _ Hperm). assumption.
  - apply sorted_reverse_descending.
  - intros c. apply sorted_reverse_stable.
Qed.

Lemma compatibility_list_witness :
  exists pairs,
    map meslek pairs = ["Doctor"; "Engineer"; "Artist"] /\
    Forall2 (fun p e =>
               Binary64.round (Binary64.mul p (Binary64.Finite 100)) = Ok (uyum e))
            [Samples.literal 0.005; Samples.literal 0.015; Samples.literal 0.715]
            pairs /\
    Permutation [ {| meslek := "Artist"; uyum := 72 |};
                  {| meslek := "Engineer"; uyum := 2 |};
                  {| meslek := "Doctor"; uyum := 0 |} ] pairs /\
    List.length [ {| meslek := "Artist"; uyum := 72 |};
                  {| meslek := "Engineer"; uyum := 2 |};
                  {| meslek := "Doctor"; uyum := 0 |} ] = 3%nat /\
    (forall e, In e [ {| meslek := "Artist"; uyum := 72 |};
                      {| meslek := "Engineer"; uyum := 2 |};
                      {| meslek := "Doctor"; uyum := 0 |} ] ->
               (0 <= uyum e <= 100)%Z) /\
    StronglySorted (fun a b => (uyum b <= uyum a)%Z)
                   [ {| meslek := "Artist"; uyum := 72 |};
                     {| meslek := "Engineer"; uyum := 2 |};
                     {| meslek := "Doctor"; uyum := 0 |} ] /\
    (forall c, filter (fun e => (uyum e =? c)%Z)
                      [ {| meslek := "Artist"; uyum := 72 |};
                        {| meslek := "Engineer"; uyum := 2 |};
                        {| meslek := "Doctor"; uyum := 0 |} ]
               = filter (fun e => (uyum e =? c)%Z) pairs).
Proof.
  eapply (compatibility_list Interpreter.ascii Samples.half_percent_service
            (VDict Samples.empathy_scores)).
  - reflexivity.
  - reflexivity.
  - reflexivity.
  - repeat constructor;
      (eexists; split; [vm_compute; reflexivity|]); split; vm_compute;
      discriminate.
  - vm_compute. reflexivity.
Defined.

(** ** The winner and its comparison rows *)

Lemma argmax_from_spec (l : list Binary64.t) :
  forall (front : list Binary64.t) (best_index : nat) (best : Binary64.t),
    nth_error front best_index = Some best ->
    (Binary64.is_nan best = false ->
     forall j p, nth_error front j = Some p ->
                 Binary64.leb p best = true /\
                 ((j < best_index)%nat -> Binary64.leb best p = false)) ->
    let i := argmax_from best_index best (List.length front) l in
    exists pmax,
      nth_error (front ++ l) i = Some pmax /\
      (Binary64.is_nan pmax = false ->
       forall j p, nth_error (front ++ l) j = Some p ->
                   Binary64.leb p pmax = true /\
                   ((j < i)%nat -> Binary64.leb pmax p = false)).
Proof.
  induction l as [|x l IH]; intros front best_index best Hbest Hfront; simpl.
  - rewrite app_nil_r. eauto.
  - assert (Hlt : (best_index < List.length front)%nat)
      by (apply nth_error_Some; congruence).
    assert (Happ : front ++ x :: l = (front ++ [x]) ++ l)
      by (rewrite <- app_assoc; reflexivity).
    assert (Hlen : S (List.length front) = List.length (front ++ [x]))
      by (rewrite length_app; simpl; lia).
    destruct (Binary64.is_nan best) eqn:Hnan.
    + (* a NaN stops the scan *)
      exists best. split; [now rewrite nth_error_app1|]. congruence.
    + specialize (Hfront eq_refl).
      destruct (Binary64.leb x best) eqn:Hx; rewrite Happ, Hlen.
      * (* not larger: the earlier index stays *)
        apply IH.
        -- rewrite nth_error_app1; assumption.
        -- intros _ j p Hj.
           destruct (Nat.lt_ge_cases j (List.length front)) as [Hj'|Hj'].
           ++ rewrite nth_error_app1 in Hj by assumption. eauto.
           ++ rewrite nth_error_app2 in Hj by assumption.
              destruct (j - List.length front)%nat as [|[|k]]; try discriminate.
              injection Hj as <-. split; [exact Hx | lia].
      * (* larger, or a NaN: the new index wins *)
        apply IH.
        -- rewrite nth_error_app2 by lia. now rewrite Nat.sub_diag.
        -- intros Hxn j p Hj.
           assert (Hbx : Binary64.leb best x = true)
             by (now apply leb_total).
           destruct (Nat.lt_ge_cases j (List.length front)) as [Hj'|Hj'].
           ++ rewrite nth_error_app1 in Hj by assumption.
              destruct (Hfront j p Hj) as [Hle _]. split.
              ** eapply leb_trans; eauto.
              ** intros _. destruct (Binary64.leb x p) eqn:Hxp; [|reflexivity].
                 assert (Binary64.leb x best = true)
                   by (eapply leb_trans; eauto).
                 congruence.
           ++ rewrite nth_error_app2 in Hj by assumption.
              destruct (j - List.length front)%nat as [|[|k]] eqn:Hk;
                try discriminate.
              injection Hj as <-. split; [now apply leb_refl | lia].
Qed.

Lemma argmax_first_maximum (probabilities : list Binary64.t) :
  probabilities <> [] ->
  exists i pmax,
    argmax probabilities = Ok i /\
    nth_error probabilities i = Some pmax /\
    (Binary64.is_nan pmax = false ->
     forall j p, nth_error probabilities j = Some p ->
                 Binary64.leb p pmax = true /\
                 ((j < i)%nat -> Binary64.leb pmax p = false)).
Proof.
  destruct probabilities as [|x l]; [congruence|]. intros _.
  destruct (argmax_from_spec l [x] 0 x eq_refl) as (pmax & Hi & Hmax).
  - intros Hx [|[|j]] p; simpl; try discriminate.
    intros [= <-]. split; [now apply leb_refl | lia].
  - exists (argmax_from 0 x 1 l), pmax. auto.
Qed.




(** An integer beyond the range of a float: the scaler's conversion of it
    fails, and with a scaler that lets it pass the comparison row falls back
    to 0.5, 0.5 and 0.0. *)
Lemma oversized_score_gets_default_row :
  comparison_row Interpreter.ascii [("Empathy", VInt (10 ^ 400))]
                 [("Empathy", Samples.literal 4.2)] "Empathy"
  = {| yetkinlik := "Empathy";
       kullanici_skoru := Binary64.Finite (1 # 2);
       grup_ortalamasi := Binary64.Finite (1 # 2);
       fark := Binary64.Finite 0 |}.
Proof. vm_compute. reflexivity. Qed.

(** ** Loading the artifacts *)

Lemma string_length_append (a b : string) :
  String.length (a ++ b)%string = (String.length a + String.length b)%nat.
Proof. induction a as [|c a IH]; simpl; [reflexivity | now rewrite IH]. Qed.

Lemma prefix_split (p s : string) :
  String.prefix p s = true -> exists rest, s = (p ++ rest)%string.
Proof.
  revert s. induction p as [|c p IH]; intros s; simpl.
  - destruct s; intros _; eexists; reflexivity.
  - destruct s as [|c' s]; [discriminate|]. simpl.
    destruct (ascii_dec c c') as [<-|]; [|discriminate].
    intros H. destruct (IH s H) as [rest ->]. now exists rest.
Qed.

Lemma prefix_append (p rest : string) : String.prefix p (p ++ rest)%string = true.
Proof.
  induction p as [|c p IH]; simpl.
  - now destruct rest.
  - destruct (ascii_dec c c); [exact IH | contradiction].
Qed.

Lemma substring_skip (p r : string) (k m : nat) :
  substring (String.length p + k) m (p ++ r)%string = substring k m r.
Proof. induction p as [|c p IH]; simpl; [reflexivity | exact IH]. Qed.

Lemma substring_all (s : string) : substring 0 (String.length s) s = s.
Proof. induction s as [|c s IH]; simpl; [reflexivity | now rewrite IH]. Qed.

Lemma substring_cut (k : nat) :
  forall (r : string) (m : nat),
    (k + m = String.length r)%nat ->
    r = (substring 0 k r ++ substring k m r)%string.
Proof.
  induction k as [|k IH]; intros r m H.
  - simpl in H. subst m.
    replace (substring 0 0 r) with EmptyString by (now destruct r).
    simpl. now rewrite substring_all.
  - destruct r as [|c r]; [discriminate|]. simpl in H. injection H as H.
    simpl. f_equal. now apply IH.
Qed.

(** [fnmatch] against [prefix*suffix] decides that the name starts with the
    prefix and ends with the suffix. *)
Lemma matches_named (prefix suffix filename : string) :
  matches prefix suffix filename = true <-> named prefix suffix filename.
Proof.
  unfold matches, endswith, named. split.
  - intros H.
    apply andb_true_iff in H as [H H3]. apply andb_true_iff in H as [H1 H2].
    apply andb_true_iff in H3 as [_ H3].
    apply Nat.leb_le in H1. apply String.eqb_eq in H3.
    destruct (prefix_split _ _ H2) as [rest ->].
    rewrite string_length_append in *.
    set (k := (String.length rest - String.length suffix)%nat).
    replace (String.length prefix + String.length rest - String.length suffix)%nat
      with (String.length prefix + k)%nat in H3 by (subst k; lia).
    rewrite substring_skip in H3.
    exists (substring 0 k rest). f_equal.
    assert (Hcut : (k + String.length suffix = String.length rest)%nat)
      by (subst k; lia).
    apply substring_cut in Hcut. rewrite H3 in Hcut. exact Hcut.
  - intros [middle ->].
    rewrite !string_length_append.
    apply andb_true_iff. split; [apply andb_true_iff; split|].
    + apply Nat.leb_le. lia.
    + apply prefix_append.
    + apply andb_true_iff. split; [apply Nat.leb_le; lia|].
      apply String.eqb_eq.
      replace (String.length prefix
               + (String.length middle + String.length suffix)
               - String.length suffix)%nat
        with (String.length prefix + String.length middle)%nat by lia.
      rewrite substring_skip.
      replace (String.length middle) with (String.length middle + 0)%nat by lia.
      rewrite substring_skip. apply substring_all.
Qed.

Lemma glob_In {A} (prefix suffix : string) (files : list (file A)) (f : file A) :
  In f (glob prefix suffix files)
  <-> In f files /\ named prefix suffix (name f).
Proof. unfold glob. rewrite filter_In, matches_named. reflexivity. Qed.

Lemma max_mtime_latest {A} (files : list (file A)) :
  forall best,
    In (max_mtime best files) (best :: files) /\
    forall g, In g (best :: files) ->
              (st_mtime g <= st_mtime (max_mtime best files))%Q.
Proof.
  induction files as [|f files IH]; intros best; simpl.
  - split; [now left|]. intros g [<-|[]]. apply Qle_refl.
  - destruct (Qcompare_spec (st_mtime best) (st_mtime f)) as [E|L|G].
    + destruct (IH best) as [Hin Hmax]. split.
      * destruct Hin as [<-|Hin]; auto.
      * intros g [<-|[<-|Hg]]; [apply Hmax; now left| |apply Hmax; now right].
        rewrite <- E. apply Hmax. now left.
    + destruct (IH f) as [Hin Hmax]. split.
      * destruct Hin as [<-|Hin]; auto.
      * intros g [<-|[<-|Hg]]; [|apply Hmax; now left|apply Hmax; now right].
        apply Qle_trans with (st_mtime f);
          [now apply Qlt_le_weak | apply Hmax; now left].
    + destruct (IH best) as [Hin Hmax]. split.
      * destruct Hin as [<-|Hin]; auto.
      * intros g [<-|[<-|Hg]]; [apply Hmax; now left| |apply Hmax; now right].
        apply Qle_trans with (st_mtime best);
          [now apply Qlt_le_weak | apply Hmax; now left].
Qed.

Lemma joblib_load_cases {A} (filename : string) (files : list (file A)) :
  (exists a, joblib_load files filename = Ok a /\ stored filename files a)
  \/ (joblib_load files filename = Raise (FileNotFoundError filename) /\
      absent filename files).
Proof.
  unfold stored, absent.
  induction files as [|f files IH]; simpl.
  - right. split; [reflexivity | intros f []].
  - destruct (String.eqb_spec (name f) filename) as [E|NE].
    + left. exists (content f). split; [reflexivity|]. exists f. auto.
    + destruct IH as [(a & Hl & g & Hg & Hn & Ha)|[Hl Habs]].
      * left. exists a. split; [exact Hl|]. exists g. auto.
      * right. split; [exact Hl|]. intros g [<-|Hg]; auto.
Qed.

Lemma load_latest_cases {A} (prefix suffix legacy : string) (files : list (file A)) :
  (exists a, load_latest prefix suffix legacy files = Ok a /\
             selected prefix suffix legacy files a)
  \/ (load_latest prefix suffix legacy files = Raise (FileNotFoundError legacy) /\
      no_match prefix suffix files /\ absent legacy files).
Proof.
  unfold load_latest, selected.
  destruct (glob prefix suffix files) as [|f fs] eqn:Hg.
  - assert (Hno : no_match prefix suffix files).
    { intros g Hin Hm.
      assert (H : In g (glob prefix suffix files)) by (apply glob_In; auto).
      rewrite Hg in H. destruct H. }
    destruct (joblib_load_cases legacy files) as [(a & Hl & Hs)|[Hl Habs]].
    + left. exists a. auto.
    + right. auto.
  - left. eexists. split; [reflexivity|]. left.
    exists (max_mtime f fs). split; [|reflexivity].
    destruct (max_mtime_latest fs f) as [Hin Hmax].
    rewrite <- Hg in Hin.
    apply glob_In in Hin as [Hin Hm].
    repeat split; auto.
    intros g Hgin Hgm. apply Hmax. rewrite <- Hg. apply glob_In. auto.
Qed.

(** C7. The classifier and the label encoder are taken from the file with
    the latest modification time among those whose name starts with the
    optimized prefix of their kind and ends in [.pkl], and from the legacy
    file of the kind when there is no such file; the scaler and the
    group-average table, for which no optimized pattern exists, are taken
    from their legacy file.  When a kind has neither, loading raises
    [FileNotFoundError] and no service is built. *)
Theorem loader_selects_latest (artifacts_path : artifacts_dir) :
  (forall self,
      __init__ artifacts_path = Ok self ->
      selected "lightgbm_optimized_" ".pkl" "best_model.joblib"
               (classifier_files artifacts_path) (model self) /\
      stored "scaler.joblib" (scaler_files artifacts_path) (scaler self) /\
      selected "label_encoder_" ".pkl" "label_encoder.joblib"
               (encoder_files artifacts_path) (le self) /\
      stored "grup_ortalamalari.joblib" (group_files artifacts_path)
             (grup_ortalamalari self)) /\
  ((no_match "lightgbm_optimized_" ".pkl" (classifier_files artifacts_path) /\
    absent "best_model.joblib" (classifier_files artifacts_path))
   \/ absent "scaler.joblib" (scaler_files artifacts_path)
   \/ (no_match "label_encoder_" ".pkl" (encoder_files artifacts_path) /\
       absent "label_encoder.joblib" (encoder_files artifacts_path))
   \/ absent "grup_ortalamalari.joblib" (group_files artifacts_path) ->
   exists filename, __init__ artifacts_path = Raise (FileNotFoundError filename)).
Proof.
  unfold __init__.
  destruct (load_latest_cases "lightgbm_optimized_" ".pkl" "best_model.joblib"
              (classifier_files artifacts_path))
    as [(m & -> & Hm)|[-> [Hm1 Hm2]]]; cbn [bind];
    [|split; [discriminate | eauto]].
  destruct (joblib_load_cases "scaler.joblib" (scaler_files artifacts_path))
    as [(sc & -> & Hsc)|[-> Hsc]]; cbn [bind];
    [|split; [discriminate | eauto]].
  destruct (load_latest_cases "label_encoder_" ".pkl" "label_encoder.joblib"
              (encoder_files artifacts_path))
    as [(e & -> & He)|[-> [He1 He2]]]; cbn [bind];
    [|split; [discriminate | eauto]].
  destruct (joblib_load_cases "grup_ortalamalari.joblib" (group_files artifacts_path))
    as [(g & -> & Hg)|[-> Hg]]; cbn [bind];
    [|split; [discriminate | eauto]].
  split.
  - intros self H.
    destruct (index (values g) 0); [|discriminate].
    injection H as <-. simpl. auto.
  - (* every kind was found: none of the four cases applies *)
    intros [[Hno Habs]|[Habs|[[Hno Habs]|Habs]]]; exfalso.
    + destruct Hm as [(f & (Hin & Hmt & _) & _)|[_ (f & Hin & Hn & _)]].
      * exact (Hno f Hin Hmt).
      * exact (Habs f Hin Hn).
    + destruct Hsc as (f & Hin & Hn & _). exact (Habs f Hin Hn).
    + destruct He as [(f & (Hin & Hmt & _) & _)|[_ (f & Hin & Hn & _)]].
      * exact (Hno f Hin Hmt).
      * exact (Habs f Hin Hn).
    + destruct Hg as (f & Hin & Hn & _). exact (Habs f Hin Hn).
Qed.

(** In the sample directory the newest pickle of all is not a LightGBM
    model and is passed over. *)
Lemma loader_selects_latest_witness :
  exists self,
    __init__ Samples.stub_dir = Ok self /\
    model self = Samples.stub_classifier [Samples.literal 0.7; Samples.literal 0.3] /\
    ~ named "lightgbm_optimized_" ".pkl" "catboost_optimized_20240501_120000.pkl" /\
    selected "lightgbm_optimized_" ".pkl" "best_model.joblib"
             (classifier_files Samples.stub_dir) (model self) /\
    stored "scaler.joblib" (scaler_files Samples.stub_dir) (scaler self) /\
    selected "label_encoder_" ".pkl" "label_encoder.joblib"
             (encoder_files Samples.stub_dir) (le self) /\
    stored "grup_ortalamalari.joblib" (group_files Samples.stub_dir)
           (grup_ortalamalari self).
Proof.
  eexists. split; [reflexivity|]. split; [reflexivity|].
  split; [intros [middle H]; discriminate H|].
  apply (proj1 (loader_selects_latest Samples.stub_dir)). reflexivity.
Defined.

(** ** The canonical feature order *)

Lemma reordered_artifacts_load :
  exists self,
    __init__ Samples.reordered_dir = Ok self /\
    feature_names self = ["Empathy"; "Logic"] /\
    feature_name_ (model self) = ["Logic"; "Empathy"] /\
    ~ artifacts_agree self.
Proof.
  eexists. split; [reflexivity|]. split; [reflexivity|]. split; [reflexivity|].
  intros [H _]. discriminate H.
Qed.

(** C6, as implemented. At load time the canonical feature order is the key
    order of the first entry of the group-average table.  The loader
    compares it with nothing: whenever the four artifacts are found and the
    table has an entry, loading succeeds, whatever feature order the
    classifier and the scaler were fitted with. *)
Theorem feature_order_from_first_row (artifacts_path : artifacts_dir) :
  (forall self,
      __init__ artifacts_path = Ok self ->
      exists occupation row rest,
        grup_ortalamalari self = (occupation, row) :: rest /\
        feature_names self = keys row) /\
  (forall m sc e occupation row rest,
      load_latest "lightgbm_optimized_" ".pkl" "best_model.joblib"
                  (classifier_files artifacts_path) = Ok m ->
      joblib_load (scaler_files artifacts_path) "scaler.joblib" = Ok sc ->
      load_latest "label_encoder_" ".pkl" "label_encoder.joblib"
                  (encoder_files artifacts_path) = Ok e ->
      joblib_load (group_files artifacts_path) "grup_ortalamalari.joblib"
      = Ok ((occupation, row) :: rest) ->
      __init__ artifacts_path
      = Ok {| model := m; scaler := sc; le := e;
              grup_ortalamalari := (occupation, row) :: rest;
              feature_names := keys row |}).
Proof.
  split.
  - intros self. unfold __init__.
    destruct (load_latest _ _ _ (classifier_files artifacts_path));
      cbn [bind]; [|discriminate].
    destruct (joblib_load (scaler_files artifacts_path) _);
      cbn [bind]; [|discriminate].
    destruct (load_latest _ _ _ (encoder_files artifacts_path));
      cbn [bind]; [|discriminate].
    destruct (joblib_load (group_files artifacts_path) _) as [g|];
      cbn [bind]; [|discriminate].
    destruct g as [|[occupation row] rest]; [discriminate|].
    cbn. intros [= <-]. cbn. eauto.
  - intros m sc e occupation row rest Hm Hsc He Hg.
    unfold __init__. rewrite Hm, Hsc, He, Hg. reflexivity.
Qed.

Lemma feature_order_from_first_row_witness :
  exists self occupation row rest,
    __init__ Samples.reordered_dir = Ok self /\
    grup_ortalamalari self = (occupation, row) :: rest /\
    feature_names self = keys row.
Proof.
  eexists.
  destruct (proj1 (feature_order_from_first_row Samples.reordered_dir)
              _ eq_refl) as (occupation & row & rest & Hg & Hf).
  exists occupation, row, rest. split; [reflexivity|]. split; assumption.
Defined.

End PredictionFacts.

(* ================================================================== *)
(** * Facts about the aggregation of saved responses *)
(* ================================================================== *)

Module ResponsesFacts.
Import Py Responses ResponsesSpec PyFacts.
#[local] Open Scope list_scope.

Lemma scores_of_app (key : row -> string) (k : string) (rows : list row) (r : row) :
  scores_of key k (rows ++ [r])
  = scores_of key k rows ++ (if String.eqb (key r) k then [score r] else []).
Proof.
  unfold scores_of. rewrite filter_app, map_app. simpl.
  destruct (String.eqb (key r) k); reflexivity.
Qed.

Lemma total_snoc (l : list Q) (x : Q) : total (l ++ [x]) = (total l + x)%Q.
Proof. unfold total. now rewrite fold_left_app. Qed.

(** What the two dictionaries hold after the accumulation loop. *)
Lemma accumulate_invariant (key : row -> string) (rows : list row) :
  let acc := fold_left (accumulate key) rows ([], []) in
  forall k,
    sget (fst acc) k
    = match scores_of key k rows with
      | [] => None
      | l => Some (total l)
      end /\
    sget (snd acc) k
    = match scores_of key k rows with
      | [] => None
      | l => Some (Z.of_nat (List.length l))
      end.
Proof.
  induction rows as [|r rows IH] using rev_ind; intros acc k.
  - split; reflexivity.
  - subst acc. rewrite fold_left_app. simpl.
    set (acc := fold_left (accumulate key) rows ([], [])) in *.
    destruct (IH k) as [Ht Hc].
    unfold accumulate. cbn [fst snd]. rewrite !sget_sset, scores_of_app.
    destruct (String.eqb_spec (key r) k) as [E|NE].
    + subst k. unfold get0. rewrite Ht, Hc.
      destruct (scores_of key (key r) rows) as [|a l]; cbn [app].
      * split; reflexivity.
      * split.
        -- f_equal. change (a :: l ++ [score r]) with ((a :: l) ++ [score r]).
           now rewrite total_snoc.
        -- f_equal. change (a :: l ++ [score r]) with ((a :: l) ++ [score r]).
           rewrite length_app. simpl. lia.
    + rewrite app_nil_r. auto.
Qed.

Lemma averages_ok (finish : Q -> Q) (totals : sdict Q) (counts : sdict Z)
    (ks : list string) :
  (forall k, In k ks ->
             exists t c, sget totals k = Some t /\ sget counts k = Some c /\ c <> 0%Z) ->
  exists m,
    averages finish ks totals counts = Ok m /\
    forall k,
      (In k ks ->
       forall t c, sget totals k = Some t -> sget counts k = Some c ->
                   sget m k = Some (finish (t / inject_Z c)%Q)) /\
      (~ In k ks -> sget m k = None).
Proof.
  induction ks as [|k0 ks IH]; intros Hks.
  - exists []. split; [reflexivity|]. intros k. split; [intros []|reflexivity].
  - destruct IH as (m & Hm & Hget); [intros k Hk; apply Hks; now right|].
    destruct (Hks k0 (or_introl eq_refl)) as (t0 & c0 & Ht0 & Hc0 & Hnz).
    exists ((k0, finish (t0 / inject_Z c0)%Q) :: m). split.
    + simpl. unfold getitem, truediv. rewrite Ht0, Hc0. cbn [bind].
      destruct (Z.eqb_spec c0 0); [contradiction|]. cbn [bind].
      rewrite Hm. reflexivity.
    + intros k.
      change (sget ((k0, finish (t0 / inject_Z c0)%Q) :: m) k)
        with (if String.eqb k0 k then Some (finish (t0 / inject_Z c0)%Q)
              else sget m k).
      destruct (String.eqb_spec k0 k) as [->|NE].
      * split; [|intros H; exfalso; apply H; now left].
        intros _ t c Ht Hc. congruence.
      * destruct (Hget k) as [Hin Hout]. split.
        -- intros [E|Hk]; [contradiction|]. now apply Hin.
        -- intros Hk. apply Hout. intros H. apply Hk. now right.
Qed.

Lemma in_keys_sget {V} (d : sdict V) (k : string) :
  In k (keys d) <-> exists v, sget d k = Some v.
Proof.
  destruct (sget d k) as [v|] eqn:E.
  - split; [eauto|]. intros _.
    apply sget_In in E. apply (in_map fst) in E. exact E.
  - split; [|intros [v Hv]; discriminate].
    intros H. apply sget_None in E. contradiction.
Qed.

Lemma aggregate_means (finish : Q -> Q) (key : row -> string) (rows : list row) :
  let acc := fold_left (accumulate key) rows ([], []) in
  exists m,
    averages finish (keys (fst acc)) (fst acc) (snd acc) = Ok m /\
    forall k,
      sget m k
      = match scores_of key k rows with
        | [] => None
        | l => Some (finish (mean l))
        end.
Proof.
  intros acc.
  pose proof (accumulate_invariant key rows) as Hinv. cbv zeta in Hinv.
  fold acc in Hinv.
  destruct (averages_ok finish (fst acc) (snd acc) (keys (fst acc)))
    as (m & Hm & Hget).
  - intros k Hk. apply in_keys_sget in Hk as [t Ht].
    destruct (Hinv k) as [Ht' Hc'].
    destruct (scores_of key k rows) as [|a l]; [congruence|].
    exists t, (Z.of_nat (List.length (a :: l))).
    repeat split; auto. simpl. lia.
  - exists m. split; [exact Hm|]. intros k.
    destruct (Hinv k) as [Ht Hc]. destruct (Hget k) as [Hin Hout].
    destruct (scores_of key k rows) as [|a l].
    + apply Hout. intros Hk. apply in_keys_sget in Hk as [t Ht']. congruence.
    + apply (Hin (proj2 (in_keys_sget _ _) (ex_intro _ _ Ht)) _ _ Ht Hc).
Qed.

(** ** Sums of scores *)

Lemma fold_left_Qplus (l : list Q) (a : Q) :
  (fold_left Qplus l a == a + fold_right Qplus 0 l)%Q.
Proof.
  revert a. induction l as [|x l IH]; intros a; simpl.
  - ring.
  - rewrite IH. ring.
Qed.

(** ** The two endpoints *)

(** C1, at the rows [quoted_rows].  The scores are whole numbers and the
    means 7/4 and 3 are binary fractions, so the float arithmetic of the
    source is exact here.  [submit_responses_and_predict] aggregates the rows
    as the claim says: [Empathy] gets [round(7/4, 1) = 1.8] and the quoted
    name is normalized to [Logic].  [get_result_from_saved_responses]
    aggregates the same rows to the unrounded mean [1.75] for [Empathy], and
    groups the other score under the name as stored, quotes included, so that
    the normalized name [Logic] has no score. *)
Theorem saved_aggregation_neither_rounds_nor_normalizes :
  submit_user_scores quoted_rows
  = Ok [("Empathy", (18 # 10)%Q); ("Logic", (30 # 10)%Q)] /\
  saved_user_scores quoted_rows
  = Ok [("Empathy", (7 # 4)%Q); ("'Logic'", (3 # 1)%Q)] /\
  scores_of normalized "Empathy" quoted_rows = [1%Q; 2%Q; 2%Q; 2%Q] /\
  round1 (mean [1%Q; 2%Q; 2%Q; 2%Q]) = (18 # 10)%Q /\
  ~ (7 # 4 == 18 # 10)%Q /\
  sget [("Empathy", (7 # 4)%Q); ("'Logic'", (3 # 1)%Q)] "Logic" = None.
Proof.
  repeat split; try reflexivity. intros H. discriminate H.
Qed.

End ResponsesFacts.

(* ================================================================== *)
(** * Facts about option letters and stored responses *)
(* ================================================================== *)

Module CrudFacts.
Import Py Crud CrudSpec PyFacts.
#[local] Open Scope list_scope.

(** ** The options of a scenario *)

Lemma options_of_scenario_perm (db : Session) (scenario_id : Z) :
  Permutation (options_of_scenario db scenario_id) (scenario_options db scenario_id).
Proof. apply sorted_perm. Qed.

Lemma options_of_scenario_In (db : Session) (scenario_id : Z) (o : ScenarioOption.t) :
  In o (options_of_scenario db scenario_id)
  <-> In o (scenariooption db) /\ ScenarioOption.scenarioid o = scenario_id.
Proof.
  split.
  - intros H. apply (Permutation_in _ (options_of_scenario_perm db scenario_id)) in H.
    apply filter_In in H as [H1 H2]. apply Z.eqb_eq in H2. auto.
  - intros [H1 H2].
    apply (Permutation_in _ (Permutation_sym (options_of_scenario_perm db scenario_id))).
    apply filter_In. split; [exact H1 | now apply Z.eqb_eq].
Qed.

(** A selection of rows keeps the primary key unique. *)
Lemma selected_ids_unique (keep : ScenarioOption.t -> bool)
    (options : list ScenarioOption.t) :
  NoDup (map ScenarioOption.scenariooptionid options) ->
  NoDup (map ScenarioOption.scenariooptionid (filter keep options)).
Proof.
  induction options as [|o options IH]; simpl; intros H; [constructor|].
  inversion H as [|? ? Hnin Hnd]; subst.
  destruct (keep o); simpl; [|auto].
  constructor; [|auto].
  intros Hin. apply Hnin. apply in_map_iff in Hin as (x & Hx & Hin).
  apply in_map_iff. exists x. split; [exact Hx|].
  apply filter_In in Hin. tauto.
Qed.

Lemma options_of_scenario_NoDup (db : Session) (scenario_id : Z) :
  option_ids_unique db ->
  NoDup (map ScenarioOption.scenariooptionid (options_of_scenario db scenario_id)).
Proof.
  intros H.
  eapply Permutation_NoDup.
  - apply Permutation_map. symmetry. apply options_of_scenario_perm.
  - now apply selected_ids_unique.
Qed.

(** ** Letters *)

Lemma enumerate_from_nth {A} (l : list A) :
  forall i K a,
    nth_error l K = Some a ->
    nth_error (enumerate_from i l) K = Some ((i + K)%nat, a).
Proof.
  induction l as [|x l IH]; intros i [|K] a; simpl; try discriminate.
  - intros [= <-]. now rewrite Nat.add_0_r.
  - intros H. rewrite (IH (S i) K a H). f_equal. f_equal. lia.
Qed.

Lemma list_index_nth (l : list ScenarioOption.t) :
  NoDup (map ScenarioOption.scenariooptionid l) ->
  forall i K o,
    nth_error l K = Some o ->
    list_index l o i = Ok (i + K)%nat.
Proof.
  induction l as [|x l IH]; intros Hnd i [|K] o; simpl; try discriminate.
  - intros [= <-]. rewrite Z.eqb_refl. now rewrite Nat.add_0_r.
  - intros H. inversion Hnd as [|? ? Hnin Hnd']; subst.
    destruct (Z.eqb_spec (ScenarioOption.scenariooptionid x)
                         (ScenarioOption.scenariooptionid o)) as [E|NE].
    + exfalso. apply Hnin. rewrite E. apply in_map. eapply nth_error_In, H.
    + rewrite (IH Hnd' (S i) K o H). f_equal. lia.
Qed.

Lemma upper_one (c : ascii) :
  upper (String c EmptyString) = String (upper_char c) EmptyString.
Proof. reflexivity. Qed.

(** When [convert_option_letter_to_scenariooptionid] returns. *)
Lemma convert_ok (db : Session) (scenario_id : Z) (c : ascii) (o : ScenarioOption.t) :
  let n := nat_of_ascii (upper_char c) in
  (65 <= n)%nat ->
  nth_error (options_of_scenario db scenario_id) (n - 65) = Some o ->
  convert_option_letter_to_scenariooptionid db scenario_id (String c EmptyString)
  = Ok (ScenarioOption.scenariooptionid o).
Proof.
  intros n Hn Hnth. unfold convert_option_letter_to_scenariooptionid.
  destruct (options_of_scenario db scenario_id) as [|o0 os] eqn:Hos.
  - destruct (n - 65)%nat; discriminate.
  - rewrite upper_one. cbn [ord bind]. fold n.
    assert (Hlt : (n - 65 < List.length (o0 :: os))%nat)
      by (apply nth_error_Some; congruence).
    destruct (Z.ltb_spec (Z.of_nat n - 65) 0); [lia|].
    destruct (Z.leb_spec (Z.of_nat (List.length (o0 :: os))) (Z.of_nat n - 65));
      [lia|].
    cbn [orb]. unfold index.
    replace (Z.to_nat (Z.of_nat n - 65)) with (n - 65)%nat by lia.
    rewrite Hnth. reflexivity.
Qed.

Lemma convert_inv (db : Session) (scenario_id : Z) (option_letter : string) (oid : Z) :
  convert_option_letter_to_scenariooptionid db scenario_id option_letter = Ok oid ->
  exists c o,
    option_letter = String c EmptyString /\
    (65 <= nat_of_ascii (upper_char c))%nat /\
    nth_error (options_of_scenario db scenario_id)
              (nat_of_ascii (upper_char c) - 65) = Some o /\
    ScenarioOption.scenariooptionid o = oid.
Proof.
  unfold convert_option_letter_to_scenariooptionid.
  destruct (options_of_scenario db scenario_id) as [|o0 os] eqn:Hos; [discriminate|].
  destruct option_letter as [|c [|c' rest]]; try discriminate.
  rewrite upper_one. cbn [ord bind].
  set (n := nat_of_ascii (upper_char c)).
  destruct (Z.ltb_spec (Z.of_nat n - 65) 0); [discriminate|].
  destruct (Z.leb_spec (Z.of_nat (List.length (o0 :: os))) (Z.of_nat n - 65));
    [discriminate|].
  cbn [orb]. unfold index.
  replace (Z.to_nat (Z.of_nat n - 65)) with (n - 65)%nat by lia.
  destruct (nth_error (o0 :: os) (n - 65)) as [o|] eqn:Hnth; [|discriminate].
  cbn [bind]. intros [= <-]. exists c, o. repeat split; auto. lia.
Qed.

Lemma upper_char_below_a (n : nat) :
  (n < 97)%nat -> upper_char (ascii_of_nat n) = ascii_of_nat n.
Proof.
  intros H. unfold upper_char.
  rewrite nat_ascii_embedding by lia.
  destruct (Nat.leb_spec 97 n); [lia | reflexivity].
Qed.

Lemma score_map_key_nth (db : Session) (scenario_id : Z) (K : nat)
    (o : ScenarioOption.t) :
  option_ids_unique db ->
  nth_error (options_of_scenario db scenario_id) K = Some o ->
  score_map_key db o = Ok (scenario_id, chr (65 + K)).
Proof.
  intros Hu Hnth.
  assert (Hs : ScenarioOption.scenarioid o = scenario_id).
  { apply nth_error_In in Hnth. now apply options_of_scenario_In in Hnth. }
  unfold score_map_key. rewrite Hs.
  rewrite (list_index_nth _ (options_of_scenario_NoDup db scenario_id Hu) 0 K o Hnth).
  reflexivity.
Qed.

Lemma lowercase_letter_names_an_earlier_option :
  (* the 33rd option is served under chr(65 + 32), the letter "a" ... *)
  (exists e o,
      nth_error (options_with_letters (scenario_options wide_db 1)) 32 = Some e /\
      letter e = chr (65 + 32) /\
      nth_error (options_of_scenario wide_db 1) 32 = Some o /\
      ScenarioOption.scenariooptionid o = 33%Z) /\
  (* ... which converts to the first option *)
  convert_option_letter_to_scenariooptionid wide_db 1 (chr (65 + 32)) = Ok 1%Z /\
  (* and a submitted "b" is stored as the option whose letter is "B" *)
  convert_option_letter_to_scenariooptionid small_db 1 "b" = Ok 2%Z /\
  score_map_key small_db (make_option 2 1) = Ok (1%Z, "B").
Proof.
  split; [|repeat split].
  do 2 eexists. repeat split; vm_compute; reflexivity.
Qed.

(** C9, as implemented. For a scenario whose options, ordered by identifier,
    number at most 32, the Kth option carries the letter [chr(65+K)] in all
    three derivations: the served scenario, the conversion of a submitted
    letter to an option, and the key of the score map.  For every letter
    that the conversion accepts, the letter re-derived from the stored
    option is the submitted letter in upper case (the letter itself when it
    was served). *)
Theorem option_letters (db : Session) (scenario_id : Z) (K : nat)
    (o : ScenarioOption.t) :
  option_ids_unique db ->
  nth_error (options_of_scenario db scenario_id) K = Some o ->
  (K < 32)%nat ->
  (exists e,
      nth_error (options_with_letters (scenario_options db scenario_id)) K = Some e /\
      letter e = chr (65 + K) /\
      text e = ScenarioOption.optiontext o) /\
  convert_option_letter_to_scenariooptionid db scenario_id (chr (65 + K))
  = Ok (ScenarioOption.scenariooptionid o) /\
  score_map_key db o = Ok (scenario_id, chr (65 + K)) /\
  (forall option_letter oid,
      convert_option_letter_to_scenariooptionid db scenario_id option_letter
      = Ok oid ->
      exists o',
        In o' (options_of_scenario db scenario_id) /\
        ScenarioOption.scenariooptionid o' = oid /\
        score_map_key db o' = Ok (scenario_id, upper option_letter)).
Proof.
  intros Hu Hnth HK.
  split; [|split; [|split]].
  - unfold options_with_letters.
    change (sorted ScenarioOption.scenariooptionid (scenario_options db scenario_id))
      with (options_of_scenario db scenario_id).
    eexists. rewrite nth_error_map.
    rewrite (enumerate_from_nth _ 0 K o Hnth). simpl. repeat split.
  - unfold chr. apply convert_ok.
    + rewrite upper_char_below_a, nat_ascii_embedding by lia. lia.
    + rewrite upper_char_below_a, nat_ascii_embedding by lia.
      replace (65 + K - 65)%nat with K by lia. exact Hnth.
  - now apply score_map_key_nth.
  - intros option_letter oid Hc.
    destruct (convert_inv _ _ _ _ Hc) as (c & o' & -> & Hn & Hnth' & Hid).
    exists o'. split; [eapply nth_error_In; eauto|]. split; [exact Hid|].
    rewrite (score_map_key_nth _ _ _ _ Hu Hnth').
    rewrite upper_one. unfold chr.
    replace (65 + (nat_of_ascii (upper_char c) - 65))%nat
      with (nat_of_ascii (upper_char c)) by lia.
    now rewrite ascii_nat_embedding.
Qed.

Lemma option_letters_witness :
  (exists e,
      nth_error (options_with_letters (scenario_options small_db 1)) 2 = Some e /\
      letter e = "C" /\
      text e = "option") /\
  convert_option_letter_to_scenariooptionid small_db 1 "C" = Ok 3%Z /\
  score_map_key small_db (make_option 3 1) = Ok (1%Z, "C") /\
  (forall option_letter oid,
      convert_option_letter_to_scenariooptionid small_db 1 option_letter = Ok oid ->
      exists o',
        In o' (options_of_scenario small_db 1) /\
        ScenarioOption.scenariooptionid o' = oid /\
        score_map_key small_db o' = Ok (1%Z, upper option_letter)).
Proof.
  apply (option_letters small_db 1 2 (make_option 3 1)).
  - unfold option_ids_unique. simpl.
    repeat (constructor; [simpl; intuition discriminate|]). constructor.
  - reflexivity.
  - lia.
Defined.

(** ** The batch without duplicates *)

Lemma lookup_set (d : dict Z ResponseIn.t) (k k' : Z) (v : ResponseIn.t) :
  lookup Z.eqb (set Z.eqb d k v) k'
  = if (k =? k')%Z then Some v else lookup Z.eqb d k'.
Proof.
  induction d as [|[k0 v0] d IH]; simpl.
  - reflexivity.
  - destruct (Z.eqb_spec k0 k) as [->|Hne]; simpl.
    + destruct (Z.eqb_spec k k'); reflexivity.
    + destruct (Z.eqb_spec k0 k') as [->|Hne'].
      * destruct (Z.eqb_spec k k'); [congruence | reflexivity].
      * exact IH.
Qed.

Lemma keys_set (d : dict Z ResponseIn.t) (k : Z) (v : ResponseIn.t) :
  keys (set Z.eqb d k v) = keys d /\ In k (keys d)
  \/ keys (set Z.eqb d k v) = keys d ++ [k] /\ ~ In k (keys d).
Proof.
  unfold keys. induction d as [|[k0 v0] d IH]; simpl.
  - right. split; [reflexivity | tauto].
  - destruct (Z.eqb_spec k0 k) as [->|Hne]; simpl.
    + left. auto.
    + destruct IH as [[-> Hin]|[-> Hnin]]; [left|right]; split; auto.
      intros [E|H]; auto.
Qed.

Lemma unique_responses_snoc (responses : list ResponseIn.t) (r : ResponseIn.t) :
  unique_responses (responses ++ [r])
  = set Z.eqb (unique_responses responses) (ResponseIn.scenario_id r) r.
Proof. unfold unique_responses. now rewrite fold_left_app. Qed.

Lemma last_response_snoc (responses : list ResponseIn.t) (r : ResponseIn.t) (s : Z) :
  last_response (responses ++ [r]) s
  = if (ResponseIn.scenario_id r =? s)%Z then Some r else last_response responses s.
Proof. unfold last_response. now rewrite fold_left_app. Qed.

Lemma unique_responses_lookup (responses : list ResponseIn.t) (s : Z) :
  lookup Z.eqb (unique_responses responses) s = last_response responses s.
Proof.
  induction responses as [|r responses IH] using rev_ind; [reflexivity|].
  rewrite unique_responses_snoc, last_response_snoc, lookup_set, IH.
  reflexivity.
Qed.

Lemma unique_responses_keys (responses : list ResponseIn.t) :
  NoDup (keys (unique_responses responses)) /\
  forall k r, In (k, r) (unique_responses responses) -> ResponseIn.scenario_id r = k.
Proof.
  induction responses as [|r responses [IH1 IH2]] using rev_ind.
  - split; [constructor | intros k r []].
  - rewrite unique_responses_snoc. split.
    + destruct (keys_set (unique_responses responses) (ResponseIn.scenario_id r) r)
        as [[-> _]|[-> Hnin]]; [exact IH1|].
      apply NoDup_app; [exact IH1 | repeat constructor; intros [] |].
      intros k Hk [<-|[]]. contradiction.
    + generalize dependent (unique_responses responses). intros u _ IH2.
      induction u as [|[k0 v0] u IHu]; simpl.
      * intros k r' [[= <- <-]|[]]. reflexivity.
      * destruct (Z.eqb_spec k0 (ResponseIn.scenario_id r)) as [E|NE].
        -- intros k r' [[= <- <-]|H]; [now symmetry|]. apply IH2. now right.
        -- intros k r' [[= <- <-]|H]; [apply IH2; now left|].
           apply IHu; [|exact H]. intros k' r'' H'. apply IH2. now right.
Qed.

(** ** Options and their scenario *)

Lemma mem_option_ids (db : Session) (scenario_id option_id : Z) :
  mem option_id
      (map ScenarioOption.scenariooptionid
           (filter (fun o => (ScenarioOption.scenarioid o =? scenario_id)%Z)
                   (scenariooption db)))
  = option_in_scenario db scenario_id option_id.
Proof.
  unfold mem, option_in_scenario.
  induction (scenariooption db) as [|o l IH]; simpl; [reflexivity|].
  destruct (Z.eqb_spec (ScenarioOption.scenarioid o) scenario_id); simpl.
  - rewrite IH, andb_true_r. now rewrite Z.eqb_sym.
  - now rewrite IH, andb_false_r.
Qed.

Lemma NoDup_map_injective {A B} (f : A -> B) (l : list A) (x y : A) :
  NoDup (map f l) -> In x l -> In y l -> f x = f y -> x = y.
Proof.
  induction l as [|a l IH]; simpl; intros Hnd Hx Hy E; [contradiction|].
  inversion Hnd as [|? ? Hnin Hnd']; subst.
  destruct Hx as [<-|Hx], Hy as [<-|Hy]; auto.
  - exfalso. apply Hnin. rewrite E. now apply in_map.
  - exfalso. apply Hnin. rewrite <- E. now apply in_map.
Qed.

Lemma option_in_scenario_unique (db : Session) (k s option_id : Z) :
  option_ids_unique db ->
  option_in_scenario db k option_id = true ->
  option_in_scenario db s option_id = (k =? s)%Z.
Proof.
  intros Hu Hk. unfold option_in_scenario in *.
  apply existsb_exists in Hk as (o & Ho & Hb).
  apply andb_true_iff in Hb as [Hid Hsc].
  apply Z.eqb_eq in Hid, Hsc.
  destruct (Z.eqb_spec k s) as [<-|NE].
  - apply existsb_exists. exists o. split; [exact Ho|].
    apply andb_true_iff. split; now apply Z.eqb_eq.
  - destruct (existsb _ (scenariooption db)) eqn:E; [|reflexivity].
    apply existsb_exists in E as (o' & Ho' & Hb').
    apply andb_true_iff in Hb' as [Hid' Hsc'].
    apply Z.eqb_eq in Hid', Hsc'.
    assert (o = o')
      by (eapply (NoDup_map_injective ScenarioOption.scenariooptionid);
          eauto; congruence).
    subst o'. congruence.
Qed.

Lemma convert_in_scenario (db : Session) (s : Z) (option_letter : string) (oid : Z) :
  convert_option_letter_to_scenariooptionid db s option_letter = Ok oid ->
  option_in_scenario db s oid = true.
Proof.
  intros H. apply convert_inv in H as (c & o & _ & _ & Hnth & Hid).
  apply nth_error_In, options_of_scenario_In in Hnth as [Hin Hs].
  apply existsb_exists. exists o. split; [exact Hin|].
  apply andb_true_iff. split; now apply Z.eqb_eq.
Qed.

Lemma convert_same_options (db db' : Session) (s : Z) (option_letter : string) :
  scenariooption db' = scenariooption db ->
  convert_option_letter_to_scenariooptionid db' s option_letter
  = convert_option_letter_to_scenariooptionid db s option_letter.
Proof.
  intros E. unfold convert_option_letter_to_scenariooptionid, options_of_scenario.
  now rewrite E.
Qed.

(** ** The three phases of [save_user_responses] *)

Lemma filter_all {A} (f : A -> bool) (l : list A) :
  (forall x, f x = true) -> filter f l = l.
Proof.
  intros H. induction l as [|x l IH]; simpl; [reflexivity|].
  rewrite H. now f_equal.
Qed.

(** Filtering what an earlier filter kept. *)
Lemma filter_kept {A} (rows : list A) (kept also : A -> bool) :
  filter also (filter kept rows) = filter (fun r => andb (kept r) (also r)) rows.
Proof.
  induction rows as [|r rows IH]; simpl; [reflexivity|].
  destruct (kept r); simpl; [destruct (also r)|]; now rewrite IH.
Qed.

Lemma delete_for_scenario_spec (user_id : Z) (db : Session) (k : Z) :
  scenariooption (delete_for_scenario user_id db k) = scenariooption db /\
  committed (delete_for_scenario user_id db k) = committed db /\
  pending (delete_for_scenario user_id db k)
  = filter (fun r => negb ((UserResponse.userid r =? user_id)%Z
                           && option_in_scenario db k
                                (UserResponse.scenariooptionid r)))
           (pending db).
Proof.
  unfold delete_for_scenario.
  pose proof (mem_option_ids db k) as Hmem.
  destruct (map ScenarioOption.scenariooptionid
              (filter (fun o => (ScenarioOption.scenarioid o =? k)%Z)
                      (scenariooption db))) as [|i ids].
  - split; [reflexivity|]. split; [reflexivity|].
    symmetry. apply filter_all. intros r. rewrite <- Hmem.
    unfold mem. cbn [existsb]. now rewrite andb_false_r.
  - split; [reflexivity|]. split; [reflexivity|].
    cbn [pending]. apply filter_ext. intros r. now rewrite Hmem.
Qed.

Lemma answers_one_of_same_options (db db' : Session) (user_id : Z) (ks : list Z)
    (r : UserResponse.t) :
  scenariooption db' = scenariooption db ->
  answers_one_of db' user_id ks r = answers_one_of db user_id ks r.
Proof.
  intros E. unfold answers_one_of, option_in_scenario. now rewrite E.
Qed.

Lemma delete_phase (user_id : Z) (ks : list Z) :
  forall db,
    let db1 := fold_left (delete_for_scenario user_id) ks db in
    scenariooption db1 = scenariooption db /\
    committed db1 = committed db /\
    pending db1
    = filter (fun r => negb (answers_one_of db user_id ks r)) (pending db).
Proof.
  induction ks as [|k ks IH]; intros db; cbn [fold_left].
  - split; [reflexivity|]. split; [reflexivity|].
    symmetry. apply filter_all. intros r.
    unfold answers_one_of. cbn [existsb]. now rewrite andb_false_r.
  - destruct (IH (delete_for_scenario user_id db k)) as (Ho & Hc & Hp).
    destruct (delete_for_scenario_spec user_id db k) as (Ho' & Hc' & Hp').
    split; [congruence|]. split; [congruence|].
    rewrite Hp, Hp', filter_kept. apply filter_ext. intros r.
    rewrite (answers_one_of_same_options _ _ _ _ _ Ho').
    unfold answers_one_of. cbn [existsb].
    destruct (UserResponse.userid r =? user_id)%Z; cbn [andb negb];
      [|reflexivity].
    destruct (option_in_scenario db k (UserResponse.scenariooptionid r));
      reflexivity.
Qed.

Lemma build_phase (db : Session) (user_id : Z) (responses : list ResponseIn.t) :
  forall rows,
    build_db_responses db user_id responses = Ok rows ->
    Forall2 (fun response r =>
               exists oid,
                 convert_option_letter_to_scenariooptionid db
                   (ResponseIn.scenario_id response)
                   (ResponseIn.option_letter response) = Ok oid /\
                 r = make_response user_id oid)
            responses rows.
Proof.
  induction responses as [|response rest IH]; simpl; intros rows H.
  - injection H as <-. constructor.
  - destruct (convert_option_letter_to_scenariooptionid db _ _) as [oid|] eqn:Hc;
      [|discriminate]. cbn [bind] in H.
    destruct (build_db_responses db user_id rest) as [rows'|]; [|discriminate].
    cbn [bind] in H. injection H as <-.
    constructor; [eauto | now apply IH].
Qed.

Lemma filter_none {A} (f : A -> bool) (l : list A) :
  (forall x, f x = false) -> filter f l = [].
Proof.
  intros H. induction l as [|x l IH]; simpl; [reflexivity|]. now rewrite H.
Qed.

(** The rows that survive the deletions. *)
Lemma kept_rows_in_batch (db : Session) (user_id : Z) (ks : list Z)
    (rows : list UserResponse.t) (s : Z) :
  In s ks ->
  responses_to db (filter (fun r => negb (answers_one_of db user_id ks r)) rows)
               user_id s = [].
Proof.
  intros Hs. unfold responses_to. rewrite filter_kept.
  apply filter_none. intros r. unfold answers_one_of.
  destruct (UserResponse.userid r =? user_id)%Z; cbn [andb negb]; [|reflexivity].
  destruct (option_in_scenario db s (UserResponse.scenariooptionid r)) eqn:E;
    [|now rewrite andb_false_r].
  assert (H : existsb (fun s' => option_in_scenario db s'
                                   (UserResponse.scenariooptionid r)) ks = true)
    by (apply existsb_exists; eauto).
  now rewrite H.
Qed.

Lemma kept_rows_outside_batch (db : Session) (user_id : Z) (ks : list Z)
    (rows : list UserResponse.t) (s : Z) :
  option_ids_unique db ->
  ~ In s ks ->
  responses_to db (filter (fun r => negb (answers_one_of db user_id ks r)) rows)
               user_id s
  = responses_to db rows user_id s.
Proof.
  intros Hu Hs. unfold responses_to. rewrite filter_kept.
  apply filter_ext. intros r. unfold answers_one_of.
  destruct (UserResponse.userid r =? user_id)%Z; cbn [andb negb]; [|reflexivity].
  destruct (option_in_scenario db s (UserResponse.scenariooptionid r)) eqn:E;
    [|now rewrite andb_false_r].
  assert (H : existsb (fun s' => option_in_scenario db s'
                                   (UserResponse.scenariooptionid r)) ks = false).
  { destruct (existsb _ ks) eqn:Hx; [|reflexivity].
    apply existsb_exists in Hx as (s' & Hin & Hs').
    rewrite (option_in_scenario_unique db s s' _ Hu E) in Hs'.
    apply Z.eqb_eq in Hs'. subst s'. contradiction. }
  now rewrite H.
Qed.

Lemma kept_rows_other_user (db : Session) (user_id : Z) (ks : list Z)
    (rows : list UserResponse.t) (u : Z) :
  u <> user_id ->
  responses_of (filter (fun r => negb (answers_one_of db user_id ks r)) rows) u
  = responses_of rows u.
Proof.
  intros Hne. unfold responses_of. rewrite filter_kept.
  apply filter_ext. intros r. unfold answers_one_of.
  destruct (Z.eqb_spec (UserResponse.userid r) u) as [E|NE];
    [|now rewrite andb_false_r].
  destruct (Z.eqb_spec (UserResponse.userid r) user_id); [congruence|].
  reflexivity.
Qed.

(** The rows that are inserted. *)
Lemma inserted_rows (db : Session) (user_id : Z) (u : dict Z ResponseIn.t) :
  option_ids_unique db ->
  NoDup (keys u) ->
  (forall k r, In (k, r) u -> ResponseIn.scenario_id r = k) ->
  forall rows,
    Forall2 (fun response r =>
               exists oid,
                 convert_option_letter_to_scenariooptionid db
                   (ResponseIn.scenario_id response)
                   (ResponseIn.option_letter response) = Ok oid /\
                 r = make_response user_id oid)
            (values u) rows ->
    forall s,
      (lookup Z.eqb u s = None -> responses_to db rows user_id s = []) /\
      (forall response,
          lookup Z.eqb u s = Some response ->
          exists oid,
            convert_option_letter_to_scenariooptionid db s
              (ResponseIn.option_letter response) = Ok oid /\
            responses_to db rows user_id s = [make_response user_id oid]).
Proof.
  intros Hu. induction u as [|[k r0] u IH]; intros Hnd Hkeys rows HF s.
  - inversion HF; subst. split; [reflexivity | discriminate].
  - inversion HF as [|? x ? rows' (oid & Hconv & ->) HF']; subst.
    inversion Hnd as [|? ? Hnin Hnd']; subst.
    assert (Hk : ResponseIn.scenario_id r0 = k) by (apply Hkeys; now left).
    rewrite Hk in Hconv.
    destruct (IH Hnd' (fun k' r' H => Hkeys k' r' (or_intror H)) rows' HF' s)
      as [IHnone IHsome].
    pose proof (option_in_scenario_unique db k s oid Hu
                  (convert_in_scenario _ _ _ _ Hconv)) as Hin.
    unfold responses_to. cbn [filter lookup].
    change (UserResponse.userid (make_response user_id oid)) with user_id.
    change (UserResponse.scenariooptionid (make_response user_id oid)) with oid.
    rewrite Z.eqb_refl, Hin. cbn [andb].
    fold (responses_to db rows' user_id s).
    destruct (Z.eqb_spec k s) as [->|NE].
    + assert (Hl : lookup Z.eqb u s = None).
      { destruct (lookup Z.eqb u s) as [r'|] eqn:E; [|reflexivity].
        exfalso. apply Hnin. clear - E.
        induction u as [|[k' v'] u IHu]; simpl in *; [discriminate|].
        destruct (Z.eqb_spec k' s); [now left | right; auto]. }
      rewrite (IHnone Hl). split; [discriminate|].
      intros response [= <-]. eauto.
    + split; [exact IHnone | exact IHsome].
Qed.

Lemma inserted_rows_user (db : Session) (user_id : Z)
    (responses : list ResponseIn.t) (rows : list UserResponse.t) (u : Z) :
  build_db_responses db user_id responses = Ok rows ->
  u <> user_id ->
  responses_of rows u = [].
Proof.
  intros H Hne. apply build_phase in H. unfold responses_of.
  induction H as [|response r responses rows (oid & _ & ->) _ IH]; simpl;
    [reflexivity|].
  destruct (Z.eqb_spec user_id u); [congruence | exact IH].
Qed.

Lemma responses_to_app (db : Session) (rows rows' : list UserResponse.t) (u s : Z) :
  responses_to db (rows ++ rows') u s
  = responses_to db rows u s ++ responses_to db rows' u s.
Proof. unfold responses_to. apply filter_app. Qed.

Lemma responses_to_of_user (db : Session) (rows : list UserResponse.t) (u s : Z) :
  responses_to db rows u s
  = filter (fun r => option_in_scenario db s (UserResponse.scenariooptionid r))
           (responses_of rows u).
Proof. unfold responses_to, responses_of. now rewrite filter_kept. Qed.

(** What a successful call leaves in the table: the rows that were not
    deleted, followed by one row per scenario of the batch. *)
Lemma save_user_responses_cases (db : Session) (responses : list ResponseIn.t)
    (user_id : Z) :
  let u := unique_responses responses in
  let kept := filter (fun r => negb (answers_one_of db user_id (keys u) r))
                     (pending db) in
  (exists e db',
      save_user_responses db responses user_id = (db', Raise e) /\
      scenariooption db' = scenariooption db /\
      committed db' = committed db /\
      pending db' = committed db)
  \/ (exists rows db',
         save_user_responses db responses user_id = (db', Ok (List.length rows)) /\
         build_db_responses db user_id (values u) = Ok rows /\
         scenariooption db' = scenariooption db /\
         committed db' = kept ++ rows /\
         pending db' = kept ++ rows).
Proof.
  intros u kept. unfold save_user_responses. fold u.
  destruct (delete_phase user_id (keys u) db) as (Ho & Hc & Hp).
  cbv zeta in Ho, Hc, Hp.
  set (db1 := fold_left (delete_for_scenario user_id) (keys u) db) in *.
  assert (Hb : build_db_responses db1 user_id (values u)
               = build_db_responses db user_id (values u)).
  { clear - Ho. induction (values u) as [|r l IH]; simpl; [reflexivity|].
    now rewrite (convert_same_options db db1 _ _ Ho), IH. }
  rewrite Hb.
  destruct (build_db_responses db user_id (values u)) as [rows|e].
  - set (db2 := match rows with [] => db1 | _ :: _ => add_all db1 rows end).
    assert (H2 : scenariooption db2 = scenariooption db1 /\
                 committed db2 = committed db1 /\
                 pending db2 = pending db1 ++ rows).
    { subst db2. destruct rows; simpl; [now rewrite app_nil_r | auto]. }
    destruct H2 as (Ho2 & Hc2 & Hp2).
    unfold commit. destruct (unique_constraint_ok (pending db2)).
    + right. eexists. eexists. split; [reflexivity|].
      split; [reflexivity|]. cbn [scenariooption committed pending].
      rewrite Hp2, Hp. fold kept. repeat split. congruence.
    + left. eexists. eexists. split; [reflexivity|].
      unfold rollback. cbn [scenariooption committed pending].
      repeat split; congruence.
  - left. eexists. eexists. split; [reflexivity|].
    unfold rollback. cbn [scenariooption committed pending].
    repeat split; congruence.
Qed.

(** C8. After a successful call the table holds, for every scenario of the
    batch, exactly one response of the user: the option named by the last
    letter submitted for that scenario; the user's responses to other
    scenarios and the responses of other users are unchanged, so that "at
    most one response per user and scenario" is preserved.  After a failed
    call the stored responses are those from before the call. *)
Theorem save_user_responses_replaces (db : Session) (responses : list ResponseIn.t)
    (user_id : Z) :
  pending db = committed db ->
  option_ids_unique db ->
  match save_user_responses db responses user_id with
  | (db', Ok n) =>
      scenariooption db' = scenariooption db /\
      pending db' = committed db' /\
      (forall s response,
          last_response responses s = Some response ->
          exists oid,
            convert_option_letter_to_scenariooptionid db s
              (ResponseIn.option_letter response) = Ok oid /\
            responses_to db (committed db') user_id s
            = [make_response user_id oid]) /\
      (forall s,
          last_response responses s = None ->
          responses_to db (committed db') user_id s
          = responses_to db (committed db) user_id s) /\
      (forall u, u <> user_id ->
                 responses_of (committed db') u = responses_of (committed db) u) /\
      (at_most_one db (committed db) -> at_most_one db (committed db'))
  | (db', Raise e) =>
      scenariooption db' = scenariooption db /\
      committed db' = committed db /\
      pending db' = committed db
  end.
Proof.
  intros Hfresh Hu.
  destruct (save_user_responses_cases db responses user_id)
    as [(e & db' & -> & H)|(rows & db' & -> & Hb & Ho & Hc & Hp)]; [exact H|].
  rewrite Hfresh in Hc, Hp.
  set (u := unique_responses responses) in *.
  destruct (unique_responses_keys responses) as [Hnd Hkeys]. fold u in Hnd, Hkeys.
  pose proof (inserted_rows db user_id u Hu Hnd Hkeys rows (build_phase _ _ _ _ Hb))
    as Hins.
  assert (Hlook : forall s, lookup Z.eqb u s = last_response responses s)
    by (intros s; apply unique_responses_lookup).
  assert (Hin_keys : forall s, In s (keys u) <-> last_response responses s <> None).
  { intros s. rewrite <- Hlook. clear. unfold keys.
    induction u as [|[k v] u IH]; simpl; [tauto|].
    destruct (Z.eqb_spec k s) as [->|NE].
    - split; [discriminate | auto].
    - rewrite <- IH. split; [intros [E|H]; [contradiction | exact H] | auto]. }
  assert (Hbatch : forall s response,
             last_response responses s = Some response ->
             exists oid,
               convert_option_letter_to_scenariooptionid db s
                 (ResponseIn.option_letter response) = Ok oid /\
               responses_to db (committed db') user_id s
               = [make_response user_id oid]).
  { intros s response Hl.
    destruct (Hins s) as [_ Hsome].
    destruct (Hsome response) as (oid & Hconv & Hrows); [now rewrite Hlook|].
    exists oid. split; [exact Hconv|].
    rewrite Hc, responses_to_app, Hrows, kept_rows_in_batch; [reflexivity|].
    apply Hin_keys. congruence. }
  assert (Hrest : forall s,
             last_response responses s = None ->
             responses_to db (committed db') user_id s
             = responses_to db (committed db) user_id s).
  { intros s Hl.
    destruct (Hins s) as [Hnone _].
    rewrite Hc, responses_to_app, Hnone by (now rewrite Hlook).
    rewrite app_nil_r. apply kept_rows_outside_batch; [exact Hu|].
    intros Hk. apply Hin_keys in Hk. contradiction. }
  assert (Hothers : forall u', u' <> user_id ->
             responses_of (committed db') u' = responses_of (committed db) u').
  { intros u' Hne. rewrite Hc. unfold responses_of at 1. rewrite filter_app.
    fold (responses_of rows u').
    rewrite (inserted_rows_user _ _ _ _ _ Hb Hne), app_nil_r.
    now apply kept_rows_other_user. }
  split; [exact Ho|]. split; [congruence|].
  split; [exact Hbatch|]. split; [exact Hrest|]. split; [exact Hothers|].
  intros Hone u' s.
  destruct (Z.eq_dec u' user_id) as [->|Hne].
  - destruct (last_response responses s) as [response|] eqn:Hl.
    + destruct (Hbatch s response Hl) as (oid & _ & ->). simpl. lia.
    + rewrite (Hrest s Hl). apply Hone.
  - rewrite responses_to_of_user, (Hothers u' Hne), <- responses_to_of_user.
    apply Hone.
Qed.

Lemma save_user_responses_replaces_witness :
  snd (save_user_responses small_db [answer 1 "A"; answer 1 "b"] 7) = Ok 1%nat /\
  match save_user_responses small_db [answer 1 "A"; answer 1 "b"] 7 with
  | (db', Ok n) =>
      scenariooption db' = scenariooption small_db /\
      pending db' = committed db' /\
      (forall s response,
          last_response [answer 1 "A"; answer 1 "b"] s = Some response ->
          exists oid,
            convert_option_letter_to_scenariooptionid small_db s
              (ResponseIn.option_letter response) = Ok oid /\
            responses_to small_db (committed db') 7 s = [make_response 7 oid]) /\
      (forall s,
          last_response [answer 1 "A"; answer 1 "b"] s = None ->
          responses_to small_db (committed db') 7 s
          = responses_to small_db (committed small_db) 7 s) /\
      (forall u, u <> 7%Z ->
                 responses_of (committed db') u
                 = responses_of (committed small_db) u) /\
      (at_most_one small_db (committed small_db) ->
       at_most_one small_db (committed db'))
  | (db', Raise e) =>
      scenariooption db' = scenariooption small_db /\
      committed db' = committed small_db /\
      pending db' = committed small_db
  end.
Proof.
  split; [reflexivity|].
  apply (save_user_responses_replaces small_db [answer 1 "A"; answer 1 "b"] 7).
  - reflexivity.
  - unfold option_ids_unique. simpl.
    repeat (constructor; [simpl; intuition discriminate|]). constructor.
Defined.

End CrudFacts.

(* ================================================================== *)
(** * Facts about progress and scenario listing *)
(* ================================================================== *)

Module EndpointsFacts.
Import Py Crud Endpoints PyFacts.
#[local] Open Scope list_scope.

(** ** Progress *)

Lemma range_In (a b k : Z) : In k (range a b) <-> (a <= k < b)%Z.
Proof.
  unfold range. rewrite in_map_iff. split.
  - intros (i & <- & Hi). apply in_seq in Hi. lia.
  - intros H. exists (Z.to_nat (k - a)). split; [lia|].
    apply in_seq. lia.
Qed.

Lemma get_user_response_count_nonneg (db : Session) (user_id : Z) :
  (0 <= get_user_response_count db user_id)%Z.
Proof. unfold get_user_response_count. lia. Qed.

(** X1. A stage is reported as completed exactly when it is one of the four
    stages and the user has given four responses for it and for each stage
    before it. *)
Theorem progress_completed_stages (db : Session) (user_id : Z) (k : Z) :
  In k (completed_stages (get_user_progress db user_id))
  <-> (1 <= k <= 4)%Z /\ (4 * k <= get_user_response_count db user_id)%Z.
Proof.
  unfold get_user_progress. cbn [completed_stages].
  pose proof (get_user_response_count_nonneg db user_id) as Hpos.
  set (total := get_user_response_count db user_id) in *.
  pose proof (Z.div_mod total 4 ltac:(lia)) as Hdiv.
  pose proof (Z.mod_pos_bound total 4 ltac:(lia)) as Hmod.
  rewrite range_In.
  destruct (Z.gtb_spec (total / 4) 4); lia.
Qed.

(** X2. The current stage is always one of the four stages.  Below sixteen
    responses it is the first stage that is not completed; from sixteen
    responses on it stays at 4, which is then also reported as completed. *)
Theorem progress_current_stage (db : Session) (user_id : Z) :
  let p := get_user_progress db user_id in
  (1 <= current_stage p <= 4)%Z /\
  ((total_responses p < 16)%Z ->
   current_stage p = (total_responses p / 4 + 1)%Z /\
   ~ In (current_stage p) (completed_stages p) /\
   forall k, (1 <= k < current_stage p)%Z -> In k (completed_stages p)) /\
  ((16 <= total_responses p)%Z ->
   current_stage p = 4%Z /\ completed_stages p = [1; 2; 3; 4]%Z).
Proof.
  intros p.
  assert (Hc : forall k,
             In k (completed_stages p)
             <-> (1 <= k <= 4)%Z /\ (4 * k <= get_user_response_count db user_id)%Z).
  { intros k. subst p. unfold get_user_progress. cbn [completed_stages].
    pose proof (get_user_response_count_nonneg db user_id) as Hpos.
    set (total := get_user_response_count db user_id) in *.
    pose proof (Z.div_mod total 4 ltac:(lia)) as Hdiv.
    pose proof (Z.mod_pos_bound total 4 ltac:(lia)) as Hmod.
    rewrite range_In.
    destruct (Z.gtb_spec (total / 4) 4); lia. }
  subst p. unfold get_user_progress in *.
  cbn [completed_stages current_stage total_responses] in *.
  pose proof (get_user_response_count_nonneg db user_id) as Hpos.
  set (total := get_user_response_count db user_id) in *.
  pose proof (Z.div_mod total 4 ltac:(lia)) as Hdiv.
  pose proof (Z.mod_pos_bound total 4 ltac:(lia)) as Hmod.
  destruct (Z.gtb_spec (total / 4) 4) as [Hgt|Hle].
  - cbn. split; [lia|]. split; [lia|]. intros _. split; reflexivity.
  - destruct (Z.ltb_spec (total / 4) 4) as [Hlt|Hge].
    + split; [lia|]. split; [|lia].
      intros _. split; [reflexivity|]. split.
      * rewrite Hc. lia.
      * intros k Hk. apply Hc. lia.
    + assert (E : (total / 4 = 4)%Z) by lia. rewrite E.
      split; [lia|]. split; [lia|]. intros _. split; reflexivity.
Qed.

Lemma progress_current_stage_witness :
  let db := CrudSpec.small_db in
  let p := get_user_progress db 7 in
  current_stage p = (total_responses p / 4 + 1)%Z /\
  ~ In (current_stage p) (completed_stages p) /\
  forall k, (1 <= k < current_stage p)%Z -> In k (completed_stages p).
Proof.
  apply (proj1 (proj2 (progress_current_stage CrudSpec.small_db 7))).
  vm_compute. reflexivity.
Defined.

(** ** Scenario listing *)

Lemma firstn_skipn_firstn {A} (chunk done : nat) (scenarios : list A) :
  firstn done scenarios ++ firstn chunk (skipn done scenarios)
  = firstn (done + chunk) scenarios.
Proof.
  revert scenarios. induction done as [|done IH]; intros [|s scenarios]; simpl;
    try reflexivity.
  - now rewrite firstn_nil.
  - now rewrite IH.
Qed.

(** X3. An out-of-range stage is refused with HTTP 400 whatever the database
    holds; each of the four stages serves at most four scenarios, and the
    four stages, one after the other, serve exactly the first sixteen
    scenarios in identifier order. *)
Theorem stages_partition_first_sixteen (db : Database) :
  (forall stage,
      (stage < 1)%Z \/ (4 < stage)%Z ->
      get_scenarios (Some stage) db
      = Raise (HTTPException 400 "Stage must be between 1 and 4")) /\
  exists s1 s2 s3 s4,
    get_scenarios (Some 1%Z) db = Ok s1 /\
    get_scenarios (Some 2%Z) db = Ok s2 /\
    get_scenarios (Some 3%Z) db = Ok s3 /\
    get_scenarios (Some 4%Z) db = Ok s4 /\
    (List.length s1 <= 4 /\ List.length s2 <= 4 /\
     List.length s3 <= 4 /\ List.length s4 <= 4)%nat /\
    s1 ++ s2 ++ s3 ++ s4 = firstn 16 (get_all_scenarios db).
Proof.
  split.
  - intros stage H. unfold get_scenarios.
    destruct (Z.ltb_spec stage 1); [reflexivity|].
    destruct (Z.gtb_spec stage 4); [reflexivity | lia].
  - set (l := get_all_scenarios db).
    exists (firstn 4 (skipn 0 l)), (firstn 4 (skipn 4 l)),
           (firstn 4 (skipn 8 l)), (firstn 4 (skipn 12 l)).
    repeat (split; [reflexivity|]).
    split; [repeat split; apply firstn_le_length|].
    change (firstn 4 (skipn 0 l)) with (firstn 0 l ++ firstn 4 (skipn 0 l)).
    rewrite (firstn_skipn_firstn 4 0 l : _ = firstn 4 l).
    rewrite <- (firstn_skipn_firstn 4 12 l : _ = firstn 16 l).
    rewrite <- (firstn_skipn_firstn 4 8 l : _ = firstn 12 l).
    rewrite <- (firstn_skipn_firstn 4 4 l : _ = firstn 8 l).
    rewrite <- !app_assoc. reflexivity.
Qed.

Lemma stages_partition_first_sixteen_witness :
  get_scenarios (Some 0%Z) EndpointsSamples.school_db
  = Raise (HTTPException 400 "Stage must be between 1 and 4").
Proof.
  apply (proj1 (stages_partition_first_sixteen EndpointsSamples.school_db)). lia.
Defined.

Lemma enumerate_from_lookup {A} (l : list A) :
  forall i K,
    nth_error (enumerate_from i l) K
    = option_map (fun a => ((i + K)%nat, a)) (nth_error l K).
Proof.
  induction l as [|x l IH]; intros i [|K]; simpl; try reflexivity.
  - now rewrite Nat.add_0_r.
  - rewrite IH. destruct (nth_error l K); simpl; [|reflexivity].
    do 2 f_equal. lia.
Qed.

Lemma served_option (s_options : list ScenarioOption.t) (K : nat)
    (o : option_with_letter) :
  nth_error (options_with_letters s_options) K = Some o ->
  exists opt,
    nth_error (sorted ScenarioOption.scenariooptionid s_options) K = Some opt /\
    letter o = chr (65 + K) /\
    Crud.text o = ScenarioOption.optiontext opt.
Proof.
  unfold options_with_letters. rewrite nth_error_map, enumerate_from_lookup.
  destruct (nth_error (sorted ScenarioOption.scenariooptionid s_options) K)
    as [opt|]; [|discriminate].
  simpl. intros [= <-]. exists opt. repeat split.
Qed.

(** X4. Scenarios are served once each, in ascending identifier order,
    whatever the order of the table. *)
Lemma get_all_scenarios_ids (db : Database) :
  Permutation (map id (get_all_scenarios db))
              (map Scenario.scenarioid (scenario db)) /\
  StronglySorted Z.le (map id (get_all_scenarios db)).
Proof.
  unfold get_all_scenarios. rewrite map_map. cbn [id].
  split.
  - apply Permutation_map, sorted_perm.
  - pose proof (sorted_ascending Scenario.scenarioid (scenario db)) as H.
    induction H as [|s l Hs IH Hall]; simpl; constructor; [exact IH|].
    apply Forall_map. exact Hall.
Qed.

(** X5. What a user is shown is what gets stored: in a served scenario with
    fewer than 33 options, the letter shown next to an option text converts
    to an option of that very scenario carrying that text. *)
Theorem served_letter_converts_to_shown_option (db : Database)
    (e : scenario_data) (K : nat) (o : option_with_letter) :
  In e (get_all_scenarios db) ->
  nth_error (options e) K = Some o ->
  (K < 32)%nat ->
  exists opt,
    convert_option_letter_to_scenariooptionid (session db) (id e) (letter o)
    = Ok (ScenarioOption.scenariooptionid opt) /\
    In opt (scenariooption (session db)) /\
    ScenarioOption.scenarioid opt = id e /\
    ScenarioOption.optiontext opt = Crud.text o.
Proof.
  intros He Ho HK. unfold get_all_scenarios in He.
  apply in_map_iff in He as (s & <- & _). cbn [id options] in *.
  apply served_option in Ho as (opt & Hnth & Hl & Ht).
  change (sorted ScenarioOption.scenariooptionid (options_of db s))
    with (options_of_scenario (session db) (Scenario.scenarioid s)) in Hnth.
  exists opt. split.
  - rewrite Hl. unfold chr. apply CrudFacts.convert_ok.
    + rewrite CrudFacts.upper_char_below_a, nat_ascii_embedding by lia. lia.
    + rewrite CrudFacts.upper_char_below_a, nat_ascii_embedding by lia.
      replace (65 + K - 65)%nat with K by lia. exact Hnth.
  - apply nth_error_In, CrudFacts.options_of_scenario_In in Hnth as [Hin Hs].
    repeat split; auto.
Qed.

Lemma served_letter_converts_to_shown_option_witness :
  exists e o opt,
    nth_error (get_all_scenarios EndpointsSamples.school_db) 1 = Some e /\
    nth_error (options e) 1 = Some o /\
    letter o = "B" /\
    convert_option_letter_to_scenariooptionid
      (session EndpointsSamples.school_db) (id e) (letter o)
    = Ok (ScenarioOption.scenariooptionid opt) /\
    In opt (scenariooption (session EndpointsSamples.school_db)) /\
    ScenarioOption.scenarioid opt = id e /\
    ScenarioOption.optiontext opt = Crud.text o.
Proof.
  set (e := nth 1 (get_all_scenarios EndpointsSamples.school_db)
                {| id := 0; text := EmptyString; competency_name := EmptyString;
                   options := [] |}).
  set (o := nth 1 (options e) {| letter := EmptyString; Crud.text := EmptyString |}).
  destruct (served_letter_converts_to_shown_option EndpointsSamples.school_db
              e 1 o) as (opt & H).
  - apply (nth_error_In _ 1). reflexivity.
  - reflexivity.
  - lia.
  - exists e, o, opt. split; [reflexivity|]. split; [reflexivity|].
    split; [reflexivity|]. exact H.
Defined.

End EndpointsFacts.

(* ================================================================== *)
(** * More facts about the aggregation of saved responses *)
(* ================================================================== *)

Module AggregationFacts.
Import Py Responses ResponsesSpec PyFacts ResponsesFacts.
#[local] Open Scope list_scope.




Lemma scores_of_clean_names (rows : list row) (k : string) :
  (forall r, In r rows -> comp_name_clean (comp_name r) = comp_name r) ->
  scores_of normalized k rows = scores_of comp_name k rows.
Proof.
  intros H. unfold scores_of. f_equal. apply filter_ext_in.
  intros r Hr. unfold normalized. now rewrite (H r Hr).
Qed.

(** X7. When every stored competency name is already in normalized form,
    the two endpoints agree up to rounding: each score computed by
    [submit_responses_and_predict] is the score of
    [get_result_from_saved_responses] rounded to one decimal, under the same
    names. *)
Theorem endpoints_agree_up_to_rounding (rows : list row)
    (submitted saved : sdict Q) :
  (forall r, In r rows -> comp_name_clean (comp_name r) = comp_name r) ->
  submit_user_scores rows = Ok submitted ->
  saved_user_scores rows = Ok saved ->
  forall k, sget submitted k = option_map round1 (sget saved k).
Proof.
  intros Hclean Hs Hv k.
  destruct (aggregate_means round1 normalized rows) as (m & Hm & Hget).
  destruct (aggregate_means (fun m => m) comp_name rows) as (m' & Hm' & Hget').
  unfold submit_user_scores in Hs. fold normalized in Hs.
  assert (m = submitted) by congruence. subst m.
  assert (m' = saved).
  { destruct rows; [discriminate Hv|]. unfold saved_user_scores in Hv. congruence. }
  subst m'.
  rewrite Hget, Hget', (scores_of_clean_names rows k Hclean).
  destruct (scores_of comp_name k rows); reflexivity.
Qed.

Lemma endpoints_agree_up_to_rounding_witness :
  sget [("Empathy", Qmake 27 10); ("Logic", Qmake 50 10)] "Empathy"
  = option_map round1 (sget [("Empathy", mean [3%Q; 1%Q; 4%Q]);
                              ("Logic", mean [5%Q])] "Empathy").
Proof.
  apply (endpoints_agree_up_to_rounding
           [ {| score := 3%Q; comp_name := "Empathy"; scenario_id := 1; option_id := 3 |};
             {| score := 1%Q; comp_name := "Empathy"; scenario_id := 2; option_id := 6 |};
             {| score := 5%Q; comp_name := "Logic"; scenario_id := 4; option_id := 20 |};
             {| score := 4%Q; comp_name := "Empathy"; scenario_id := 3; option_id := 14 |} ]).
  - intros r [<-|[<-|[<-|[<-|[]]]]]; reflexivity.
  - reflexivity.
  - reflexivity.
Defined.

(** ** Scores stay on the scale of the options *)

Lemma sum_bounds (lo hi : Q) (l : list Q) :
  (forall x, In x l -> (lo <= x)%Q /\ (x <= hi)%Q) ->
  (inject_Z (Z.of_nat (List.length l)) * lo <= fold_right Qplus 0%Q l)%Q /\
  (fold_right Qplus 0%Q l <= inject_Z (Z.of_nat (List.length l)) * hi)%Q.
Proof.
  induction l as [|x l IH]; intros H.
  - simpl. split; rewrite Qmult_0_l; apply Qle_refl.
  - destruct IH as [IHlo IHhi]; [intros y Hy; apply H; now right|].
    destruct (H x (or_introl eq_refl)) as [Hlo Hhi].
    cbn [List.length fold_right].
    rewrite Nat2Z.inj_succ, <- Z.add_1_l, inject_Z_plus.
    split.
    + setoid_replace ((inject_Z 1 + inject_Z (Z.of_nat (List.length l))) * lo)%Q
        with (lo + inject_Z (Z.of_nat (List.length l)) * lo)%Q by ring.
      now apply Qplus_le_compat.
    + setoid_replace ((inject_Z 1 + inject_Z (Z.of_nat (List.length l))) * hi)%Q
        with (hi + inject_Z (Z.of_nat (List.length l)) * hi)%Q by ring.
      now apply Qplus_le_compat.
Qed.

Lemma mean_bounds (lo hi : Q) (l : list Q) :
  l <> [] ->
  (forall x, In x l -> (lo <= x)%Q /\ (x <= hi)%Q) ->
  (lo <= mean l)%Q /\ (mean l <= hi)%Q.
Proof.
  intros Hne H. destruct (sum_bounds lo hi l H) as [Hlo Hhi].
  assert (Hn : (0 < inject_Z (Z.of_nat (List.length l)))%Q).
  { destruct l; [congruence|]. change 0%Q with (inject_Z 0).
    rewrite <- Zlt_Qlt. simpl. lia. }
  assert (Ht : (total l == fold_right Qplus 0 l)%Q).
  { unfold total. rewrite fold_left_Qplus. ring. }
  unfold mean. split.
  - apply Qle_shift_div_l; [exact Hn|]. rewrite Ht, Qmult_comm. exact Hlo.
  - apply Qle_shift_div_r; [exact Hn|]. rewrite Ht, Qmult_comm. exact Hhi.
Qed.

Lemma round1_bounds (lo hi : Z) (x : Q) :
  (inject_Z lo <= x)%Q -> (x <= inject_Z hi)%Q ->
  (inject_Z lo <= round1 x)%Q /\ (round1 x <= inject_Z hi)%Q.
Proof.
  intros Hlo Hhi.
  assert (H : (lo * 10 <= round (x * 10) <= hi * 10)%Z).
  { apply round_between; rewrite inject_Z_mult.
    - apply Qmult_le_compat_r; [exact Hlo | discriminate].
    - apply Qmult_le_compat_r; [exact Hhi | discriminate]. }
  unfold round1, Qle. simpl. lia.
Qed.

(** X8. The aggregation never leaves the scale of the options: when every
    recorded option score lies between two integers, so does every
    competency score computed by [submit_responses_and_predict], rounding
    included. *)
Theorem aggregated_scores_stay_on_scale (rows : list row) (lo hi : Z)
    (user_scores : sdict Q) :
  (forall r, In r rows -> (inject_Z lo <= score r)%Q /\ (score r <= inject_Z hi)%Q) ->
  submit_user_scores rows = Ok user_scores ->
  forall k v,
    sget user_scores k = Some v ->
    (inject_Z lo <= v)%Q /\ (v <= inject_Z hi)%Q.
Proof.
  intros Hrows Hs k v Hv.
  destruct (aggregate_means round1 normalized rows) as (m & Hm & Hget).
  unfold submit_user_scores in Hs. fold normalized in Hs.
  assert (m = user_scores) by congruence. subst m.
  rewrite Hget in Hv.
  destruct (scores_of normalized k rows) as [|a l] eqn:E; [discriminate|].
  injection Hv as <-.
  destruct (mean_bounds (inject_Z lo) (inject_Z hi) (a :: l)) as [Hlo Hhi];
    [discriminate| |now apply round1_bounds].
  intros x Hx. rewrite <- E in Hx. unfold scores_of in Hx.
  apply in_map_iff in Hx as (r & <- & Hr). apply filter_In in Hr as [Hr _].
  now apply Hrows.
Qed.

Lemma aggregated_scores_stay_on_scale_witness :
  (inject_Z 1 <= Qmake 27 10)%Q /\ (Qmake 27 10 <= inject_Z 5)%Q.
Proof.
  apply (aggregated_scores_stay_on_scale empathy_rows 1 5
           [("Empathy", Qmake 27 10); ("Logic", Qmake 50 10)]) with (k := "Empathy").
  - intros r [<-|[<-|[<-|[<-|[]]]]]; split; discriminate.
  - reflexivity.
  - reflexivity.
Defined.

End AggregationFacts.

(* ================================================================== *)
(** * More facts about the prediction service *)
(* ================================================================== *)

Module PredictionMore.
Import Py Prediction Spec PyFacts Binary64Facts PredictionFacts.
#[local] Open Scope list_scope.

(** ** The winner's compatibility *)

(** X10. The winning occupation is in the compatibility list with the
    largest compatibility of all, which is also the compatibility of the
    first entry of the list (the first entry itself may be another
    occupation that rounds to the same percentage). *)
Theorem winner_has_largest_compatibility (interp : Interpreter.t)
    (self : PredictionService)
    (user_scores : value) (vec : list value) (missing : list string)
    (probabilities : list Binary64.t)
    (u : list uyum_skoru) (w : string) (rows : list karsilastirma) :
  _validate_input interp self user_scores = Ok (vec, missing) ->
  bind (transform (scaler self) vec) (predict_proba (model self)) = Ok probabilities ->
  predict_and_analyze interp self user_scores = Ok (Prediction u w rows) ->
  exists c,
    In {| meslek := w; uyum := c |} u /\
    (forall e, In e u -> (uyum e <= c)%Z) /\
    exists first rest, u = first :: rest /\ uyum first = c.
Proof.
  intros Hv Hm Hp.
  destruct (predict_prediction_inv _ _ _ _ _ _ _ _ _ Hv Hm Hp)
    as (pairs & Hu & Hb & ->).
  destruct (build_comparison_winner interp self (items user_scores) probabilities)
    as [(w' & row & (i & Ha & Hc & Hr) & Hb')|[_ [e Hb']]];
    rewrite Hb' in Hb; [|discriminate].
  injection Hb as <- _.
  assert (Hne : probabilities <> []) by (intros ->; discriminate Ha).
  destruct (argmax_first_maximum probabilities Hne) as (i' & best & Ha' & Hi & Hmax).
  assert (i' = i) by congruence. subst i'.
  destruct (build_uyum_skorlari_nth _ _ _ Hu i w' best Hc Hi) as (c & Hround & Hpair).
  destruct (percentage_inv _ _ Hround) as (xbest & -> & _).
  specialize (Hmax eq_refl).
  pose proof (sorted_reverse_perm uyum pairs) as Hperm.
  exists c.
  assert (Hin : In {| meslek := w'; uyum := c |} (sorted_reverse uyum pairs)).
  { apply (Permutation_in _ (Permutation_sym Hperm)).
    eapply nth_error_In. exact Hpair. }
  assert (Hall : forall e, In e (sorted_reverse uyum pairs) -> (uyum e <= c)%Z).
  { intros e He. apply (Permutation_in _ Hperm) in He.
    destruct (build_uyum_skorlari_In _ _ _ Hu e He) as (j & p & Hj & Hpe).
    destruct (percentage_inv _ _ Hpe) as (xp & -> & _).
    destruct (Hmax j _ Hj) as [Hle _]. apply leb_Finite in Hle.
    exact (percentage_monotone _ _ _ _ Hle Hpe Hround). }
  split; [exact Hin|]. split; [exact Hall|].
  pose proof (sorted_reverse_descending uyum pairs) as Hs.
  destruct (sorted_reverse uyum pairs) as [|first rest]; [destruct Hin|].
  exists first, rest. split; [reflexivity|].
  apply Z.le_antisymm; [apply Hall; now left|].
  destruct Hin as [->|Hin]; [simpl; lia|].
  inversion Hs as [|? ? _ Hfirst]; subst.
  rewrite Forall_forall in Hfirst. apply (Hfirst _ Hin).
Qed.

Lemma winner_has_largest_compatibility_witness :
  exists c,
    In {| meslek := "Engineer"; uyum := c |}
       [ {| meslek := "Engineer"; uyum := 40 |};
         {| meslek := "Artist"; uyum := 40 |};
         {| meslek := "Doctor"; uyum := 20 |} ] /\
    (forall e, In e [ {| meslek := "Engineer"; uyum := 40 |};
                      {| meslek := "Artist"; uyum := 40 |};
                      {| meslek := "Doctor"; uyum := 20 |} ] ->
               (uyum e <= c)%Z) /\
    exists first rest,
      [ {| meslek := "Engineer"; uyum := 40 |};
        {| meslek := "Artist"; uyum := 40 |};
        {| meslek := "Doctor"; uyum := 20 |} ] = first :: rest /\
      uyum first = c.
Proof.
  eapply (winner_has_largest_compatibility Interpreter.ascii Samples.tied_service
            (VDict Samples.empathy_scores)).
  - reflexivity.
  - reflexivity.
  - vm_compute. reflexivity.
Defined.

(** ** The prediction depends on the looked-up scores only *)

Lemma validate_loop_same_scores (interp : Interpreter.t) (features : list string)
    (d d' : sdict value) :
  (forall f, In f features -> find_score interp d f = find_score interp d' f) ->
  forall acc miss,
    validate_loop interp features d acc miss
    = validate_loop interp features d' acc miss.
Proof.
  induction features as [|f fs IH]; intros H acc miss; simpl; [reflexivity|].
  rewrite <- (H f (or_introl eq_refl)).
  destruct (is_none (find_score interp d f)).
  - apply IH. intros g Hg. apply H. now right.
  - destruct (is_numeric (find_score interp d f)); [|reflexivity].
    apply IH. intros g Hg. apply H. now right.
Qed.

Lemma predict_same_scores (interp : Interpreter.t) (self : PredictionService)
    (d d' : sdict value) :
  (forall f, In f (feature_names self) ->
             find_score interp d f = find_score interp d' f) ->
  predict_and_analyze interp self (VDict d)
  = predict_and_analyze interp self (VDict d').
Proof.
  intros H. unfold predict_and_analyze, _validate_input.
  rewrite (validate_loop_same_scores _ _ d d' H).
  destruct (validate_loop interp (feature_names self) d' [] [])
    as [[vec missing]|e]; [|reflexivity].
  destruct (bind (transform (scaler self) vec) (predict_proba (model self)))
    as [probabilities|e]; [|reflexivity].
  destruct (build_uyum_skorlari (classes_ (le self)) probabilities) as [pairs|e];
    [|reflexivity].
  cbn [bind items]. unfold build_comparison.
  destruct (argmax probabilities) as [i|e]; [|reflexivity]. cbn [bind].
  destruct (index (classes_ (le self)) i) as [w|e]; [|reflexivity]. cbn [bind].
  destruct (getitem (grup_ortalamalari self) w) as [row|e]; [|reflexivity].
  cbn [bind].
  assert (E : map (comparison_row interp d row) (feature_names self)
              = map (comparison_row interp d' row) (feature_names self)).
  { apply map_ext_in. intros f Hf. unfold comparison_row. now rewrite (H f Hf). }
  now rewrite E.
Qed.

Lemma find_score_unrelated_key (interp : Interpreter.t) (d1 d2 : sdict value)
    (k : string) (v : value) (f : string) :
  clean interp k <> clean interp f ->
  find_score interp (d1 ++ (k, v) :: d2) f = find_score interp (d1 ++ d2) f.
Proof.
  intros Hne.
  assert (Hk : String.eqb k f = false).
  { destruct (String.eqb_spec k f) as [->|]; [congruence | reflexivity]. }
  assert (Hc : String.eqb (clean interp k) (clean interp f) = false).
  { destruct (String.eqb_spec (clean interp k) (clean interp f));
      [contradiction | reflexivity]. }
  unfold find_score, get, sget.
  assert (E1 : lookup String.eqb (d1 ++ (k, v) :: d2) f
               = lookup String.eqb (d1 ++ d2) f).
  { induction d1 as [|[k1 v1] d1 IH]; simpl; [now rewrite Hk|].
    destruct (String.eqb k1 f); [reflexivity | exact IH]. }
  assert (E2 : fuzzy_match interp (d1 ++ (k, v) :: d2) (clean interp f)
               = fuzzy_match interp (d1 ++ d2) (clean interp f)).
  { clear E1. induction d1 as [|[k1 v1] d1 IH]; simpl; [now rewrite Hc|].
    destruct (String.eqb (clean interp k1) (clean interp f));
      [reflexivity | exact IH]. }
  now rewrite E1, E2.
Qed.

(** X9. Extra entries are ignored: an entry of the score mapping whose key
    matches no canonical feature, not even up to case and surrounding
    whitespace, has no influence on the result, whatever its value and
    wherever it stands. *)
Theorem irrelevant_keys_are_ignored (interp : Interpreter.t)
    (self : PredictionService) (d1 d2 : sdict value) (k : string) (v : value) :
  (forall f, In f (feature_names self) -> clean interp k <> clean interp f) ->
  predict_and_analyze interp self (VDict (d1 ++ (k, v) :: d2))
  = predict_and_analyze interp self (VDict (d1 ++ d2)).
Proof.
  intros H. apply predict_same_scores.
  intros f Hf. apply find_score_unrelated_key. now apply H.
Qed.

Lemma irrelevant_keys_are_ignored_witness :
  predict_and_analyze Interpreter.ascii Samples.stub_service
    (VDict ([(" empathy", VFloat (Binary64.Finite 3))]
            ++ ("Charisma", VStr "high") :: []))
  = predict_and_analyze Interpreter.ascii Samples.stub_service
      (VDict ([(" empathy", VFloat (Binary64.Finite 3))] ++ [])).
Proof.
  apply (irrelevant_keys_are_ignored Interpreter.ascii Samples.stub_service).
  intros f [<-|[<-|[]]]; vm_compute; discriminate.
Defined.

(** ** The order of the entries *)

Lemma lookups_same_up_to_order (interp : Interpreter.t) (d d' : sdict value)
    (f : string) :
  NoDup (map (clean interp) (keys d)) ->
  Permutation d d' ->
  sget d f = sget d' f /\
  fuzzy_match interp d (clean interp f) = fuzzy_match interp d' (clean interp f).
Proof.
  intros Hnd Hperm. unfold sget.
  induction Hperm as [|[k v] l l' Hp IH|[k1 v1] [k2 v2] l|l l' l'' H1 IH1 H2 IH2].
  - auto.
  - inversion Hnd as [|? ? _ Hnd']; subst. destruct (IH Hnd') as [E1 E2].
    simpl. now rewrite E1, E2.
  - simpl in *.
    inversion Hnd as [|? ? Hnin _]; subst.
    assert (Hc : clean interp k2 <> clean interp k1)
      by (intros E; apply Hnin; now left).
    split.
    + destruct (String.eqb_spec k1 f) as [->|], (String.eqb_spec k2 f) as [->|];
        try reflexivity. congruence.
    + destruct (String.eqb_spec (clean interp k1) (clean interp f)),
               (String.eqb_spec (clean interp k2) (clean interp f));
        try reflexivity.
      congruence.
  - destruct (IH1 Hnd) as [E1 E2].
    assert (Hnd' : NoDup (map (clean interp) (keys l'))).
    { eapply Permutation_NoDup; [|exact Hnd].
      unfold keys. now do 2 apply Permutation_map. }
    destruct (IH2 Hnd') as [E1' E2']. split; congruence.
Qed.

(** X11. When no two keys of the score mapping coincide up to case and
    surrounding whitespace, the result does not depend on the order in which
    the entries were inserted. *)
Theorem entry_order_is_irrelevant_without_collisions (interp : Interpreter.t)
    (self : PredictionService) (d d' : sdict value) :
  NoDup (map (clean interp) (keys d)) ->
  Permutation d d' ->
  predict_and_analyze interp self (VDict d)
  = predict_and_analyze interp self (VDict d').
Proof.
  intros Hnd Hperm. apply predict_same_scores. intros f _.
  destruct (lookups_same_up_to_order interp d d' f Hnd Hperm) as [E1 E2].
  unfold find_score, get. now rewrite E1, E2.
Qed.

Lemma entry_order_is_irrelevant_without_collisions_witness :
  predict_and_analyze Interpreter.ascii Samples.stub_service
    (VDict [("Logic", VInt 4); (" empathy", VFloat (Binary64.Finite 3))])
  = predict_and_analyze Interpreter.ascii Samples.stub_service
      (VDict [(" empathy", VFloat (Binary64.Finite 3)); ("Logic", VInt 4)]).
Proof.
  apply (entry_order_is_irrelevant_without_collisions Interpreter.ascii
           Samples.stub_service).
  - vm_compute. repeat (constructor; [simpl; intuition discriminate|]). constructor.
  - apply perm_swap.
Defined.

(** With a collision the order does matter. *)
Lemma entry_order_matters_with_collisions :
  predict_and_analyze Interpreter.ascii Samples.stub_service
    (VDict [("empathy", VFloat (Binary64.Finite 1));
            ("EMPATHY", VFloat (Binary64.Finite 5))])
  <> predict_and_analyze Interpreter.ascii Samples.stub_service
       (VDict [("EMPATHY", VFloat (Binary64.Finite 5));
               ("empathy", VFloat (Binary64.Finite 1))]).
Proof. vm_compute. discriminate. Qed.

End PredictionMore.

(* ================================================================== *)
(** * More facts about stored responses *)
(* ================================================================== *)

Module CrudMore.
Import Py Crud CrudSpec CrudMoreSpec PyFacts CrudFacts.
#[local] Open Scope list_scope.

(** [save_user_responses] in one equation. *)
Lemma save_user_responses_unfolded (db : Session) (responses : list ResponseIn.t)
    (user_id : Z) :
  save_user_responses db responses user_id
  = match build_db_responses db user_id (values (unique_responses responses)) with
    | Raise e => (rollback db, Raise e)
    | Ok rows =>
        let stored := kept_rows db responses user_id ++ rows in
        if unique_constraint_ok stored
        then ({| scenariooption := scenariooption db;
                 committed := stored; pending := stored |},
              Ok (List.length rows))
        else (rollback db, Raise (IntegrityError "_user_scenariooption_uc"))
    end.
Proof.
  unfold save_user_responses, kept_rows.
  set (u := unique_responses responses).
  destruct (delete_phase user_id (keys u) db) as (Ho & Hc & Hp).
  cbv zeta in Ho, Hc, Hp.
  set (db1 := fold_left (delete_for_scenario user_id) (keys u) db) in *.
  assert (Hb : build_db_responses db1 user_id (values u)
               = build_db_responses db user_id (values u)).
  { clear - Ho. induction (values u) as [|r l IH]; simpl; [reflexivity|].
    now rewrite (convert_same_options db db1 _ _ Ho), IH. }
  rewrite Hb.
  assert (Hroll : forall d, scenariooption d = scenariooption db ->
                            committed d = committed db -> rollback d = rollback db).
  { intros d E1 E2. unfold rollback. now rewrite E1, E2. }
  destruct (build_db_responses db user_id (values u)) as [rows|e];
    [|now rewrite (Hroll db1 Ho Hc)].
  set (db2 := match rows with [] => db1 | _ :: _ => add_all db1 rows end).
  assert (H2 : scenariooption db2 = scenariooption db /\
               committed db2 = committed db /\
               pending db2 = pending db1 ++ rows).
  { subst db2. destruct rows; simpl; [rewrite app_nil_r|]; auto. }
  destruct H2 as (Ho2 & Hc2 & Hp2).
  cbv zeta. unfold commit. rewrite Hp2, Hp, Ho2.
  destruct (unique_constraint_ok _); [reflexivity|].
  now rewrite (Hroll db2 Ho2 Hc2).
Qed.

(** ** The unique constraint *)

Lemma unique_constraint_ok_NoDup (rows : list UserResponse.t) :
  unique_constraint_ok rows = true <-> NoDup (map constraint_key rows).
Proof.
  induction rows as [|r rows IH]; simpl.
  - split; [constructor | reflexivity].
  - rewrite andb_true_iff, negb_true_iff, IH. split.
    + intros [Hex Hnd]. constructor; [|exact Hnd].
      intros Hin. apply in_map_iff in Hin as (r' & Hk & Hr').
      assert (Ht : existsb (fun r' => (UserResponse.userid r' =? UserResponse.userid r)%Z
                                      && (UserResponse.scenariooptionid r'
                                          =? UserResponse.scenariooptionid r)%Z) rows
                   = true).
      { apply existsb_exists. exists r'. split; [exact Hr'|].
        unfold constraint_key in Hk. injection Hk as -> ->.
        now rewrite !Z.eqb_refl. }
      congruence.
    + intros H. inversion H as [|? ? Hnin Hnd]; subst. split; [|exact Hnd].
      destruct (existsb _ rows) eqn:E; [|reflexivity].
      exfalso. apply Hnin.
      apply existsb_exists in E as (r' & Hr' & Hb).
      apply andb_true_iff in Hb as [E1 E2]. apply Z.eqb_eq in E1, E2.
      apply in_map_iff. exists r'. split; [|exact Hr'].
      unfold constraint_key. congruence.
Qed.

Lemma kept_rows_constraint (db : Session) (responses : list ResponseIn.t)
    (user_id : Z) :
  unique_constraint_ok (pending db) = true ->
  NoDup (map constraint_key (kept_rows db responses user_id)).
Proof.
  rewrite unique_constraint_ok_NoDup. unfold kept_rows.
  generalize (fun r => negb (answers_one_of db user_id
                               (keys (unique_responses responses)) r)).
  intros keep. induction (pending db) as [|r rows IH]; simpl; intros H;
    [constructor|].
  inversion H as [|? ? Hnin Hnd]; subst.
  destruct (keep r); simpl; [|auto].
  constructor; [|auto].
  intros Hin. apply Hnin. apply in_map_iff in Hin as (x & Hx & Hin).
  apply in_map_iff. exists x. split; [exact Hx|].
  apply filter_In in Hin. tauto.
Qed.

(** ** The rows built from the batch *)

Lemma lookup_entry (u : dict Z ResponseIn.t) (k : Z) (r : ResponseIn.t) :
  NoDup (keys u) -> In (k, r) u -> lookup Z.eqb u k = Some r.
Proof.
  unfold keys. induction u as [|[k0 r0] u IH]; simpl; intros Hnd Hin;
    [contradiction|].
  inversion Hnd as [|? ? Hnin Hnd']; subst.
  destruct Hin as [[= -> ->]|Hin]; [now rewrite Z.eqb_refl|].
  destruct (Z.eqb_spec k0 k) as [->|NE]; [|auto].
  exfalso. apply Hnin. apply in_map_iff. exists (k, r). auto.
Qed.

Lemma entry_of_lookup (u : dict Z ResponseIn.t) (k : Z) (r : ResponseIn.t) :
  lookup Z.eqb u k = Some r -> In (k, r) u.
Proof.
  induction u as [|[k0 r0] u IH]; simpl; [discriminate|].
  destruct (Z.eqb_spec k0 k) as [->|NE].
  - intros [= ->]. now left.
  - intros H. right. auto.
Qed.

Lemma batch_scenarios (responses : list ResponseIn.t) (s : Z) :
  In s (keys (unique_responses responses))
  <-> In s (map ResponseIn.scenario_id responses).
Proof.
  induction responses as [|r responses IH] using rev_ind; [reflexivity|].
  rewrite unique_responses_snoc, map_app, in_app_iff. simpl.
  destruct (keys_set (unique_responses responses) (ResponseIn.scenario_id r) r)
    as [[-> Hin]|[-> Hnin]].
  - rewrite IH. split; [tauto|]. intros [H|[<-|[]]]; [exact H|]. now apply IH.
  - rewrite in_app_iff, IH. simpl. tauto.
Qed.

(** The batch, one entry per scenario, against the rows built from it. *)
Lemma build_entries (db : Session) (user_id : Z) (u : dict Z ResponseIn.t)
    (rows : list UserResponse.t) :
  (forall k r, In (k, r) u -> ResponseIn.scenario_id r = k) ->
  build_db_responses db user_id (values u) = Ok rows ->
  Forall2 (fun entry row =>
             exists oid,
               convert_option_letter_to_scenariooptionid db (fst entry)
                 (ResponseIn.option_letter (snd entry)) = Ok oid /\
               row = make_response user_id oid)
          u rows.
Proof.
  intros Hkeys H. apply build_phase in H. unfold values in H.
  revert rows H. induction u as [|[k r] u IH]; intros rows H; inversion H; subst.
  - constructor.
  - constructor.
    + destruct H2 as (oid & Hc & ->). exists oid. split; [|reflexivity].
      simpl in *. now rewrite <- (Hkeys k r (or_introl eq_refl)).
    + apply IH; [|assumption]. intros k' r' Hin. apply Hkeys. now right.
Qed.

Lemma build_total (db : Session) (user_id : Z) (responses : list ResponseIn.t) :
  (forall r, In r responses ->
             exists oid,
               convert_option_letter_to_scenariooptionid db
                 (ResponseIn.scenario_id r) (ResponseIn.option_letter r) = Ok oid) ->
  exists rows, build_db_responses db user_id responses = Ok rows.
Proof.
  induction responses as [|r rest IH]; intros H; simpl; [eauto|].
  destruct (H r (or_introl eq_refl)) as [oid ->]. cbn [bind].
  destruct IH as [rows ->]; [intros r' Hr'; apply H; now right|].
  cbn [bind]. eauto.
Qed.

Lemma built_rows_answer_batch (db : Session) (user_id : Z)
    (u : dict Z ResponseIn.t) (rows : list UserResponse.t) :
  Forall2 (fun entry row =>
             exists oid,
               convert_option_letter_to_scenariooptionid db (fst entry)
                 (ResponseIn.option_letter (snd entry)) = Ok oid /\
               row = make_response user_id oid)
          u rows ->
  forall r, In r rows -> answers_one_of db user_id (keys u) r = true.
Proof.
  induction 1 as [|[k resp] row u rows (oid & Hc & ->) HF IH]; intros r Hr;
    [destruct Hr|].
  unfold answers_one_of in *. cbn [keys map fst existsb].
  destruct Hr as [<-|Hr].
  - simpl. rewrite Z.eqb_refl. simpl in Hc.
    now rewrite (convert_in_scenario _ _ _ _ Hc).
  - specialize (IH r Hr). apply andb_true_iff in IH as [-> IH].
    unfold keys in IH. rewrite IH. now rewrite orb_true_r.
Qed.

Lemma built_rows_constraint (db : Session) (user_id : Z)
    (u : dict Z ResponseIn.t) (rows : list UserResponse.t) :
  option_ids_unique db ->
  NoDup (keys u) ->
  Forall2 (fun entry row =>
             exists oid,
               convert_option_letter_to_scenariooptionid db (fst entry)
                 (ResponseIn.option_letter (snd entry)) = Ok oid /\
               row = make_response user_id oid)
          u rows ->
  NoDup (map constraint_key rows).
Proof.
  intros Hu Hnd HF.
  induction HF as [|[k resp] row u rows (oid & Hc & ->) HF IH]; simpl;
    [constructor|].
  inversion Hnd as [|? ? Hnin Hnd']; subst.
  constructor; [|auto].
  intros Hin. apply in_map_iff in Hin as (r & Hk & Hr).
  pose proof (built_rows_answer_batch db user_id u rows HF r Hr) as Ha.
  unfold answers_one_of in Ha. apply andb_true_iff in Ha as [_ Ha].
  apply existsb_exists in Ha as (s & Hs & Hin_s).
  unfold constraint_key in Hk. simpl in Hk. injection Hk as _ Hoid.
  rewrite Hoid in Hin_s. simpl in Hc.
  rewrite (option_in_scenario_unique db k s oid Hu (convert_in_scenario _ _ _ _ Hc))
    in Hin_s.
  apply Z.eqb_eq in Hin_s. subst s. contradiction.
Qed.

Lemma stored_rows_constraint (db : Session) (responses : list ResponseIn.t)
    (user_id : Z) (rows : list UserResponse.t) :
  option_ids_unique db ->
  unique_constraint_ok (pending db) = true ->
  build_db_responses db user_id (values (unique_responses responses)) = Ok rows ->
  unique_constraint_ok (kept_rows db responses user_id ++ rows) = true.
Proof.
  intros Hu Hok Hb.
  destruct (unique_responses_keys responses) as [Hnd Hkeys].
  pose proof (build_entries db user_id _ rows Hkeys Hb) as HF.
  apply unique_constraint_ok_NoDup. rewrite map_app.
  apply NoDup_app.
  - now apply kept_rows_constraint.
  - now apply (built_rows_constraint db user_id (unique_responses responses)).
  - intros key Hk Hr.
    apply in_map_iff in Hk as (r & <- & Hin).
    apply in_map_iff in Hr as (r' & Hkey & Hin').
    unfold kept_rows in Hin. apply filter_In in Hin as [_ Hkeep].
    apply negb_true_iff in Hkeep.
    pose proof (built_rows_answer_batch db user_id _ rows HF r' Hin') as Ha.
    unfold answers_one_of, constraint_key in *.
    injection Hkey as E1 E2. rewrite E1, E2 in Ha. congruence.
Qed.

(** ** When saving succeeds *)

(** X12. On a table that satisfies the unique constraint,
    [save_user_responses] succeeds exactly when, for every scenario of the
    batch, the last letter submitted for it names an option; earlier,
    overwritten letters are never looked at, and the unique constraint never
    fires.  The number returned is the number of different scenarios in
    the batch. *)
Theorem save_succeeds_iff_last_letters_convert (db : Session)
    (responses : list ResponseIn.t) (user_id : Z) :
  pending db = committed db ->
  option_ids_unique db ->
  unique_constraint_ok (committed db) = true ->
  ((exists db' n, save_user_responses db responses user_id = (db', Ok n))
   <-> (forall s response,
           last_response responses s = Some response ->
           exists oid,
             convert_option_letter_to_scenariooptionid db s
               (ResponseIn.option_letter response) = Ok oid)) /\
  (forall db' n,
      save_user_responses db responses user_id = (db', Ok n) ->
      exists scenarios,
        NoDup scenarios /\
        (forall s, In s scenarios <-> In s (map ResponseIn.scenario_id responses)) /\
        n = List.length scenarios).
Proof.
  intros Hfresh Hu Hok. rewrite <- Hfresh in Hok.
  rewrite save_user_responses_unfolded.
  destruct (unique_responses_keys responses) as [Hnd Hkeys].
  set (u := unique_responses responses) in *.
  destruct (build_db_responses db user_id (values u)) as [rows|e] eqn:Hb.
  - cbv zeta.
    rewrite (stored_rows_constraint db responses user_id rows Hu Hok Hb).
    pose proof (build_entries db user_id u rows Hkeys Hb) as HF.
    split.
    + split; [|eauto].
      intros _ s response Hl.
      rewrite <- unique_responses_lookup in Hl. fold u in Hl.
      apply entry_of_lookup in Hl.
      clear - HF Hl. induction HF as [|entry row u rows Hrow HF IH];
        [destruct Hl|].
      destruct Hl as [->|Hl]; [|auto].
      destruct Hrow as (oid & Hc & _). eauto.
    + intros db' n [= _ <-]. exists (keys u).
      split; [exact Hnd|]. split; [apply batch_scenarios|].
      rewrite <- (Forall2_length HF). unfold keys. now rewrite length_map.
  - split; [|intros db' n [= ]].
    split; [intros (db' & n & [= ])|].
    intros Hall. exfalso.
    destruct (build_total db user_id (values u)) as [rows Hrows]; [|congruence].
    intros r Hr. unfold values in Hr. apply in_map_iff in Hr as ([k r'] & <- & Hin).
    simpl. rewrite (Hkeys k r' Hin).
    apply (Hall k r'). rewrite <- unique_responses_lookup. fold u.
    now apply lookup_entry.
Qed.

Lemma save_succeeds_iff_last_letters_convert_witness :
  ((exists db' n,
       save_user_responses small_db [answer 1 "Z"; answer 1 "b"] 7 = (db', Ok n))
   <-> (forall s response,
           last_response [answer 1 "Z"; answer 1 "b"] s = Some response ->
           exists oid,
             convert_option_letter_to_scenariooptionid small_db s
               (ResponseIn.option_letter response) = Ok oid)) /\
  (forall db' n,
      save_user_responses small_db [answer 1 "Z"; answer 1 "b"] 7 = (db', Ok n) ->
      exists scenarios,
        NoDup scenarios /\
        (forall s, In s scenarios
                   <-> In s (map ResponseIn.scenario_id [answer 1 "Z"; answer 1 "b"])) /\
        n = List.length scenarios).
Proof.
  apply (save_succeeds_iff_last_letters_convert small_db
           [answer 1 "Z"; answer 1 "b"] 7).
  - reflexivity.
  - unfold option_ids_unique. simpl.
    repeat (constructor; [simpl; intuition discriminate|]). constructor.
  - reflexivity.
Defined.

(** ** Submitting the same batch again *)

Lemma filter_nothing {A} (f : A -> bool) (l : list A) :
  (forall x, In x l -> f x = false) -> filter f l = [].
Proof.
  induction l as [|x l IH]; simpl; intros H; [reflexivity|].
  rewrite (H x (or_introl eq_refl)). apply IH. intros y Hy. apply H. now right.
Qed.

(** X13. Submitting a batch that was just saved records the same answers
    again: the second call succeeds with the same count, and after it the
    table holds, committed, the same (user, option) pairs as after the first
    call.  The rows of the batch themselves are deleted and inserted anew. *)
Theorem resubmission_records_the_same_answers (db db1 : Session)
    (responses : list ResponseIn.t) (user_id : Z) (n : nat) :
  save_user_responses db responses user_id = (db1, Ok n) ->
  exists db2,
    save_user_responses db1 responses user_id = (db2, Ok n) /\
    Permutation (map constraint_key (committed db2))
                (map constraint_key (committed db1)) /\
    Permutation (map constraint_key (pending db2))
                (map constraint_key (pending db1)).
Proof.
  intros Hsave. exists db1. split; [|split; reflexivity]. revert Hsave.
  rewrite !save_user_responses_unfolded.
  destruct (unique_responses_keys responses) as [Hnd Hkeys].
  set (u := unique_responses responses) in *.
  destruct (build_db_responses db user_id (values u)) as [rows|e] eqn:Hb;
    [|discriminate].
  cbv zeta.
  destruct (unique_constraint_ok (kept_rows db responses user_id ++ rows)) eqn:Hok;
    [|discriminate].
  intros [= <- <-]. cbn [scenariooption].
  assert (Hb1 : build_db_responses
                  {| scenariooption := scenariooption db;
                     committed := kept_rows db responses user_id ++ rows;
                     pending := kept_rows db responses user_id ++ rows |}
                  user_id (values u) = Ok rows).
  { rewrite <- Hb. clear. induction (values u) as [|r l IH]; simpl; [reflexivity|].
    rewrite IH. f_equal. }
  rewrite Hb1.
  assert (Hkept : kept_rows
                    {| scenariooption := scenariooption db;
                       committed := kept_rows db responses user_id ++ rows;
                       pending := kept_rows db responses user_id ++ rows |}
                    responses user_id
                  = kept_rows db responses user_id).
  { unfold kept_rows at 1. cbn [pending]. fold u. rewrite filter_app.
    pose proof (build_entries db user_id u rows Hkeys Hb) as HF.
    rewrite (filter_nothing _ rows), app_nil_r.
    - unfold kept_rows. fold u. rewrite filter_kept. apply filter_ext.
      intros r. unfold answers_one_of, option_in_scenario. cbn [scenariooption].
      now rewrite andb_diag.
    - intros r Hr. apply negb_false_iff.
      pose proof (built_rows_answer_batch db user_id u rows HF r Hr) as Ha.
      unfold answers_one_of, option_in_scenario in *. exact Ha. }
  rewrite Hkept, Hok. reflexivity.
Qed.

Lemma resubmission_records_the_same_answers_witness :
  exists db1,
    save_user_responses small_db [answer 1 "A"; answer 2 "b"] 7 = (db1, Ok 2%nat) /\
    exists db2,
      save_user_responses db1 [answer 1 "A"; answer 2 "b"] 7 = (db2, Ok 2%nat) /\
      Permutation (map constraint_key (committed db2))
                  (map constraint_key (committed db1)) /\
      Permutation (map constraint_key (pending db2))
                  (map constraint_key (pending db1)).
Proof.
  eexists. split; [reflexivity|].
  apply (resubmission_records_the_same_answers small_db). reflexivity.
Defined.

(** ** Letters and options *)

Lemma nat_of_ascii_injective (c c' : ascii) :
  nat_of_ascii c = nat_of_ascii c' -> c = c'.
Proof.
  intros H. rewrite <- (ascii_nat_embedding c), <- (ascii_nat_embedding c').
  now rewrite H.
Qed.

(** X14. Within one scenario, two submitted letters are converted to the
    same option exactly when they are the same letter up to case: the
    conversion is case-insensitive and never maps two different letters to
    one option. *)
Theorem letters_convert_alike_iff_same_up_to_case (db : Session) (s : Z)
    (letter1 letter2 : string) (oid1 oid2 : Z) :
  option_ids_unique db ->
  convert_option_letter_to_scenariooptionid db s letter1 = Ok oid1 ->
  convert_option_letter_to_scenariooptionid db s letter2 = Ok oid2 ->
  (oid1 = oid2 <-> upper letter1 = upper letter2).
Proof.
  intros Hu H1 H2.
  apply convert_inv in H1 as (c1 & o1 & -> & Hn1 & Hnth1 & <-).
  apply convert_inv in H2 as (c2 & o2 & -> & Hn2 & Hnth2 & <-).
  rewrite !upper_one. split.
  - intros Hid.
    pose proof (options_of_scenario_NoDup db s Hu) as Hnd.
    rewrite NoDup_nth_error in Hnd.
    assert (E : (nat_of_ascii (upper_char c1) - 65
                 = nat_of_ascii (upper_char c2) - 65)%nat).
    { apply Hnd.
      - rewrite length_map. apply nth_error_Some. congruence.
      - rewrite !nth_error_map, Hnth1, Hnth2. simpl. now rewrite Hid. }
    f_equal. apply nat_of_ascii_injective. lia.
  - intros [= E]. rewrite E in Hnth1. congruence.
Qed.

Lemma letters_convert_alike_iff_same_up_to_case_witness :
  (2%Z = 2%Z <-> upper "b" = upper "B") /\ (2%Z = 3%Z <-> upper "b" = upper "C").
Proof.
  split.
  - apply (letters_convert_alike_iff_same_up_to_case small_db 1 "b" "B").
    + unfold option_ids_unique. simpl.
      repeat (constructor; [simpl; intuition discriminate|]). constructor.
    + reflexivity.
    + reflexivity.
  - apply (letters_convert_alike_iff_same_up_to_case small_db 1 "b" "C").
    + unfold option_ids_unique. simpl.
      repeat (constructor; [simpl; intuition discriminate|]). constructor.
    + reflexivity.
    + reflexivity.
Defined.

End CrudMore.

(* ================================================================== *)
(** * Facts about the transformation service *)
(* ================================================================== *)

Module TransformationFacts.
Import Py Crud CrudSpec Endpoints Transformation TransformationSpec PyFacts CrudFacts.
#[local] Open Scope list_scope.

(** ** The score map *)

Lemma key_eqb_eq (a b : Z * string) : key_eqb a b = true <-> a = b.
Proof.
  destruct a as [s l], b as [s' l']. unfold key_eqb. simpl.
  rewrite andb_true_iff, Z.eqb_eq, String.eqb_eq. split.
  - intros [-> ->]. reflexivity.
  - intros [= -> ->]. auto.
Qed.

Lemma score_map_lookup_set (m : score_map_t) (k k' : Z * string) (v : string * Q) :
  lookup key_eqb (set key_eqb m k v) k'
  = if key_eqb k k' then Some v else lookup key_eqb m k'.
Proof.
  induction m as [|[k0 v0] m IH]; simpl; [reflexivity|].
  destruct (key_eqb k0 k) eqn:E0; simpl.
  - apply key_eqb_eq in E0. subst k0.
    destruct (key_eqb k k'); reflexivity.
  - destruct (key_eqb k0 k') eqn:E1; [|exact IH].
    apply key_eqb_eq in E1. subst k0.
    destruct (key_eqb k k') eqn:E2; [|reflexivity].
    apply key_eqb_eq in E2. subst k'.
    assert (key_eqb k k = true) by now apply key_eqb_eq.
    congruence.
Qed.

Lemma list_index_found (l : list ScenarioOption.t) (opt : ScenarioOption.t) :
  forall i j,
    list_index l opt i = Ok j ->
    exists K o,
      j = (i + K)%nat /\ nth_error l K = Some o /\
      ScenarioOption.scenariooptionid o = ScenarioOption.scenariooptionid opt.
Proof.
  induction l as [|x l IH]; intros i j; simpl; [discriminate|].
  destruct (Z.eqb_spec (ScenarioOption.scenariooptionid x)
                       (ScenarioOption.scenariooptionid opt)) as [E|NE].
  - intros [= <-]. exists 0%nat, x. rewrite Nat.add_0_r. auto.
  - intros H. apply IH in H as (K & o & -> & Hnth & Hid).
    exists (S K), o. repeat split; auto; lia.
Qed.

Lemma list_index_total (l : list ScenarioOption.t) (opt : ScenarioOption.t) :
  In opt l -> forall i, exists j, list_index l opt i = Ok j.
Proof.
  induction l as [|x l IH]; intros Hin i; simpl; [destruct Hin|].
  destruct (Z.eqb_spec (ScenarioOption.scenariooptionid x)
                       (ScenarioOption.scenariooptionid opt)) as [E|NE]; [eauto|].
  destruct Hin as [->|Hin]; [congruence | now apply IH].
Qed.

Lemma score_map_key_total (db : Session) (opt : ScenarioOption.t) :
  In opt (scenariooption db) -> exists key, score_map_key db opt = Ok key.
Proof.
  intros Hin. unfold score_map_key.
  destruct (list_index_total
              (options_of_scenario db (ScenarioOption.scenarioid opt)) opt) with (i := 0%nat)
    as [j ->]; [|cbn [bind]; eauto].
  apply options_of_scenario_In. auto.
Qed.

(** The letter in a key of the score map is the letter of a position in
    the scenario's ordered options. *)
Lemma score_map_key_position (db : Session) (opt : ScenarioOption.t)
    (s : Z) (option_letter : string) :
  score_map_key db opt = Ok (s, option_letter) ->
  exists K o,
    nth_error (options_of_scenario db s) K = Some o /\ option_letter = chr (65 + K).
Proof.
  unfold score_map_key.
  destruct (list_index _ opt 0) as [j|] eqn:E; [|discriminate].
  cbn [bind]. intros [= <- <-].
  apply list_index_found in E as (K & o & -> & Hnth & _). eauto.
Qed.

Lemma build_score_map_total (db : Database) (all_options : list ScenarioOption.t) :
  (forall opt, In opt all_options -> In opt (scenariooption (session db))) ->
  forall m, exists m', build_score_map db all_options m = Ok m'.
Proof.
  induction all_options as [|opt rest IH]; intros H m; simpl; [eauto|].
  destruct (score_map_key_total (session db) opt (H opt (or_introl eq_refl)))
    as [key ->].
  cbn [bind]. apply IH. intros o Ho. apply H. now right.
Qed.

Lemma build_score_map_keys (db : Database) (all_options : list ScenarioOption.t) :
  forall m m' key entry,
    build_score_map db all_options m = Ok m' ->
    lookup key_eqb m' key = Some entry ->
    (exists entry0, lookup key_eqb m key = Some entry0)
    \/ exists opt, In opt all_options /\ score_map_key (session db) opt = Ok key.
Proof.
  induction all_options as [|opt rest IH]; intros m m' key entry; simpl.
  - intros [= <-] H. eauto.
  - destruct (score_map_key (session db) opt) as [k|] eqn:Ek; [|discriminate].
    cbn [bind]. intros Hb Hl.
    destruct (IH _ _ _ _ Hb Hl) as [[entry0 H0]|(o & Ho & Hk)].
    + rewrite score_map_lookup_set in H0.
      destruct (key_eqb k key) eqn:E; [|eauto].
      apply key_eqb_eq in E. subst k. right. exists opt. auto.
    + right. exists o. auto.
Qed.

(** ** The accumulators *)

Lemma keys_sset_same {V W} (d : sdict V) (d' : sdict W) (k : string) (v : V) (w : W) :
  keys d = keys d' -> keys (sset d k v) = keys (sset d' k w).
Proof.
  unfold keys, sset. revert d'.
  induction d as [|[k0 v0] d IH]; intros [|[k0' w0] d']; simpl; try discriminate.
  - reflexivity.
  - intros [= <- H]. destruct (String.eqb k0 k); simpl; [now rewrite H|].
    f_equal. now apply IH.
Qed.

Lemma add_response_keys (m : score_map_t) (responses : list ResponseIn.t) :
  forall acc,
    keys (fst acc) = keys (snd acc) ->
    keys (fst (fold_left (add_response m) responses acc))
    = keys (snd (fold_left (add_response m) responses acc)).
Proof.
  induction responses as [|r rest IH]; intros acc H; simpl; [exact H|].
  apply IH. unfold add_response.
  destruct (lookup key_eqb m _) as [[competency_name score]|]; [|exact H].
  cbn [fst snd]. now apply keys_sset_same.
Qed.

Lemma average_scores_total (competency_scores : sdict Q) (competency_counts : sdict Z)
    (names : list string) :
  keys competency_scores = keys competency_counts ->
  (forall n, In n names -> In n (keys competency_scores)) ->
  forall final_scores,
  exists final_scores',
    average_scores names competency_scores competency_counts final_scores
    = Ok final_scores'.
Proof.
  intros Hk. induction names as [|n rest IH]; intros Hin final_scores; simpl;
    [eauto|].
  assert (Hn := Hin n (or_introl eq_refl)).
  unfold getitem, Responses.truediv.
  destruct (sget competency_counts n) as [count|] eqn:Ec;
    [|apply sget_None in Ec; rewrite <- Hk in Ec; contradiction].
  cbn [bind].
  destruct (Z.gtb_spec count 0); [|apply IH; intros x Hx; apply Hin; now right].
  destruct (sget competency_scores n) as [total|] eqn:Et;
    [|apply sget_None in Et; contradiction].
  cbn [bind]. destruct (Z.eqb_spec count 0); [lia|]. cbn [bind].
  apply IH. intros x Hx. apply Hin. now right.
Qed.

(** ** Default scores *)

Lemma default_scores_lookup (missing : list string) (final_scores : sdict Q)
    (k : string) :
  sget (fold_left (fun scores comp => sset scores comp 0.5%Q) missing final_scores) k
  = if in_dec string_dec k missing then Some 0.5%Q else sget final_scores k.
Proof.
  revert final_scores. induction missing as [|c rest IH]; intros final_scores;
    [reflexivity|].
  cbn [fold_left]. rewrite IH, sget_sset.
  destruct (in_dec string_dec k rest) as [Hin|Hnin];
    destruct (in_dec string_dec k (c :: rest)) as [Hin'|Hnin'];
    try reflexivity.
  - exfalso. apply Hnin'. now right.
  - destruct Hin' as [->|Hin']; [|contradiction]. now rewrite String.eqb_refl.
  - destruct (String.eqb_spec c k) as [->|]; [|reflexivity].
    exfalso. apply Hnin'. now left.
Qed.

Lemma average_scores_lookup (competency_scores : sdict Q) (competency_counts : sdict Z)
    (names : list string) :
  (forall n, In n names ->
     exists t c, sget competency_scores n = Some t /\
                 sget competency_counts n = Some c /\ (0 < c)%Z) ->
  forall final_scores,
  exists final_scores',
    average_scores names competency_scores competency_counts final_scores
    = Ok final_scores' /\
    forall k,
      (In k names ->
       forall t c, sget competency_scores k = Some t ->
                   sget competency_counts k = Some c ->
                   sget final_scores' k = Some (round1 (t / inject_Z c)%Q)) /\
      (~ In k names -> sget final_scores' k = sget final_scores k).
Proof.
  induction names as [|n rest IH]; intros Hnames final_scores.
  - exists final_scores. split; [reflexivity|]. intros k. split; [intros []|auto].
  - destruct (Hnames n (or_introl eq_refl)) as (t0 & c0 & Ht0 & Hc0 & Hpos).
    destruct (IH (fun x Hx => Hnames x (or_intror Hx))
                 (sset final_scores n (round1 (t0 / inject_Z c0)%Q)))
      as (final_scores' & Hrun & Hget).
    exists final_scores'. split.
    + simpl. unfold getitem, Responses.truediv. rewrite Hc0. cbn [bind].
      destruct (Z.gtb_spec c0 0); [|lia]. rewrite Ht0. cbn [bind].
      destruct (Z.eqb_spec c0 0); [lia|]. cbn [bind]. exact Hrun.
    + intros k. destruct (Hget k) as [Hin Hout]. split.
      * intros Hk t c Ht Hc.
        destruct (in_dec string_dec k rest) as [Hr|Hr]; [now apply Hin|].
        destruct Hk as [->|Hk]; [|contradiction].
        rewrite (Hout Hr), sget_sset, String.eqb_refl. congruence.
      * intros Hk. rewrite Hout by (intros H; apply Hk; now right).
        rewrite sget_sset. destruct (String.eqb_spec n k) as [->|]; [|reflexivity].
        exfalso. apply Hk. now left.
Qed.

(** ** The option a response picks *)

Lemma find_enumerate_none {A} (f : nat * A -> bool) (l : list A) :
  forall i,
    find f (enumerate_from i l) = None ->
    forall K a, nth_error l K = Some a -> f ((i + K)%nat, a) = false.
Proof.
  induction l as [|x l IH]; intros i H [|K] a Hn; simpl in *; try discriminate.
  - injection Hn as <-. rewrite Nat.add_0_r.
    destruct (f (i, x)); [discriminate | reflexivity].
  - destruct (f (i, x)); [discriminate|].
    replace (i + S K)%nat with (S i + K)%nat by lia. now apply IH.
Qed.

Lemma find_enumerate_some {A} (f : nat * A -> bool) (l : list A) :
  forall i j a,
    find f (enumerate_from i l) = Some (j, a) ->
    exists K, j = (i + K)%nat /\ nth_error l K = Some a /\ f (j, a) = true.
Proof.
  induction l as [|x l IH]; intros i j a; simpl; [discriminate|].
  destruct (f (i, x)) eqn:E.
  - intros [= <- <-]. exists 0%nat. rewrite Nat.add_0_r. auto.
  - intros H. apply IH in H as (K & -> & Hn & Hf).
    exists (S K). repeat split; auto; lia.
Qed.

Lemma picked_none (db : Database) (r : ResponseIn.t) :
  picked db r = None ->
  forall K o,
    nth_error (options_of_scenario (session db) (ResponseIn.scenario_id r)) K = Some o ->
    chr (65 + K) <> ResponseIn.option_letter r.
Proof.
  unfold picked.
  destruct (find _ _) as [[j o]|] eqn:E; [discriminate|].
  intros _ K o Hn Heq.
  pose proof (find_enumerate_none _ _ 0%nat E K o Hn) as H.
  change (String.eqb (chr (65 + K)) (ResponseIn.option_letter r) = false) in H.
  rewrite Heq, String.eqb_refl in H. discriminate.
Qed.

Lemma picked_some (db : Database) (r : ResponseIn.t) (o : ScenarioOption.t) :
  picked db r = Some o ->
  exists K,
    nth_error (options_of_scenario (session db) (ResponseIn.scenario_id r)) K = Some o /\
    ResponseIn.option_letter r = chr (65 + K).
Proof.
  unfold picked.
  destruct (find _ _) as [[j o']|] eqn:E; [|discriminate].
  intros [= <-].
  apply find_enumerate_some in E as (K & -> & Hn & Hf).
  exists K. split; [exact Hn|].
  change (String.eqb (chr (65 + K)) (ResponseIn.option_letter r) = true) in Hf.
  apply String.eqb_eq in Hf. auto.
Qed.

Lemma unmatched_key_not_in_score_map (db : Database) (m : score_map_t)
    (r : ResponseIn.t) :
  build_score_map db (scenariooption (session db)) [] = Ok m ->
  picked db r = None ->
  lookup key_eqb m (ResponseIn.scenario_id r, ResponseIn.option_letter r) = None.
Proof.
  intros Hb Hp.
  destruct (lookup key_eqb m _) as [entry|] eqn:E; [|reflexivity].
  destruct (build_score_map_keys _ _ _ _ _ _ Hb E) as [[e0 H0]|(opt & Hin & Hk)];
    [discriminate|].
  apply score_map_key_position in Hk as (K & o & Hn & Hl).
  exfalso. apply (picked_none db r Hp K o Hn). auto.
Qed.

Lemma add_response_unmatched (db : Database) (m : score_map_t)
    (acc : sdict Q * sdict Z) (r : ResponseIn.t) :
  build_score_map db (scenariooption (session db)) [] = Ok m ->
  picked db r = None ->
  add_response m acc r = acc.
Proof.
  intros Hb Hp. unfold add_response. cbv zeta.
  now rewrite (unmatched_key_not_in_score_map db m r Hb Hp).
Qed.

Lemma transform_without (db : Database) (before after : list ResponseIn.t)
    (r : ResponseIn.t) :
  picked db r = None ->
  transform_responses_to_scores db (before ++ r :: after)
  = transform_responses_to_scores db (before ++ after).
Proof.
  intros Hp. unfold transform_responses_to_scores.
  destruct (build_score_map db (scenariooption (session db)) []) as [m|e] eqn:Hb;
    [|reflexivity].
  cbn [bind]. rewrite !fold_left_app. cbn [fold_left].
  now rewrite (add_response_unmatched db m _ r Hb Hp).
Qed.

(** ** What the score map holds *)

Lemma build_score_map_snoc (db : Database) (all_options : list ScenarioOption.t)
    (x : ScenarioOption.t) :
  forall m,
    build_score_map db (all_options ++ [x]) m
    = bind (build_score_map db all_options m) (fun m1 =>
      bind (score_map_key (session db) x) (fun key =>
      Ok (set key_eqb m1 key (competency_of db x, ScenarioOption.score x)))).
Proof.
  induction all_options as [|o rest IH]; intros m; simpl.
  - destruct (score_map_key (session db) x); reflexivity.
  - destruct (score_map_key (session db) o); cbn [bind]; [apply IH | reflexivity].
Qed.

Lemma build_score_map_lookup (db : Database) (all_options : list ScenarioOption.t) :
  forall m m',
    build_score_map db all_options m = Ok m' ->
    forall key,
      ((forall o, In o all_options -> score_map_key (session db) o <> Ok key) ->
       lookup key_eqb m' key = lookup key_eqb m key) /\
      (forall o,
         In o all_options ->
         score_map_key (session db) o = Ok key ->
         (forall o', In o' all_options ->
                     score_map_key (session db) o' = Ok key -> o' = o) ->
         lookup key_eqb m' key
         = Some (competency_of db o, ScenarioOption.score o)).
Proof.
  induction all_options as [|x rest IH] using rev_ind; intros m m' H key.
  - simpl in H. injection H as <-. split; [reflexivity | intros o []].
  - rewrite build_score_map_snoc in H.
    destruct (build_score_map db rest m) as [m1|] eqn:E1; [|discriminate].
    destruct (score_map_key (session db) x) as [kx|] eqn:Ex; [|discriminate].
    cbn [bind] in H. injection H as <-.
    rewrite score_map_lookup_set.
    destruct (key_eqb kx key) eqn:Ek.
    + apply key_eqb_eq in Ek. subst kx. split.
      * intros Hno. exfalso. apply (Hno x); [|exact Ex].
        apply in_or_app. right. now left.
      * intros o Hin Hk Huniq.
        assert (x = o) as ->; [|reflexivity].
        apply Huniq; [|exact Ex]. apply in_or_app. right. now left.
    + destruct (IH m m1 E1 key) as [I1 I2]. split.
      * intros Hno. apply I1. intros o Hin. apply Hno. apply in_or_app. now left.
      * intros o Hin Hk Huniq. apply in_app_or in Hin as [Hin|[<-|[]]].
        -- apply I2; auto. intros o' Hin' Hk'. apply Huniq; auto.
           apply in_or_app. now left.
        -- exfalso. rewrite Ex in Hk. injection Hk as ->.
           assert (key_eqb key key = true) by now apply key_eqb_eq.
           congruence.
Qed.

Lemma chr_letter_injective (K K' : nat) :
  (K < 26)%nat -> (K' < 26)%nat -> chr (65 + K) = chr (65 + K') -> K = K'.
Proof.
  intros H H' E. unfold chr in E. injection E as E.
  apply (f_equal nat_of_ascii) in E.
  rewrite !nat_ascii_embedding in E by lia. lia.
Qed.

Lemma score_map_key_own_position (db : Session) (o : ScenarioOption.t)
    (s : Z) (option_letter : string) :
  option_ids_unique db ->
  In o (scenariooption db) ->
  score_map_key db o = Ok (s, option_letter) ->
  exists K,
    nth_error (options_of_scenario db s) K = Some o /\ option_letter = chr (65 + K).
Proof.
  intros Hu Hin. unfold score_map_key.
  destruct (list_index _ o 0) as [j|] eqn:E; [|discriminate].
  cbn [bind]. intros [= <- <-].
  apply list_index_found in E as (K & o' & -> & Hn & Hid).
  exists K. split; [|reflexivity].
  assert (o' = o) as <-; [|exact Hn].
  apply (NoDup_map_injective ScenarioOption.scenariooptionid (scenariooption db));
    auto.
  apply nth_error_In in Hn. now apply options_of_scenario_In in Hn.
Qed.

Lemma score_map_key_unique (db : Database) (o o' : ScenarioOption.t)
    (key : Z * string) :
  option_ids_unique (session db) ->
  letters_suffice db ->
  In o (scenariooption (session db)) ->
  In o' (scenariooption (session db)) ->
  score_map_key (session db) o = Ok key ->
  score_map_key (session db) o' = Ok key ->
  o' = o.
Proof.
  intros Hu Hl Hin Hin' Hk Hk'. destruct key as [s option_letter].
  apply score_map_key_own_position in Hk as (K & Hn & E); auto.
  apply score_map_key_own_position in Hk' as (K' & Hn' & E'); auto.
  assert (K = K').
  { apply chr_letter_injective; [| |congruence].
    - specialize (Hl s). assert (nth_error (options_of_scenario (session db) s) K <> None)
        by congruence.
      apply nth_error_Some in H. lia.
    - specialize (Hl s). assert (nth_error (options_of_scenario (session db) s) K' <> None)
        by congruence.
      apply nth_error_Some in H. lia. }
  subst K'. congruence.
Qed.

Lemma score_map_lookup_picked (db : Database) (m : score_map_t) (r : ResponseIn.t) :
  option_ids_unique (session db) ->
  letters_suffice db ->
  build_score_map db (scenariooption (session db)) [] = Ok m ->
  lookup key_eqb m (ResponseIn.scenario_id r, ResponseIn.option_letter r)
  = option_map (fun o => (competency_of db o, ScenarioOption.score o)) (picked db r).
Proof.
  intros Hu Hl Hb. destruct (picked db r) as [o|] eqn:Hp; cbn [option_map].
  - apply picked_some in Hp as (K & Hn & E).
    assert (Hin : In o (scenariooption (session db))).
    { apply nth_error_In in Hn. now apply options_of_scenario_In in Hn. }
    assert (Hk : score_map_key (session db) o
                 = Ok (ResponseIn.scenario_id r, ResponseIn.option_letter r)).
    { rewrite E. now apply score_map_key_nth. }
    apply (proj2 (build_score_map_lookup _ _ _ _ Hb _) o Hin Hk).
    intros o' Hin' Hk'. exact (score_map_key_unique db o o' _ Hu Hl Hin Hin' Hk Hk').
  - exact (unmatched_key_not_in_score_map db m r Hb Hp).
Qed.

Lemma picked_scores_snoc (db : Database) (c : string)
    (responses : list ResponseIn.t) (r : ResponseIn.t) :
  picked_scores db c (responses ++ [r])
  = picked_scores db c responses
    ++ match picked db r with
       | Some o =>
           if String.eqb (competency_of db o) c then [ScenarioOption.score o] else []
       | None => []
       end.
Proof.
  unfold picked_scores. rewrite flat_map_app. cbn [flat_map].
  now rewrite app_nil_r.
Qed.

(** What the two dictionaries hold after the loop over the responses. *)
Lemma add_response_invariant (db : Database) (m : score_map_t)
    (responses : list ResponseIn.t) :
  (forall r,
     lookup key_eqb m (ResponseIn.scenario_id r, ResponseIn.option_letter r)
     = option_map (fun o => (competency_of db o, ScenarioOption.score o))
                  (picked db r)) ->
  let acc := fold_left (add_response m) responses ([], []) in
  forall c,
    sget (fst acc) c
    = match picked_scores db c responses with
      | [] => None
      | l => Some (ResponsesSpec.total l)
      end /\
    sget (snd acc) c
    = match picked_scores db c responses with
      | [] => None
      | l => Some (Z.of_nat (List.length l))
      end.
Proof.
  intros Hm. induction responses as [|r responses IH] using rev_ind; intros acc c.
  - split; reflexivity.
  - subst acc. rewrite fold_left_app. cbn [fold_left].
    set (acc := fold_left (add_response m) responses ([], [])) in *.
    destruct (IH c) as [Ht Hc].
    rewrite picked_scores_snoc. unfold add_response. cbv zeta. rewrite Hm.
    destruct (picked db r) as [o|]; cbn [option_map];
      [|rewrite app_nil_r; auto].
    cbn [fst snd]. rewrite !sget_sset.
    destruct (String.eqb_spec (competency_of db o) c) as [E|NE];
      [|rewrite app_nil_r; auto].
    unfold Responses.get0. rewrite E, Ht, Hc.
    destruct (picked_scores db c responses) as [|a l]; cbn [app].
    + split; reflexivity.
    + split.
      * f_equal. change (a :: l ++ [ScenarioOption.score o])
          with ((a :: l) ++ [ScenarioOption.score o]).
        now rewrite ResponsesFacts.total_snoc.
      * f_equal. change (a :: l ++ [ScenarioOption.score o])
          with ((a :: l) ++ [ScenarioOption.score o]).
        rewrite length_app. simpl. lia.
Qed.

Lemma options_of_scenario_length (db : Session) (scenario_id : Z) :
  (List.length (options_of_scenario db scenario_id)
   <= List.length (scenariooption db))%nat.
Proof.
  rewrite (Permutation_length (options_of_scenario_perm db scenario_id)).
  apply filter_length_le.
Qed.

Lemma db_competency_names_In (db : Database) (c : string) :
  In c (db_competency_names db) <-> In c (map Competency.name (competency db)).
Proof. apply nodup_In. Qed.

Lemma missing_competencies_In (db : Database) (final_scores : sdict Q) (c : string) :
  In c (filter (not_in final_scores) (db_competency_names db))
  <-> In c (map Competency.name (competency db)) /\ sget final_scores c = None.
Proof.
  rewrite filter_In, db_competency_names_In. unfold not_in.
  destruct (sget final_scores c); intuition discriminate.
Qed.

(** ** The service as a whole *)

(** X15. [transform_responses_to_scores] raises on no batch of responses,
    and its result has a score for every competency of the database,
    whether or not a response touches it. *)
Theorem every_competency_is_scored (db : Database) (responses : list ResponseIn.t) :
  exists final_scores,
    transform_responses_to_scores db responses = Ok final_scores /\
    forall c, In c (competency db) ->
              exists v, sget final_scores (Competency.name c) = Some v.
Proof.
  unfold transform_responses_to_scores.
  destruct (build_score_map_total db (scenariooption (session db))
              (fun o H => H) []) as [m ->].
  cbn [bind].
  set (acc := fold_left (add_response m) responses ([], [])).
  destruct (average_scores_total (fst acc) (snd acc) (keys (fst acc)))
    with (final_scores := @nil (string * Q)) as [final_scores ->].
  - apply (add_response_keys m responses ([], [])). reflexivity.
  - auto.
  - cbn [bind]. eexists. split; [reflexivity|].
    intros c Hc. rewrite default_scores_lookup.
    destruct (in_dec string_dec _ _) as [Hin|Hnin]; [eauto|].
    destruct (sget final_scores (Competency.name c)) as [v|] eqn:E; [eauto|].
    exfalso. apply Hnin. apply missing_competencies_In.
    split; [now apply in_map | exact E].
Qed.

Lemma every_competency_is_scored_witness :
  exists final_scores,
    transform_responses_to_scores EndpointsSamples.school_db
      [answer 1 "B"; answer 3 "a"] = Ok final_scores /\
    exists v, sget final_scores "Leadership" = Some v.
Proof.
  destruct (every_competency_is_scored EndpointsSamples.school_db
              [answer 1 "B"; answer 3 "a"]) as (final_scores & Hrun & Hall).
  exists final_scores. split; [exact Hrun|].
  apply (Hall {| Competency.competencyid := 3; Competency.name := "Leadership" |}).
  simpl. auto.
Defined.

(** X16. A response that picks no option, because its scenario is unknown
    or because none of the scenario's options stands at the position that
    its letter spells, is ignored: the scores are those of the batch
    without it. *)
Theorem unmatched_response_is_ignored (db : Database)
    (before after : list ResponseIn.t) (r : ResponseIn.t) :
  picked db r = None ->
  transform_responses_to_scores db (before ++ r :: after)
  = transform_responses_to_scores db (before ++ after).
Proof. apply transform_without. Qed.

Lemma unmatched_response_is_ignored_witness :
  transform_responses_to_scores EndpointsSamples.school_db
    ([answer 1 "B"] ++ answer 9 "A" :: [answer 2 "A"])
  = transform_responses_to_scores EndpointsSamples.school_db
      ([answer 1 "B"] ++ [answer 2 "A"]).
Proof.
  apply (unmatched_response_is_ignored EndpointsSamples.school_db
           [answer 1 "B"] [answer 2 "A"] (answer 9 "A")).
  reflexivity.
Defined.

(** X17. With unique option identifiers and at most 26 options per
    scenario, it is known competency by competency where a score comes from:
    a competency for which the responses pick an option has a score; every
    other competency of the database gets the default 0.5; no other name
    gets a score. *)
Theorem scores_come_from_picked_options_or_default (db : Database)
    (responses : list ResponseIn.t) :
  option_ids_unique (session db) ->
  letters_suffice db ->
  exists final_scores,
    transform_responses_to_scores db responses = Ok final_scores /\
    forall c,
      match picked_scores db c responses with
      | [] =>
          sget final_scores c
          = if in_dec string_dec c (map Competency.name (competency db))
            then Some 0.5%Q else None
      | _ :: _ => exists score, sget final_scores c = Some score
      end.
Proof.
  intros Hu Hl. unfold transform_responses_to_scores.
  destruct (build_score_map_total db (scenariooption (session db))
              (fun o H => H) []) as [m Hb].
  rewrite Hb. cbn [bind].
  pose proof (add_response_invariant db m responses
                (fun r => score_map_lookup_picked db m r Hu Hl Hb)) as Hinv.
  cbv zeta in Hinv.
  set (acc := fold_left (add_response m) responses ([], [])) in *.
  destruct (average_scores_lookup (fst acc) (snd acc) (keys (fst acc)))
    with (final_scores := @nil (string * Q)) as (final_scores & -> & Hget).
  { intros n Hn. apply ResponsesFacts.in_keys_sget in Hn as [t Ht].
    destruct (Hinv n) as [Ht' Hc'].
    destruct (picked_scores db n responses) as [|a l]; [congruence|].
    exists t, (Z.of_nat (List.length (a :: l))).
    repeat split; auto; simpl; lia. }
  cbn [bind]. eexists. split; [reflexivity|].
  intros c. rewrite default_scores_lookup.
  destruct (Hinv c) as [Ht Hc]. destruct (Hget c) as [Hin Hout].
  destruct (picked_scores db c responses) as [|a l].
  - assert (Hnone : sget final_scores c = None).
    { rewrite Hout; [reflexivity|].
      intros Hk. apply ResponsesFacts.in_keys_sget in Hk as [t Ht']. congruence. }
    rewrite Hnone.
    destruct (in_dec string_dec c _) as [H1|H1];
      destruct (in_dec string_dec c _) as [H2|H2]; try reflexivity.
    + exfalso. apply H2. now apply missing_competencies_In in H1.
    + exfalso. apply H1. apply missing_competencies_In. auto.
  - assert (Hsome : sget final_scores c = Some (round1 (ResponsesSpec.mean (a :: l)))).
    { apply (Hin (proj2 (ResponsesFacts.in_keys_sget _ _) (ex_intro _ _ Ht)) _ _ Ht Hc). }
    rewrite Hsome. destruct (in_dec string_dec c _); eauto.
Qed.

Lemma school_db_letters_suffice : letters_suffice EndpointsSamples.school_db.
Proof.
  intros s.
  eapply Nat.le_trans; [apply options_of_scenario_length|].
  vm_compute. repeat constructor.
Qed.

Lemma scores_come_from_picked_options_or_default_witness :
  exists final_scores,
    transform_responses_to_scores EndpointsSamples.school_db
      [answer 1 "B"; answer 2 "A"; answer 3 "a"; answer 9 "A"] = Ok final_scores /\
    forall c,
      match picked_scores EndpointsSamples.school_db c
              [answer 1 "B"; answer 2 "A"; answer 3 "a"; answer 9 "A"] with
      | [] =>
          sget final_scores c
          = if in_dec string_dec c
                 (map Competency.name (competency EndpointsSamples.school_db))
            then Some 0.5%Q else None
      | _ :: _ => exists score, sget final_scores c = Some score
      end.
Proof.
  apply (scores_come_from_picked_options_or_default EndpointsSamples.school_db
           [answer 1 "B"; answer 2 "A"; answer 3 "a"; answer 9 "A"]).
  - unfold option_ids_unique. simpl.
    repeat (constructor; [simpl; intuition discriminate|]). constructor.
  - exact school_db_letters_suffice.
Defined.

(** ** Letter case in the two services *)

Lemma upper_char_lower_letter (K : nat) :
  (K < 26)%nat -> upper_char (ascii_of_nat (97 + K)) = ascii_of_nat (65 + K).
Proof.
  intros H. unfold upper_char. rewrite nat_ascii_embedding by lia.
  replace ((97 <=? 97 + K)%nat) with true by (symmetry; apply Nat.leb_le; lia).
  replace ((97 + K <=? 122)%nat) with true by (symmetry; apply Nat.leb_le; lia).
  cbn [andb]. f_equal; lia.
Qed.

Lemma lower_letter_picks_nothing (db : Database) (scenario_id : Z) (K : nat) :
  letters_suffice db ->
  (K < 26)%nat ->
  picked db (answer scenario_id (chr (97 + K))) = None.
Proof.
  intros Hl HK. unfold picked.
  destruct (find _ _) as [[j o]|] eqn:E; [|reflexivity].
  exfalso. apply find_enumerate_some in E as (K' & -> & Hn & Hf).
  cbn [fst answer ResponseIn.option_letter ResponseIn.scenario_id] in Hf, Hn.
  apply String.eqb_eq in Hf. unfold chr in Hf. injection Hf as Hf.
  assert (K' < 26)%nat.
  { specialize (Hl scenario_id).
    assert (nth_error (options_of_scenario (session db) scenario_id) K' <> None)
      by congruence.
    apply nth_error_Some in H. lia. }
  apply (f_equal nat_of_ascii) in Hf.
  rewrite !nat_ascii_embedding in Hf by lia. lia.
Qed.

(** X18. The two services read a lower-case letter differently.  In a
    database with at most 26 options per scenario, the lower-case letter of
    an option's position is accepted by
    [convert_option_letter_to_scenariooptionid], which resolves it to that
    option, while [transform_responses_to_scores] ignores a response that
    carries it. *)
Theorem lower_case_letter_is_stored_but_not_scored (db : Database)
    (scenario_id : Z) (K : nat) (o : ScenarioOption.t) :
  letters_suffice db ->
  nth_error (options_of_scenario (session db) scenario_id) K = Some o ->
  convert_option_letter_to_scenariooptionid (session db) scenario_id (chr (97 + K))
  = Ok (ScenarioOption.scenariooptionid o) /\
  forall before after,
    transform_responses_to_scores db
      (before ++ answer scenario_id (chr (97 + K)) :: after)
    = transform_responses_to_scores db (before ++ after).
Proof.
  intros Hl Hn.
  assert (HK : (K < 26)%nat).
  { specialize (Hl scenario_id).
    assert (nth_error (options_of_scenario (session db) scenario_id) K <> None)
      by congruence.
    apply nth_error_Some in H. lia. }
  split.
  - unfold chr. apply convert_ok; cbv zeta;
      rewrite (upper_char_lower_letter K HK), nat_ascii_embedding by lia.
    + lia.
    + replace (65 + K - 65)%nat with K by lia. exact Hn.
  - intros before after. apply transform_without.
    now apply lower_letter_picks_nothing.
Qed.

Lemma lower_case_letter_is_stored_but_not_scored_witness :
  convert_option_letter_to_scenariooptionid (session EndpointsSamples.school_db) 1
    (chr (97 + 1))
  = Ok (ScenarioOption.scenariooptionid (EndpointsSamples.scored_option 2 1 4%Q)) /\
  forall before after,
    transform_responses_to_scores EndpointsSamples.school_db
      (before ++ answer 1 (chr (97 + 1)) :: after)
    = transform_responses_to_scores EndpointsSamples.school_db (before ++ after).
Proof.
  apply (lower_case_letter_is_stored_but_not_scored EndpointsSamples.school_db
           1 1%nat (EndpointsSamples.scored_option 2 1 4%Q)).
  - exact school_db_letters_suffice.
  - reflexivity.
Defined.

End TransformationFacts.
